(** * TreeNode: a shallow embedding of the class [TreeNode<T>]

    The class is a mutable object graph: every node holds a payload, a
    back reference to its parent, an array of children and a cached
    sibling position ([_index]).  Two revisions of [TreeNode.ts] are
    embedded together: the one whose [add] takes an optional position and
    which has [swap], and the one with the nested-array form, whose [add]
    only appends.  [add] without a position in the former is the [add] of
    the latter statement for statement, and the other methods modelled
    here agree in both.  The getter [index] of the revisions before the
    cache, which searches the children of the parent, is modelled beside
    the cached one as [index_by_indexOf].

    Objects are cells of a store addressed by their allocation number; a
    mutating method is a computation over that store which returns,
    throws, or gets stuck (a fuel bound was reached, or an address
    without an object was used); a method that only reads takes the
    store and returns an [option].  One payload type [T] serves the
    whole store, also for the trees [map] and [mapAsync] build.  [drop]
    and [map] are [drop_node] and [map_node] here, [drop] and [map] being
    list functions. *)

From Stdlib Require Import ZArith String Ascii DecimalString DecimalZ DecimalPos.
From stdpp Require Import base list strings.

Set Warnings "-register-all".

(** ** Objects and the store *)

Abbreviation loc := nat.

(** [_index] only ever receives array lengths and loop counters, hence
    [nat]; positions that callers pass are integers, [Z]. *)
Record node (T : Type) : Type := Node {
  model : T;
  parent : option loc;
  children : list loc;
  index : nat;
}.
Arguments Node {T} _ _ _ _.
Arguments model {T} _.
Arguments parent {T} _.
Arguments children {T} _.
Arguments index {T} _.

Abbreviation heap T := (list (node T)).

Inductive error : Type := RangeError.

Inductive outcome (T A : Type) : Type :=
| Ret (a : A) (h : heap T)
| Throw (e : error) (h : heap T)
| Stuck.
Arguments Ret {T A} _ _.
Arguments Throw {T A} _ _.
Arguments Stuck {T A}.

Definition M (T A : Type) : Type := heap T -> outcome T A.

Definition ret {T A} (a : A) : M T A := fun h => Ret a h.

Definition bind {T A B} (m : M T A) (k : A -> M T B) : M T B :=
  fun h =>
    match m h with
    | Ret a h' => k a h'
    | Throw e h' => Throw e h'
    | Stuck => Stuck
    end.

Definition throw {T A} (e : error) : M T A := fun h => Throw e h.

Definition stuck {T A} : M T A := fun _ => Stuck.

Declare Scope tn_scope.
Delimit Scope tn_scope with tn.
Notation "'let*' x ':=' m 'in' k" := (bind m (fun x => k))
  (at level 10, x name, m at level 100, k at level 200) : tn_scope.
Notation "m ';;;' k" := (bind m (fun _ => k))
  (at level 100, k at level 200, right associativity) : tn_scope.
Open Scope tn_scope.

(** ** Numbers and strings *)

(** The numbers of the program are sibling positions, their negations and
    run lengths: integers, far below the size where JavaScript prints an
    exponent.  They are rendered in decimal with a leading minus sign. *)
Definition number_to_string (z : Z) : string :=
  NilZero.string_of_int (Z.to_int z).

(** [Number(s)] on the strings a path key is made of: a decimal integer
    with an optional minus sign, and the empty string, which is 0.  Any
    other string is taken to [None], which stands for [NaN]; fractions,
    exponents, other radices and white space are not modelled. *)
Definition Number (s : string) : option Z :=
  match s with
  | EmptyString => Some 0%Z
  | _ => Z.of_int <$> NilZero.int_of_string s
  end.

(** [s.split(',')] *)
Fixpoint split_comma (s : string) : list string :=
  match s with
  | EmptyString => [EmptyString]
  | String c s' =>
      if Ascii.eqb c "," then EmptyString :: split_comma s'
      else
        match split_comma s' with
        | x :: xs => String c x :: xs
        | [] => [String c EmptyString]
        end
  end.

Section Store.
Context {T : Type}.

Definition deref (n : loc) : M T (node T) :=
  fun h => match h !! n with Some nd => Ret nd h | None => Stuck end.

Definition update (n : loc) (f : node T -> node T) : M T unit :=
  fun h => match h !! n with
           | Some nd => Ret tt (<[n := f nd]> h)
           | None => Stuck
           end.

(** [new TreeNode(model)]: parent [null], no children, [_index] 0. *)
Definition new_TreeNode (m : T) : M T loc :=
  fun h => Ret (length h) (h ++ [Node m None [] 0]).

Definition set_parent (n : loc) (p : option loc) : M T unit :=
  update n (fun nd => Node (model nd) p (children nd) (index nd)).

Definition set_index (n : loc) (i : nat) : M T unit :=
  update n (fun nd => Node (model nd) (parent nd) (children nd) i).

Definition set_children (n : loc) (cs : list loc) : M T unit :=
  update n (fun nd => Node (model nd) (parent nd) cs (index nd)).

Definition get_children (n : loc) : M T (list loc) :=
  let* nd := deref n in ret (children nd).

Definition get_parent (n : loc) : M T (option loc) :=
  let* nd := deref n in ret (parent nd).

Definition get_index (n : loc) : M T nat :=
  let* nd := deref n in ret (index nd).

Definition get_model (n : loc) : M T T :=
  let* nd := deref n in ret (model nd).

(** [arr[i]] for a JavaScript number [i] that is an integer: [undefined]
    outside the array. *)
Definition at_number {A} (l : list A) (i : Z) : option A :=
  if (i <? 0)%Z then None else l !! Z.to_nat i.

(** ** Getters *)

Definition isRoot (this : loc) : M T bool :=
  let* p := get_parent this in ret (if p is None then true else false).

Definition hasChildren (this : loc) : M T bool :=
  let* cs := get_children this in ret (0 <? length cs).

Definition isLeaf (this : loc) : M T bool :=
  let* b := hasChildren this in ret (negb b).

(** The getter [root]: follow [parent] while there is one. *)
Fixpoint root (fuel : nat) (h : heap T) (nd : loc) : option loc :=
  match fuel with
  | O => None
  | S fuel =>
      n ← h !! nd;
      match parent n with
      | None => Some nd
      | Some p => root fuel h p
      end
  end.

(** The getter [depth]: [this.parent ? this.parent.depth + 1 : 0]. *)
Fixpoint depth (fuel : nat) (h : heap T) (this : loc) : option nat :=
  match fuel with
  | O => None
  | S fuel =>
      n ← h !! this;
      match parent n with
      | Some p => d ← depth fuel h p; Some (d + 1)
      | None => Some 0
      end
  end.

(** The getter [siblings]. *)
Definition siblings (h : heap T) (this : loc) : option (list loc) :=
  n ← h !! this;
  match parent n with
  | None => Some []
  | Some p => pd ← h !! p; Some (filter (fun child => child <> this) (children pd))
  end.

(** [arr.indexOf(x)]: the first position that holds [x], or -1. *)
Definition indexOf (l : list loc) (x : loc) : Z :=
  match list_find (fun y => y = x) l with
  | Some (i, _) => Z.of_nat i
  | None => (-1)%Z
  end.

(** The getter [index] of the revisions without the cached position:
    [if (!this.parent) return 0; return this.parent.children.indexOf(this)]. *)
Definition index_by_indexOf (h : heap T) (this : loc) : option Z :=
  n ← h !! this;
  match parent n with
  | None => Some 0%Z
  | Some p => pd ← h !! p; Some (indexOf (children pd) this)
  end.

(** ** Index maintenance *)

(** The loop [for (let i = from; i < cs.length; i++) cs[i]._index = i].
    The array is not written in the loop, so it is read once; [cs] is
    the part of it from position [i] on. *)
Fixpoint reindex_from (cs : list loc) (i : nat) : M T unit :=
  match cs with
  | [] => ret tt
  | c :: cs' => set_index c i ;;; reindex_from cs' (S i)
  end.

Definition reindex (p : loc) (from : nat) : M T unit :=
  let* cs := get_children p in reindex_from (drop from cs) from.

(** [splice(i, 0, c)] on an array with [i] within [0 .. length]. *)
Definition splice_in (i : nat) (c : loc) (cs : list loc) : list loc :=
  take i cs ++ c :: drop i cs.

(** [add(child, index?)]; [index] is [None] when the argument is omitted
    and an integer otherwise.  Of the numbers that are not integers,
    [NaN] and a fraction between 0 and the length pass the check of the
    source; the method is modelled at integer positions only. *)
Definition add (this child : loc) (idx : option Z) : M T loc :=
  set_parent child (Some this) ;;;
  match idx with
  | None =>
      let* cs := get_children this in
      set_index child (length cs) ;;;
      let* cs := get_children this in
      set_children this (cs ++ [child])
  | Some i =>
      let* cs := get_children this in
      if (i <? 0)%Z || (Z.of_nat (length cs) <? i)%Z then throw RangeError
      else
        set_children this (splice_in (Z.to_nat i) child cs) ;;;
        reindex this (Z.to_nat i)
  end ;;;
  ret child.

Definition addModel (this : loc) (m : T) (idx : option Z) : M T loc :=
  let* c := new_TreeNode m in add this c idx.

(** [swap(i, j)], at integer positions; [NaN] and a fraction below the
    length pass the check of the source and are not modelled. *)
Definition swap (this : loc) (i j : Z) : M T unit :=
  let* cs := get_children this in
  let len := Z.of_nat (length cs) in
  if (i <? 0)%Z || (j <? 0)%Z || (len <=? i)%Z || (len <=? j)%Z then throw RangeError
  else if (i =? j)%Z then ret tt
  else
    match cs !! Z.to_nat i, cs !! Z.to_nat j with
    | Some ci, Some cj =>
        set_children this (<[Z.to_nat j := ci]> (<[Z.to_nat i := cj]> cs)) ;;;
        set_index cj (Z.to_nat i) ;;;
        set_index ci (Z.to_nat j)
    | _, _ => stuck
    end.

(** [drop()] *)
Definition drop_node (this : loc) : M T loc :=
  let* root := isRoot this in
  (if root then ret tt
   else
     let* idx := get_index this in
     let* p := get_parent this in
     match p with
     | None => stuck
     | Some p =>
         let* cs := get_children p in
         set_children p (delete idx cs) ;;;
         reindex p idx ;;;
         set_parent this None ;;;
         set_index this 0
     end) ;;;
  ret this.

(** ** Path addressing *)

(** The getter [indices]: walk the parent chain, then reverse. *)
Fixpoint indices_loop (fuel : nat) (h : heap T) (nd : loc) (acc : list nat)
  : option (list nat) :=
  match fuel with
  | O => None
  | S fuel =>
      n ← h !! nd;
      match parent n with
      | None => Some acc
      | Some p => indices_loop fuel h p (acc ++ [index n])
      end
  end.

Definition indices (fuel : nat) (h : heap T) (this : loc) : option (list nat) :=
  reverse <$> indices_loop fuel h this [].

(** [fetch(indices)]: the outer [None] is a stuck model, the inner one
    is the [null] the method returns. *)
Fixpoint fetch (h : heap T) (nd : loc) (idxs : list (option Z))
  : option (option loc) :=
  match idxs with
  | [] => Some (Some nd)
  | i :: rest =>
      n ← h !! nd;
      match i ≫= at_number (children n) with
      | None => Some None
      | Some c => fetch h c rest
      end
  end.

(** [pathKey]: the loop body, on the pair of [parts] and [zeroCount]. *)
Definition pathKey_step (st : list Z * Z) (idx : nat) : list Z * Z :=
  let '(parts, zeroCount) := st in
  if idx =? 0 then (parts, zeroCount + 1)%Z
  else
    let '(parts, zeroCount) :=
      if (0 <? zeroCount)%Z then (parts ++ [zeroCount], 0%Z)
      else (parts, zeroCount) in
    (parts ++ [(- Z.of_nat idx)%Z], zeroCount).

Definition pathKey_parts (idxs : list nat) : list Z :=
  let '(parts, zeroCount) := fold_left pathKey_step idxs ([], 0%Z) in
  if (0 <? zeroCount)%Z then parts ++ [zeroCount] else parts.

Definition pathKey_of (idxs : list nat) : string :=
  if length idxs =? 0 then EmptyString
  else String.concat "," (number_to_string <$> pathKey_parts idxs).

Definition pathKey (fuel : nat) (h : heap T) (this : loc) : option string :=
  pathKey_of <$> indices fuel h this.

(** The loop of [fetchByPathKey] over the parsed parts; a part that is
    [NaN] fails [part >= 0] and is pushed negated, which is [NaN] again. *)
Definition expand_part (part : option Z) : list (option Z) :=
  match part with
  | Some z =>
      if (0 <=? z)%Z then replicate (Z.to_nat z) (Some 0%Z) else [Some (- z)%Z]
  | None => [None]
  end.

Definition fetchByPathKey (h : heap T) (this : loc) (pathKey : string)
  : option (option loc) :=
  if String.eqb pathKey EmptyString then Some (Some this)
  else fetch h this (concat (expand_part <$> (Number <$> split_comma pathKey))).

(** [path()]: push the node and move to its parent until [null], then
    reverse. *)
Fixpoint path_loop (fuel : nat) (h : heap T) (node : option loc) (path : list loc)
  : option (list loc) :=
  match fuel with
  | O => None
  | S fuel =>
      match node with
      | None => Some path
      | Some nd => n ← h !! nd; path_loop fuel h (parent n) (path ++ [nd])
      end
  end.

Definition path (fuel : nat) (h : heap T) (this : loc) : option (list loc) :=
  reverse <$> path_loop fuel h (Some this) [].

(** ** Traversal *)

Section Search.
(** A [SearchCallback] closes over state of its own (the list that
    [flatten] fills); [St] is that state. *)
Context {St : Type}.
Variable h : heap T.
Variable callback : loc -> St -> St * bool.

Fixpoint breadth_loop (fuel : nat) (queue : list loc) (head : nat) (s : St)
  : option (St * option loc) :=
  match fuel with
  | O => None
  | S fuel =>
      if head <? length queue then
        nd ← queue !! head;
        let '(s, found) := callback nd s in
        if found then Some (s, Some nd)
        else
          n ← h !! nd;
          breadth_loop fuel (queue ++ children n) (S head) s
      else Some (s, None)
  end.

Definition breadth (fuel : nat) (this : loc) (s : St) : option (St * option loc) :=
  breadth_loop fuel [this] 0 s.

Fixpoint pre (fuel : nat) (this : loc) (s : St) : option (St * option loc) :=
  match fuel with
  | O => None
  | S fuel =>
      let '(s, found) := callback this s in
      if found then Some (s, Some this)
      else
        n ← h !! this;
        (fix each (cs : list loc) (s : St) : option (St * option loc) :=
           match cs with
           | [] => Some (s, None)
           | c :: cs =>
               '(s, r) ← pre fuel c s;
               match r with
               | Some nd => Some (s, Some nd)
               | None => each cs s
               end
           end) (children n) s
  end.

Fixpoint post (fuel : nat) (this : loc) (s : St) : option (St * option loc) :=
  match fuel with
  | O => None
  | S fuel =>
      n ← h !! this;
      '(s, r) ← (fix each (cs : list loc) (s : St) : option (St * option loc) :=
           match cs with
           | [] => Some (s, None)
           | c :: cs =>
               '(s, r) ← post fuel c s;
               match r with
               | Some nd => Some (s, Some nd)
               | None => each cs s
               end
           end) (children n) s;
      match r with
      | Some nd => Some (s, Some nd)
      | None =>
          let '(s, found) := callback this s in
          Some (s, if found then Some this else None)
      end
  end.
End Search.

End Store.

Inductive SearchStrategy : Type := StrategyPre | StrategyPost | StrategyBreadth.

Section Flatten.
Context {T : Type}.

(** [this[method](callback)] *)
Definition search {St} (method : SearchStrategy) (h : heap T)
    (callback : loc -> St -> St * bool) (fuel : nat) (this : loc) (s : St) :=
  match method with
  | StrategyPre => pre h callback fuel this s
  | StrategyPost => post h callback fuel this s
  | StrategyBreadth => breadth h callback fuel this s
  end.

(** [flatten(method)]: the callback pushes the node and returns
    [undefined], which is falsy. *)
Definition flatten (fuel : nat) (h : heap T) (this : loc) (method : SearchStrategy)
  : option (list loc) :=
  fst <$> search method h (fun nd list => (list ++ [nd], false)) fuel this [].

(** [node.flatten(method).map((node) => node.model)] *)
Definition mapModel (fuel : nat) (h : heap T) (this : loc) (method : SearchStrategy)
  : option (list T) :=
  l ← flatten fuel h this method; mapM (fun nd => model <$> h !! nd) l.

(** [find(predicate, method = "pre")]; a predicate reads the store, which
    no search writes. *)
Definition find (fuel : nat) (h : heap T) (this : loc) (predicate : loc -> bool)
    (method : option SearchStrategy) : option (option loc) :=
  snd <$> search (default StrategyPre method) h
            (fun nd (_ : unit) => (tt, predicate nd)) fuel this tt.

(** [findAll(predicate, method = "pre")]: the callback returns
    [undefined]. *)
Definition findAll (fuel : nat) (h : heap T) (this : loc) (predicate : loc -> bool)
    (method : option SearchStrategy) : option (list loc) :=
  fst <$> search (default StrategyPre method) h
            (fun nd results => (if predicate nd then results ++ [nd] else results, false))
            fuel this [].
End Flatten.

(** ** Transformation *)

Section Transform.
Context {T : Type}.

(** [arr.map((x, i) => f(x, i))], and the same under [Promise.all] with
    an [async] body; none of the bodies below writes the array. *)
Fixpoint array_map {A B} (f : A -> nat -> M T B) (l : list A) (i : nat)
  : M T (list B) :=
  match l with
  | [] => ret []
  | x :: l =>
      let* y := f x i in
      let* ys := array_map f l (S i) in
      ret (y :: ys)
  end.

(** A callback reads the store and returns a payload. *)
Definition call {A} (f : heap T -> A) : M T A := fun h => Ret (f h) h.

(** [clone()] *)
Fixpoint clone (fuel : nat) (this : loc) : M T loc :=
  match fuel with
  | O => stuck
  | S fuel =>
      let* m := get_model this in
      let* nd := new_TreeNode m in
      let* cs := get_children this in
      let* cs' := array_map (fun child i =>
                    let* newChild := clone fuel child in
                    set_parent newChild (Some nd) ;;;
                    set_index newChild i ;;;
                    ret newChild) cs 0 in
      set_children nd cs' ;;;
      ret nd
  end.

(** [map(callback)] *)
Fixpoint map_node (fuel : nat) (callback : loc -> heap T -> T) (this : loc)
  : M T loc :=
  match fuel with
  | O => stuck
  | S fuel =>
      let* m := call (callback this) in
      let* nd := new_TreeNode m in
      let* cs := get_children this in
      let* cs' := array_map (fun child i =>
                    let* newChild := map_node fuel callback child in
                    set_parent newChild (Some nd) ;;;
                    set_index newChild i ;;;
                    ret newChild) cs 0 in
      set_children nd cs' ;;;
      ret nd
  end.

(** [mapAsync(callback, parent?)].  A promise is modelled by the value
    it resolves to, and [await] by running the awaited computation to
    its end: the children's transforms run one after the other in
    sibling order, which is one of the interleavings the event loop
    allows.  [parent] is [None] for [undefined]. *)
Fixpoint mapAsync (fuel : nat) (callback : loc -> option loc -> heap T -> T)
    (this : loc) (parent : option loc) : M T loc :=
  match fuel with
  | O => stuck
  | S fuel =>
      let* m := call (callback this parent) in
      let* nd := new_TreeNode m in
      let* cs := get_children this in
      let* cs' := array_map (fun child i =>
                    let* newChild := mapAsync fuel callback child (Some nd) in
                    set_parent newChild (Some nd) ;;;
                    set_index newChild i ;;;
                    ret newChild) cs 0 in
      set_children nd cs' ;;;
      ret nd
  end.
End Transform.

(** ** Serialization *)

(** The shape of a subtree: payloads and order, without addresses. *)
Inductive tree (T : Type) : Type :=
| TNode (tmodel : T) (tchildren : list (tree T)).
Arguments TNode {T} _ _.

Fixpoint to_tree {T} (fuel : nat) (h : heap T) (this : loc) : option (tree T) :=
  match fuel with
  | O => None
  | S fuel =>
      nd ← h !! this;
      cs ← mapM (to_tree fuel h) (children nd);
      Some (TNode (model nd) cs)
  end.

(** JavaScript values as far as the nested-array form inspects them. *)
Inductive jsval (A : Type) : Type :=
| Undefined
| Scalar (a : A)
| Array (items : list (jsval A)).
Arguments Undefined {A}.
Arguments Scalar {A} _.
Arguments Array {A} _.

Definition isArray {A} (v : jsval A) : bool :=
  match v with Array _ => true | _ => false end.

Section NestedArray.
Context {A : Type}.
Abbreviation T := (jsval A).

(** [toNestedArray()] *)
Fixpoint toNestedArray (fuel : nat) (h : heap T) (this : loc) : option T :=
  match fuel with
  | O => None
  | S fuel =>
      nd ← h !! this;
      if negb (0 <? length (children nd)) then Some (model nd)
      else if length (children nd) =? 1 then
        c ← children nd !! 0;
        childResult ← toNestedArray fuel h c;
        match childResult with
        | Array items => Some (Array (model nd :: items))
        | _ => Some (Array [model nd; childResult])
        end
      else
        leaves ← mapM (fun c => n ← h !! c; Some (negb (0 <? length (children n))))
                      (children nd);
        if forallb id leaves then
          ms ← mapM (fun c => model <$> h !! c) (children nd);
          Some (Array [model nd; Array ms])
        else
          rs ← mapM (toNestedArray fuel h) (children nd);
          Some (Array (model nd :: rs))
  end.

(** [for (const x of xs) body(x)] *)
Fixpoint for_of {B} (xs : list B) (body : B -> M T unit) : M T unit :=
  match xs with
  | [] => ret tt
  | x :: xs => body x ;;; for_of xs body
  end.

(** The chain loop of [fromNestedArray]: [current = current.addModel(val)]. *)
Fixpoint chain (current : loc) (vals : list T) : M T unit :=
  match vals with
  | [] => ret tt
  | val :: vals => let* c := addModel current val None in chain c vals
  end.

(** [TreeNode.fromNestedArray(input)].  Destructuring an empty array
    binds [model] to [undefined]. *)
Fixpoint fromNestedArray (input : T) : M T loc :=
  match input with
  | Array [] => new_TreeNode Undefined
  | Array (model :: rest) =>
      let* nd := new_TreeNode model in
      match rest with
      | [] => ret nd
      | r0 :: rest' =>
          match r0, rest' with
          | Array inner, [] =>
              (if negb (existsb isArray inner)
               then for_of inner (fun leaf => addModel nd leaf None ;;; ret tt)
               else let* c := fromNestedArray r0 in add nd c None ;;; ret tt) ;;;
              ret nd
          | _, _ =>
              if negb (existsb isArray rest) then chain nd rest ;;; ret nd
              else
                (fix each (xs : list T) : M T unit :=
                   match xs with
                   | [] => ret tt
                   | childResult :: xs =>
                       let* c := fromNestedArray childResult in
                       add nd c None ;;; each xs
                   end) rest ;;;
                ret nd
          end
      end
  | _ => new_TreeNode input
  end.
End NestedArray.

(** ** Fixture of the test suite *)

Inductive parseable (T : Type) : Type :=
| Parseable (pmodel : T) (pchildren : list (parseable T)).
Arguments Parseable {T} _ _.

Section Build.
Context {T : Type}.

(** [TreeNode.parse(tree)] *)
Fixpoint parse (tree : parseable T) : M T loc :=
  match tree with
  | Parseable m cs =>
      let* nd := new_TreeNode m in
      (fix forEach (cs : list (parseable T)) : M T unit :=
         match cs with
         | [] => ret tt
         | child :: cs =>
             let* c := parse child in
             add nd c None ;;; forEach cs
         end) cs ;;;
      ret nd
  end.

(** [toObject()] *)
Fixpoint toObject (fuel : nat) (h : heap T) (this : loc) : option (parseable T) :=
  match fuel with
  | O => None
  | S fuel =>
      nd ← h !! this;
      cs ← mapM (toObject fuel h) (children nd);
      Some (Parseable (model nd) cs)
  end.
End Build.

Definition fixture : parseable string :=
  Parseable "1" [Parseable "11" [Parseable "111" []; Parseable "112" []];
                 Parseable "12" []].

(** * Specification vocabulary *)

Section Vocabulary.
Context {T : Type}.
Implicit Types (h : heap T) (nd : node T) (n p c x r : loc) (t : tree T).

(** [h'] has the cells of [h], each changed as [P] allows. *)
Definition cells_rel (P : loc -> node T -> node T -> Prop) h h' : Prop :=
  length h' = length h /\
  forall x nd, h !! x = Some nd -> exists nd', h' !! x = Some nd' /\ P x nd nd'.

(** The cells keep everything but, possibly, the cached position. *)
Definition same_links nd nd' : Prop :=
  model nd' = model nd /\ parent nd' = parent nd /\ children nd' = children nd.

(** The cells of [h'] are those of [h] with the three links replaced
    as [P], [C] and [I] say. *)
Definition relinked (P : loc -> node T -> option loc)
    (C : loc -> node T -> list loc) (I : loc -> node T -> nat) h h' : Prop :=
  cells_rel (fun x a b => b = Node (model a) (P x a) (C x a) (I x a)) h h'.

(** Invariant 1: the cached position of a node with a parent points
    back at the node in the parent's children. *)
Definition index_inv h : Prop :=
  forall n nd p, h !! n = Some nd -> parent nd = Some p ->
    exists pd, h !! p = Some pd /\ children pd !! index nd = Some n.

(** Ownership: whatever a node lists as a child is an object whose
    parent is that node and whose cached position is where it is listed. *)
Definition owned h : Prop :=
  forall p pd i c, h !! p = Some pd -> children pd !! i = Some c ->
    exists cd, h !! c = Some cd /\ parent cd = Some p /\ index cd = i.

Definition forest h : Prop := index_inv h /\ owned h.

(** Whatever [p] lists as a child is an object whose parent is [p]. *)
Definition children_point_back h p : Prop :=
  forall pd c, h !! p = Some pd -> c ∈ children pd ->
    exists cd, h !! c = Some cd /\ parent cd = Some p.

(** The children [add] leaves in the node it is called on. *)
Definition added (idx : option Z) (child : loc) (cs : list loc) : list loc :=
  match idx with
  | None => cs ++ [child]
  | Some i => splice_in (Z.to_nat i) child cs
  end.

(** Invariant 1 for the cells from address [L] on, with parents that are
    among them. *)
Definition inv_from (L : nat) h : Prop :=
  forall x nd p, L <= x -> h !! x = Some nd -> parent nd = Some p ->
    L <= p /\ exists pd, h !! p = Some pd /\ children pd !! index nd = Some x.

(** Ownership for the cells from address [L] on. *)
Definition owned_from (L : nat) h : Prop :=
  forall p pd i c, L <= p -> h !! p = Some pd -> children pd !! i = Some c ->
    exists cd, h !! c = Some cd /\ parent cd = Some p /\ index cd = i.

Definition read {A} (f : heap T -> option A) : M T A :=
  fun h => match f h with Some a => Ret a h | None => Stuck end.

(** The three methods are one recursion that differs in how a payload
    is obtained; [rebuild] is that recursion, used for the proofs. *)
Fixpoint rebuild (fuel : nat) (payload : loc -> option loc -> heap T -> option T)
    (this : loc) (parent : option loc) : M T loc :=
  match fuel with
  | O => stuck
  | S fuel =>
      let* m := read (payload this parent) in
      let* nd := new_TreeNode m in
      let* cs := get_children this in
      let* cs' := array_map (fun child i =>
                    let* newChild := rebuild fuel payload child (Some nd) in
                    set_parent newChild (Some nd) ;;;
                    set_index newChild i ;;;
                    ret newChild) cs 0 in
      set_children nd cs' ;;;
      ret nd
  end.

(** [r] is the image of [this] in a rebuilt tree: its payload is what
    [payload] gave for [this] and the new parent, in a store [hc] that
    extends the original one and in which the new parent holds its
    payload and nothing else yet; the children correspond in order. *)
Inductive rebuilt (payload : loc -> option loc -> heap T -> option T)
    (h0 : heap T) (L : nat) (h' : heap T) : loc -> option loc -> loc -> Prop :=
| rebuilt_node this parent r od nd hc :
    L <= r ->
    h0 !! this = Some od ->
    h' !! r = Some nd ->
    h0 `prefix_of` hc ->
    (forall p, parent = Some p ->
       exists pd, h' !! p = Some pd /\ hc !! p = Some (Node (model pd) None [] 0)) ->
    payload this parent hc = Some (model nd) ->
    Forall2 (fun c c' => rebuilt payload h0 L h' c (Some r) c')
            (children od) (children nd) ->
    rebuilt payload h0 L h' this parent r.

Definition rebuild_post payload h0 h this par r h' : Prop :=
  r = length h /\ h `prefix_of` h' /\
  (exists nd, h' !! r = Some nd /\ parent nd = None /\ index nd = 0) /\
  inv_from (length h) h' /\
  rebuilt payload h0 (length h) h' this par r /\
  owned_from (length h) h'.

(** [n] is [root] or one of its descendants. *)
Inductive descendant h (root : loc) : loc -> Prop :=
| descendant_self : descendant h root root
| descendant_child p pd c :
    descendant h root p -> h !! p = Some pd -> c ∈ children pd ->
    descendant h root c.

(** The subtree at [r] has shape [t], and its nodes sit at addresses
    from [L] on. *)
Inductive tree_at (L : nat) h : loc -> tree T -> Prop :=
| tree_at_node r nd ts :
    L <= r -> h !! r = Some nd ->
    Forall2 (tree_at L h) (children nd) ts ->
    tree_at L h r (TNode (model nd) ts).

Fixpoint theight (t : tree T) : nat :=
  match t with TNode _ ts => S (foldr (fun t n => max (theight t) n) 0 ts) end.

(** The node [n], below address [L], holds [m] and has children of
    shapes [ts], all from [L] on. *)
Definition building (L : nat) h n (m : T) (ts : list (tree T)) : Prop :=
  exists cell, h !! n = Some cell /\ model cell = m /\
               Forall2 (tree_at L h) (children cell) ts.

End Vocabulary.

Definition in_range (idx : option Z) (len : nat) : Prop :=
  match idx with None => True | Some i => (0 <= i <= Z.of_nat len)%Z end.

(** The store [TreeNode.parse] leaves for the fixture. *)
Definition fixture_store : heap string :=
  [Node "1" None [1; 4] 0; Node "11" (Some 0) [2; 3] 0; Node "111" (Some 1) [] 0;
   Node "112" (Some 1) [] 1; Node "12" (Some 0) [] 1].

(** The store of the test of [add] with a position out of range. *)
Definition root_a_b : heap string :=
  [Node "root" None [1] 0; Node "a" (Some 0) [] 0; Node "b" None [] 0].

(** The store after [p1.add(a); p1.add(x); p2.add(x)] on fresh nodes
    [p1], [a], [x], [p2], [c]: [x] is listed by [p1] and by [p2]. *)
Definition shared_child_store : heap string :=
  [Node "p1" None [1; 2] 0; Node "a" (Some 0) [] 0; Node "x" (Some 3) [] 0;
   Node "p2" None [2] 0; Node "c" None [] 0].



(** The shape of a tree without its payloads. *)
Fixpoint tree_shape {T} (t : tree T) : tree unit :=
  match t with TNode _ ts => TNode tt (map tree_shape ts) end.

(** The callback of the test: [node.model + '-' + (parent?.model || 'null')]. *)
Definition dash_callback (n : loc) (q : option loc) (h : heap string) : string :=
  (default EmptyString (model <$> h !! n)) +:+ "-" +:+
  match q with
  | Some p => default EmptyString (model <$> h !! p)
  | None => "null"
  end.

(** Run-length encoding as the specification words it: a maximal run of
    [n] zero positions is the token [n], a nonzero position [k] is the
    token [-k]. *)
Inductive rle : list nat -> list Z -> Prop :=
| rle_nil : rle [] []
| rle_run n rest toks :
    0 < n -> head rest <> Some 0 -> rle rest toks ->
    rle (replicate n 0 ++ rest) (Z.of_nat n :: toks)
| rle_idx k rest toks :
    0 < k -> rle rest toks -> rle (k :: rest) ((- Z.of_nat k)%Z :: toks).

(** The state of the loop of [pathKey] after a run of [zeroCount] zeros,
    unfolded over the positions still to read. *)
Fixpoint pathKey_run (zeroCount : Z) (idxs : list nat) : list Z :=
  match idxs with
  | [] => if (0 <? zeroCount)%Z then [zeroCount] else []
  | idx :: rest =>
      if idx =? 0 then pathKey_run (zeroCount + 1) rest
      else (if (0 <? zeroCount)%Z then [zeroCount] else [])
           ++ (- Z.of_nat idx)%Z :: pathKey_run 0 rest
  end.

Fixpoint no_comma (s : string) : bool :=
  match s with
  | EmptyString => true
  | String c s' => negb (Ascii.eqb c ",") && no_comma s'
  end.

Section NestedArrayShapes.
Context {A : Type}.
Abbreviation V := (jsval A).
Implicit Types (h : heap V) (n c x : loc) (v : V).

Definition tmodel (t : tree V) : V := match t with TNode m _ => m end.
Definition tchildren (t : tree V) : list (tree V) := match t with TNode _ cs => cs end.
Definition is_leaf (t : tree V) : bool :=
  match tchildren t with [] => true | _ => false end.

(** What [toNestedArray] computes, on the shape of the subtree. *)
Fixpoint encode (t : tree V) : V :=
  match t with
  | TNode m cs =>
      match cs with
      | [] => m
      | [c] =>
          match encode c with
          | Array items => Array (m :: items)
          | v => Array [m; v]
          end
      | _ =>
          if forallb is_leaf cs then Array [m; Array (map tmodel cs)]
          else Array (m :: map encode cs)
      end
  end.

Fixpoint chain_tree (vals : list V) : list (tree V) :=
  match vals with
  | [] => []
  | v :: vals => [TNode v (chain_tree vals)]
  end.

(** The shape of what [fromNestedArray] builds. *)
Fixpoint decode (v : V) : tree V :=
  match v with
  | Array [] => TNode Undefined []
  | Array (m :: rest) =>
      match rest with
      | [] => TNode m []
      | r0 :: rest' =>
          match r0, rest' with
          | Array inner, [] =>
              if negb (existsb isArray inner)
              then TNode m (map (fun leaf => TNode leaf []) inner)
              else TNode m [decode r0]
          | _, _ =>
              if negb (existsb isArray rest) then TNode m (chain_tree rest)
              else TNode m (map decode rest)
          end
      end
  | _ => TNode v []
  end.

(** No payload is an array. *)
Fixpoint plain (t : tree V) : bool :=
  match t with TNode m cs => negb (isArray m) && forallb plain cs end.

(** Every node has at most one child. *)
Fixpoint is_chain (t : tree V) : bool :=
  match t with
  | TNode _ [] => true
  | TNode _ [c] => is_chain c
  | _ => false
  end.

(** Every node with exactly one child heads a chain. *)
Fixpoint unary_chains (t : tree V) : bool :=
  match t with
  | TNode _ [] => true
  | TNode _ [c] => is_chain c
  | TNode _ cs => forallb unary_chains cs
  end.

Fixpoint chain_models (t : tree V) : list V :=
  match t with
  | TNode m [c] => m :: chain_models c
  | TNode m _ => [m]
  end.

(** The loop over [rest] of the last case of [fromNestedArray]. *)
Definition each_child (n : loc) : list V -> M V unit :=
  fix each (xs : list V) : M V unit :=
    match xs with
    | [] => ret tt
    | childResult :: xs =>
        let* c := fromNestedArray childResult in
        add n c None ;;; each xs
    end.

Definition builds v : Prop :=
  forall h, exists h', fromNestedArray v h = Ret (length h) h' /\
    h `prefix_of` h' /\ tree_at (length h) h' (length h) (decode v).

End NestedArrayShapes.

(** The classes of the round-trip tests, on shapes. *)
Definition leaf_children {A} (t : tree (jsval A)) : Prop :=
  2 <= length (tchildren t) /\ forallb is_leaf (tchildren t) = true.

Definition mixed_children {A} (t : tree (jsval A)) : Prop :=
  2 <= length (tchildren t) /\ forallb is_leaf (tchildren t) = false.

Definition fixture_values : heap (jsval string) :=
  [Node (Scalar "1") None [1; 4] 0; Node (Scalar "11") (Some 0) [2; 3] 0;
   Node (Scalar "111") (Some 1) [] 0; Node (Scalar "112") (Some 1) [] 1;
   Node (Scalar "12") (Some 0) [] 1].

(** A mixed tree the nested-array form does not bring back: the first
    child of the root has one child, which has two leaves. *)
Definition mixed_store : heap (jsval string) :=
  [Node (Scalar "root") None [1; 5] 0; Node (Scalar "a") (Some 0) [2] 0;
   Node (Scalar "b") (Some 1) [3; 4] 0; Node (Scalar "c") (Some 2) [] 0;
   Node (Scalar "d") (Some 2) [] 1; Node (Scalar "e") (Some 0) [] 1].

Definition mixed_tree : tree (jsval string) :=
  TNode (Scalar "root")
    [TNode (Scalar "a") [TNode (Scalar "b") [TNode (Scalar "c") []; TNode (Scalar "d") []]];
     TNode (Scalar "e") []].

(** A root with one child that has two leaves. *)
Definition ambiguous_store : heap (jsval string) :=
  [Node (Scalar "root") None [1] 0; Node (Scalar "child") (Some 0) [2; 3] 0;
   Node (Scalar "leaf1") (Some 1) [] 0; Node (Scalar "leaf2") (Some 1) [] 1].

Definition ambiguous_tree : tree (jsval string) :=
  TNode (Scalar "root")
    [TNode (Scalar "child") [TNode (Scalar "leaf1") []; TNode (Scalar "leaf2") []]].

(** ** Traversal orders, copies and objects *)

Section Nodes.
Context {T : Type}.

(** The nodes of a subtree, by address. *)
Fixpoint subtree (fuel : nat) (h : heap T) (this : loc) : option (tree loc) :=
  match fuel with
  | O => None
  | S fuel =>
      nd ← h !! this;
      cs ← mapM (subtree fuel h) (children nd);
      Some (TNode this cs)
  end.
End Nodes.

Section Orders.
Context {X : Type}.

(** The number of nodes. *)
Fixpoint tsize (t : tree X) : nat :=
  match t with TNode _ ts => S (foldr (fun t n => tsize t + n) 0 ts) end.

(** A node, then its children's subtrees from left to right. *)
Fixpoint preorder (t : tree X) : list X :=
  match t with TNode x ts => x :: concat (map preorder ts) end.

(** The children's subtrees from left to right, then the node. *)
Fixpoint postorder (t : tree X) : list X :=
  match t with TNode x ts => concat (map postorder ts) ++ [x] end.

(** The nodes at depth [d], from left to right. *)
Fixpoint level (d : nat) (t : tree X) : list X :=
  match t with
  | TNode x ts =>
      match d with
      | O => [x]
      | S d => concat (map (level d) ts)
      end
  end.

(** Level by level, each level from left to right. *)
Definition levelorder (t : tree X) : list X :=
  concat (map (fun d => level d t) (seq 0 (theight t))).

(** The same for the trees waiting in the queue of [breadth]: their
    level [d], their height and size, and their levels below [K]. *)
Definition levels (d : nat) (q : list (tree X)) : list X :=
  concat (map (level d) q).

Definition fheight (q : list (tree X)) : nat :=
  foldr (fun t n => max (theight t) n) 0 q.

Definition fsize (q : list (tree X)) : nat :=
  foldr (fun t n => tsize t + n) 0 q.

Definition lvls (K : nat) (q : list (tree X)) : list X :=
  concat (map (fun d => levels d q) (seq 0 K)).

(** The order in which a strategy visits the nodes. *)
Definition order (method : SearchStrategy) (t : tree X) : list X :=
  match method with
  | StrategyPre => preorder t
  | StrategyPost => postorder t
  | StrategyBreadth => levelorder t
  end.

(** The tree with [f] applied at every node. *)
Fixpoint tmap {Y} (f : X -> Y) (t : tree X) : tree Y :=
  match t with TNode x ts => TNode (f x) (map (tmap f) ts) end.
End Orders.

Section Objects.
Context {T : Type}.

(** An [IParseable] object and the shape of a tree are the same data. *)
Fixpoint tree_of (o : parseable T) : tree T :=
  match o with Parseable m cs => TNode m (map tree_of cs) end.

Fixpoint object_of (t : tree T) : parseable T :=
  match t with TNode m ts => Parseable m (map object_of ts) end.

(** The [forEach] of [parse]. *)
Definition parse_each (n : loc) : list (parseable T) -> M T unit :=
  fix forEach (cs : list (parseable T)) : M T unit :=
    match cs with
    | [] => ret tt
    | child :: cs => let* c := parse child in add n c None ;;; forEach cs
    end.

(** [parse] makes a new root of the shape of its argument and keeps the
    cells and the well-formedness of the store it is run in. *)
Definition parses (o : parseable T) : Prop :=
  forall h, exists h',
    parse o h = Ret (length h) h' /\ h `prefix_of` h' /\
    tree_at (length h) h' (length h) (tree_of o) /\
    (exists nd, h' !! length h = Some nd /\ parent nd = None) /\
    (forest h -> forest h').
End Objects.

(** Calling [callback] on the nodes of [l] in turn, up to the first one
    for which it returns true. *)
Fixpoint scan {St} (callback : loc -> St -> St * bool) (l : list loc) (s : St)
  : St * option loc :=
  match l with
  | [] => (s, None)
  | nd :: l =>
      let '(s, found) := callback nd s in
      if found then (s, Some nd) else scan callback l s
  end.

(** The position [add] gives the child. *)
Definition add_position (idx : option Z) (len : nat) : nat :=
  match idx with None => len | Some i => Z.to_nat i end.

(** The size of a value. *)
Fixpoint jsval_size {A} (v : jsval A) : nat :=
  match v with
  | Array items => S (foldr (fun v n => jsval_size v + n) 0 items)
  | _ => 1
  end.

(** The nodes of the fixture, by address. *)
Definition fixture_nodes : tree loc :=
  TNode 0 [TNode 1 [TNode 2 []; TNode 3 []]; TNode 4 []].

(** * Reasoning about the store *)

Section StoreFacts.
Context {T : Type}.
Implicit Types (h : heap T) (nd : node T) (n p c : loc).

Lemma bind_unfold {A B} (m : M T A) (k : A -> M T B) h :
  bind m k h =
  match m h with Ret a h' => k a h' | Throw e h' => Throw e h' | Stuck => Stuck end.
Proof. reflexivity. Qed.

Lemma bind_Ret {A B} (m : M T A) (k : A -> M T B) h a h' :
  m h = Ret a h' -> bind m k h = k a h'.
Proof. intros E. unfold bind. now rewrite E. Qed.

Lemma bind_Ret_inv {A B} (m : M T A) (k : A -> M T B) h b h2 :
  bind m k h = Ret b h2 -> exists a h1, m h = Ret a h1 /\ k a h1 = Ret b h2.
Proof. unfold bind. destruct (m h) as [a h1| |]; [eauto|discriminate..]. Qed.

Lemma deref_Ret n h nd : h !! n = Some nd -> deref n h = Ret nd h.
Proof. unfold deref. now intros ->. Qed.

Lemma update_Ret n f h nd :
  h !! n = Some nd -> update n f h = Ret tt (<[n := f nd]> h).
Proof. unfold update. now intros ->. Qed.

Lemma get_children_Ret n h nd :
  h !! n = Some nd -> get_children n h = Ret (children nd) h.
Proof. intros E. unfold get_children. now rewrite (bind_Ret _ _ _ _ _ (deref_Ret _ _ _ E)). Qed.

Lemma get_parent_Ret n h nd :
  h !! n = Some nd -> get_parent n h = Ret (parent nd) h.
Proof. intros E. unfold get_parent. now rewrite (bind_Ret _ _ _ _ _ (deref_Ret _ _ _ E)). Qed.

Lemma get_index_Ret n h nd :
  h !! n = Some nd -> get_index n h = Ret (index nd) h.
Proof. intros E. unfold get_index. now rewrite (bind_Ret _ _ _ _ _ (deref_Ret _ _ _ E)). Qed.

Lemma get_model_Ret n h nd :
  h !! n = Some nd -> get_model n h = Ret (model nd) h.
Proof. intros E. unfold get_model. now rewrite (bind_Ret _ _ _ _ _ (deref_Ret _ _ _ E)). Qed.

Lemma set_parent_Ret n q h nd :
  h !! n = Some nd ->
  set_parent n q h = Ret tt (<[n := Node (model nd) q (children nd) (index nd)]> h).
Proof. apply update_Ret. Qed.

Lemma set_index_Ret n i h nd :
  h !! n = Some nd ->
  set_index n i h = Ret tt (<[n := Node (model nd) (parent nd) (children nd) i]> h).
Proof. apply update_Ret. Qed.

Lemma set_children_Ret n cs h nd :
  h !! n = Some nd ->
  set_children n cs h = Ret tt (<[n := Node (model nd) (parent nd) cs (index nd)]> h).
Proof. apply update_Ret. Qed.

Lemma bind_assoc {A B C} (m : M T A) (f : A -> M T B) (g : B -> M T C) h :
  bind (bind m f) g h = bind m (fun a => bind (f a) g) h.
Proof. unfold bind. destruct (m h); done. Qed.

Lemma bind_ret_l {A B} (a : A) (k : A -> M T B) h : bind (ret a) k h = k a h.
Proof. done. Qed.

(** Reading a cell after a write to a cell that exists. *)
Lemma lookup_write h n nd nd' x :
  h !! n = Some nd ->
  <[n := nd']> h !! x = if decide (x = n) then Some nd' else h !! x.
Proof.
  intros E. destruct (decide (x = n)) as [->|Hne].
  - apply list_lookup_insert_eq. eapply lookup_lt_Some, E.
  - now apply list_lookup_insert_ne.
Qed.
End StoreFacts.

(** Run the next primitive of a computation, given its result [E]. *)
Ltac mstep E :=
  rewrite ?bind_assoc; rewrite (bind_Ret _ _ _ _ _ E); rewrite ?bind_ret_l.

(** ** How a method changes the cells *)

Section Frames.
Context {T : Type}.
Implicit Types (h : heap T) (nd : node T) (n p c x : loc).

Lemma cells_rel_refl (P : loc -> node T -> node T -> Prop) h :
  (forall x nd, P x nd nd) -> cells_rel P h h.
Proof. intros HP. split; [done|]. intros x nd E. eauto. Qed.

Lemma cells_rel_trans (P Q R : loc -> node T -> node T -> Prop) h1 h2 h3 :
  cells_rel P h1 h2 -> cells_rel Q h2 h3 ->
  (forall x a b d, P x a b -> Q x b d -> R x a d) ->
  cells_rel R h1 h3.
Proof.
  intros [L1 H1] [L2 H2] HR. split; [congruence|].
  intros x nd E. destruct (H1 _ _ E) as (nd1 & E1 & P1).
  destruct (H2 _ _ E1) as (nd2 & E2 & P2). eauto.
Qed.

Lemma cells_rel_weaken (P Q : loc -> node T -> node T -> Prop) h h' :
  cells_rel P h h' -> (forall x a b, h !! x = Some a -> P x a b -> Q x a b) ->
  cells_rel Q h h'.
Proof.
  intros [L H] HQ. split; [done|]. intros x nd E.
  destruct (H _ _ E) as (nd' & E' & HP). eauto.
Qed.

Lemma cells_rel_None (P : loc -> node T -> node T -> Prop) h h' x :
  cells_rel P h h' -> h !! x = None -> h' !! x = None.
Proof.
  intros [L _] E. apply lookup_ge_None. apply lookup_ge_None in E. lia.
Qed.

Lemma cells_rel_inv (P : loc -> node T -> node T -> Prop) h h' x nd' :
  cells_rel P h h' -> h' !! x = Some nd' -> exists nd, h !! x = Some nd /\ P x nd nd'.
Proof.
  intros HR E'. destruct (h !! x) as [nd|] eqn:E.
  - destruct HR as [_ H]. destruct (H _ _ E) as (nd2 & E2 & HP).
    exists nd. split; [done|]. congruence.
  - rewrite (cells_rel_None _ _ _ _ HR E) in E'. discriminate.
Qed.

Lemma update_cells_rel h n nd (f : node T -> node T) :
  h !! n = Some nd ->
  cells_rel (fun x a b => b = if decide (x = n) then f a else a) h (<[n := f nd]> h).
Proof.
  intros E. split; [apply length_insert|].
  intros x a Ex. rewrite (lookup_write _ _ _ _ _ E).
  destruct (decide (x = n)) as [->|]; [|eauto].
  exists (f nd). split; [done|]. congruence.
Qed.

Lemma reindex_from_spec cs i h :
  (forall c, c ∈ cs -> is_Some (h !! c)) ->
  exists h', reindex_from cs i h = Ret tt h' /\
    cells_rel (fun x nd nd' =>
      same_links nd nd' /\
      (((x ∉ cs) /\ index nd' = index nd) \/
       (exists j, cs !! j = Some x /\ index nd' = i + j))) h h'.
Proof.
  revert i h. induction cs as [|c cs IH]; intros i h Hv.
  - exists h. split; [done|]. apply cells_rel_refl. intros x nd.
    split; [done|]. left. split; [|done]. apply not_elem_of_nil.
  - destruct (Hv c) as [cd Ec]; [left|].
    simpl. rewrite (bind_Ret _ _ _ _ _ (set_index_Ret _ i _ _ Ec)).
    pose proof (update_cells_rel h c cd
                  (fun nd => Node (model nd) (parent nd) (children nd) i) Ec) as W.
    simpl in W.
    destruct (IH (S i) (<[c := Node (model cd) (parent cd) (children cd) i]> h))
      as (h' & E' & R).
    { intros c' Hc'. destruct (Hv c') as [nd' E]; [now right|].
      destruct W as [_ W]. destruct (W _ _ E) as (? & -> & _). eauto. }
    exists h'. split; [done|].
    eapply cells_rel_trans; [exact W|exact R|].
    intros x a b d -> [Hl Hi].
    destruct (decide (x = c)) as [->|Hne]; simpl in *.
    + split; [exact Hl|]. right. destruct Hi as [[_ Hi]|(j & Hj & Hi)].
      * exists 0. split; [done|]. rewrite Hi. simpl. lia.
      * exists (S j). split; [done|]. lia.
    + split; [exact Hl|]. destruct Hi as [[Hx Hi]|(j & Hj & Hi)].
      * left. split; [|done]. rewrite not_elem_of_cons. done.
      * right. exists (S j). split; [done|]. lia.
Qed.

Lemma cells_rel_lookup (F : loc -> node T -> node T) h h' x nd :
  cells_rel (fun x a b => b = F x a) h h' -> h !! x = Some nd ->
  h' !! x = Some (F x nd).
Proof. intros [_ H] E. destruct (H _ _ E) as (? & -> & ->). done. Qed.

(** *** [add] *)

Lemma relinked_refl h :
  relinked (fun _ => parent) (fun _ => children) (fun _ => index) h h.
Proof. apply cells_rel_refl. now intros x []. Qed.

Lemma relinked_lookup P C I h h' x nd :
  relinked P C I h h' -> h !! x = Some nd ->
  h' !! x = Some (Node (model nd) (P x nd) (C x nd) (I x nd)).
Proof. intros [_ H] E. destruct (H _ _ E) as (? & -> & ->). done. Qed.

Lemma set_parent_step P C I h0 h n nd q :
  relinked P C I h0 h -> h0 !! n = Some nd ->
  exists h', set_parent n q h = Ret tt h' /\
    relinked (fun x a => if decide (x = n) then q else P x a) C I h0 h'.
Proof.
  intros W E. pose proof (relinked_lookup _ _ _ _ _ _ _ W E) as E1.
  eexists. split; [exact (set_parent_Ret _ _ _ _ E1)|].
  eapply cells_rel_trans; [exact W|exact (update_cells_rel _ _ _ (fun nd => Node (model nd) q (children nd) (index nd)) E1)|].
  intros x a b d -> ->. simpl. now destruct (decide (x = n)).
Qed.

Lemma set_index_step P C I h0 h n nd i :
  relinked P C I h0 h -> h0 !! n = Some nd ->
  exists h', set_index n i h = Ret tt h' /\
    relinked P C (fun x a => if decide (x = n) then i else I x a) h0 h'.
Proof.
  intros W E. pose proof (relinked_lookup _ _ _ _ _ _ _ W E) as E1.
  eexists. split; [exact (set_index_Ret _ _ _ _ E1)|].
  eapply cells_rel_trans; [exact W|exact (update_cells_rel _ _ _ (fun nd => Node (model nd) (parent nd) (children nd) i) E1)|].
  intros x a b d -> ->. simpl. now destruct (decide (x = n)).
Qed.

Lemma set_children_step P C I h0 h n nd cs :
  relinked P C I h0 h -> h0 !! n = Some nd ->
  exists h', set_children n cs h = Ret tt h' /\
    relinked P (fun x a => if decide (x = n) then cs else C x a) I h0 h'.
Proof.
  intros W E. pose proof (relinked_lookup _ _ _ _ _ _ _ W E) as E1.
  eexists. split; [exact (set_children_Ret _ _ _ _ E1)|].
  eapply cells_rel_trans; [exact W|exact (update_cells_rel _ _ _ (fun nd => Node (model nd) (parent nd) cs (index nd)) E1)|].
  intros x a b d -> ->. simpl. now destruct (decide (x = n)).
Qed.

Lemma get_children_step P C I h0 h n nd :
  relinked P C I h0 h -> h0 !! n = Some nd ->
  get_children n h = Ret (C n nd) h.
Proof.
  intros W E. now rewrite (get_children_Ret _ _ _ (relinked_lookup _ _ _ _ _ _ _ W E)).
Qed.

Lemma get_parent_step P C I h0 h n nd :
  relinked P C I h0 h -> h0 !! n = Some nd ->
  get_parent n h = Ret (P n nd) h.
Proof.
  intros W E. now rewrite (get_parent_Ret _ _ _ (relinked_lookup _ _ _ _ _ _ _ W E)).
Qed.

Lemma get_index_step P C I h0 h n nd :
  relinked P C I h0 h -> h0 !! n = Some nd ->
  get_index n h = Ret (I n nd) h.
Proof.
  intros W E. now rewrite (get_index_Ret _ _ _ (relinked_lookup _ _ _ _ _ _ _ W E)).
Qed.

Lemma add_append_spec this child h td cd :
  h !! this = Some td -> h !! child = Some cd ->
  exists h', add this child None h = Ret child h' /\
    relinked (fun x a => if decide (x = child) then Some this else parent a)
             (fun x a => if decide (x = this) then children a ++ [child] else children a)
             (fun x a => if decide (x = child) then length (children td) else index a)
             h h'.
Proof.
  intros Et Ec. unfold add.
  destruct (set_parent_step _ _ _ _ _ _ _ (Some this) (relinked_refl h) Ec) as (h1 & E1 & W1).
  mstep E1.
  mstep (get_children_step _ _ _ _ _ _ _ W1 Et).
  destruct (set_index_step _ _ _ _ _ _ _ (length (children td)) W1 Ec) as (h2 & E2 & W2).
  mstep E2.
  mstep (get_children_step _ _ _ _ _ _ _ W2 Et).
  destruct (set_children_step _ _ _ _ _ _ _ (children td ++ [child]) W2 Et) as (h3 & E3 & W3).
  mstep E3. exists h3. split; [done|].
  eapply cells_rel_weaken; [exact W3|].
  intros x a b Ex ->. simpl. f_equal.
  destruct (decide (x = this)) as [->|]; [|done]. congruence.
Qed.
End Frames.

(** * Well-formed stores *)

Section Forest.
Context {T : Type}.
Implicit Types (h : heap T) (nd : node T) (n p c x : loc).

Lemma owned_valid h p pd c :
  owned h -> h !! p = Some pd -> c ∈ children pd -> is_Some (h !! c).
Proof.
  intros Ho Ep Hc. apply list_elem_of_lookup in Hc as [i Hi].
  destruct (Ho _ _ _ _ Ep Hi) as (cd & Ec & _). eauto.
Qed.

Lemma splice_in_lookup_lt (k : nat) c (cs : list loc) j :
  j < k -> k <= length cs -> splice_in k c cs !! j = cs !! j.
Proof.
  intros Hj Hk. unfold splice_in. rewrite lookup_app_l.
  - now apply lookup_take_lt.
  - rewrite length_take. lia.
Qed.

Lemma splice_in_lookup_eq (k : nat) c (cs : list loc) :
  k <= length cs -> splice_in k c cs !! k = Some c.
Proof.
  intros Hk. unfold splice_in. rewrite lookup_app_r; rewrite length_take; [|lia].
  replace (k - k `min` length cs) with 0 by lia. done.
Qed.

Lemma splice_in_lookup_gt (k : nat) c (cs : list loc) j :
  k <= j -> k <= length cs -> splice_in k c cs !! S j = cs !! j.
Proof.
  intros Hj Hk. unfold splice_in. rewrite lookup_app_r; rewrite length_take; [|lia].
  replace (S j - k `min` length cs) with (S (j - k)) by lia.
  simpl. rewrite lookup_drop. f_equal. lia.
Qed.

Lemma splice_in_drop (k : nat) c (cs : list loc) :
  k <= length cs -> drop k (splice_in k c cs) = c :: drop k cs.
Proof.
  intros Hk. unfold splice_in. rewrite drop_app_length'; [done|].
  rewrite length_take. lia.
Qed.

Lemma splice_in_elem (k : nat) c (cs : list loc) x :
  x ∈ splice_in k c cs -> x = c \/ x ∈ cs.
Proof.
  unfold splice_in. rewrite elem_of_app, elem_of_cons.
  intros [H|[H|H]]; [right|left|right]; [|done|].
  - eapply subseteq_take, H.
  - eapply subseteq_drop, H.
Qed.

(** *** [add] with a position *)

Lemma add_insert_spec this child (i : Z) h td cd :
  h !! this = Some td -> h !! child = Some cd ->
  (forall c, c ∈ children td -> is_Some (h !! c)) ->
  (0 <= i <= Z.of_nat (length (children td)))%Z ->
  let k := Z.to_nat i in
  let cs' := splice_in k child (children td) in
  exists h', add this child (Some i) h = Ret child h' /\
    cells_rel (fun x a b =>
      model b = model a /\
      parent b = (if decide (x = child) then Some this else parent a) /\
      children b = (if decide (x = this) then cs' else children a) /\
      (((x ∉ drop k cs') /\ index b = index a) \/
       (exists j, k <= j /\ cs' !! j = Some x /\ index b = j))) h h'.
Proof.
  intros Et Ec Hv Hi k cs'. unfold add.
  destruct (set_parent_step _ _ _ _ _ _ _ (Some this) (relinked_refl h) Ec)
    as (h1 & E1 & W1).
  mstep E1.
  mstep (get_children_step _ _ _ _ _ _ _ W1 Et).
  replace ((i <? 0)%Z || (Z.of_nat (length (children td)) <? i)%Z) with false
    by (symmetry; apply orb_false_intro; [apply Z.ltb_ge|apply Z.ltb_ge]; lia).
  destruct (set_children_step _ _ _ _ _ _ _ cs' W1 Et) as (h2 & E2 & W2).
  fold k. fold cs'. mstep E2. unfold reindex.
  mstep (get_children_step _ _ _ _ _ _ _ W2 Et).
  rewrite decide_True by done.
  destruct (reindex_from_spec (drop k cs') k h2) as (h3 & E3 & W3).
  { intros c Hc. apply subseteq_drop, splice_in_elem in Hc.
    assert (is_Some (h !! c)) as [nd E].
    { destruct Hc as [->|Hc]; eauto. }
    rewrite (relinked_lookup _ _ _ _ _ _ _ W2 E). eauto. }
  mstep E3. exists h3. split; [done|].
  eapply cells_rel_trans; [exact W2|exact W3|].
  intros x a b d -> [(Hm & Hp & Hc) Hidx]. simpl in *.
  repeat split; [done..|].
  destruct Hidx as [[Hx Hi']|(j & Hj & Hi')]; [left; done|].
  right. exists (k + j). rewrite lookup_drop in Hj. split; [lia|]. done.
Qed.

(** *** [swap] *)

Lemma swap_spec this (i j : Z) h td ci cj :
  h !! this = Some td ->
  (forall c, c ∈ children td -> is_Some (h !! c)) ->
  i <> j ->
  children td !! Z.to_nat i = Some ci -> (0 <= i)%Z ->
  children td !! Z.to_nat j = Some cj -> (0 <= j)%Z ->
  exists h', swap this i j h = Ret tt h' /\
    relinked (fun _ => parent)
      (fun x a => if decide (x = this)
                  then <[Z.to_nat j := ci]> (<[Z.to_nat i := cj]> (children a))
                  else children a)
      (fun x a => if decide (x = ci) then Z.to_nat j
                  else if decide (x = cj) then Z.to_nat i else index a)
      h h'.
Proof.
  intros Et Hv Hij Hci Hi Hcj Hj. unfold swap.
  mstep (get_children_Ret _ _ _ Et).
  pose proof (lookup_lt_Some _ _ _ Hci). pose proof (lookup_lt_Some _ _ _ Hcj).
  replace ((i <? 0)%Z || (j <? 0)%Z || (Z.of_nat (length (children td)) <=? i)%Z
           || (Z.of_nat (length (children td)) <=? j)%Z) with false.
  2:{ symmetry. repeat (apply orb_false_intro);
      [apply Z.ltb_ge|apply Z.ltb_ge|apply Z.leb_gt|apply Z.leb_gt]; lia. }
  replace (i =? j)%Z with false by (symmetry; now apply Z.eqb_neq).
  rewrite Hci, Hcj.
  destruct (Hv ci) as [cid Eci]; [eapply list_elem_of_lookup_2, Hci|].
  destruct (Hv cj) as [cjd Ecj]; [eapply list_elem_of_lookup_2, Hcj|].
  destruct (set_children_step _ _ _ _ _ _ _
              (<[Z.to_nat j := ci]> (<[Z.to_nat i := cj]> (children td)))
              (relinked_refl h) Et) as (h1 & E1 & W1).
  mstep E1.
  destruct (set_index_step _ _ _ _ _ _ _ (Z.to_nat i) W1 Ecj) as (h2 & E2 & W2).
  mstep E2.
  destruct (set_index_step _ _ _ _ _ _ _ (Z.to_nat j) W2 Eci) as (h3 & E3 & W3).
  rewrite E3. exists h3. split; [done|].
  eapply cells_rel_weaken; [exact W3|].
  intros x a b Ex ->. simpl. f_equal.
  destruct (decide (x = this)) as [->|]; [|done]. congruence.
Qed.

(** *** [drop] *)

Lemma drop_root_spec this h td :
  h !! this = Some td -> parent td = None -> drop_node this h = Ret this h.
Proof.
  intros Et Hp. unfold drop_node, isRoot.
  mstep (get_parent_Ret _ _ _ Et). rewrite Hp. done.
Qed.

Lemma drop_spec this h td p pd :
  h !! this = Some td -> parent td = Some p -> h !! p = Some pd ->
  (forall c, c ∈ children pd -> is_Some (h !! c)) ->
  let idx := index td in
  let cs' := delete idx (children pd) in
  exists h', drop_node this h = Ret this h' /\
    cells_rel (fun x a b =>
      model b = model a /\
      parent b = (if decide (x = this) then None else parent a) /\
      children b = (if decide (x = p) then cs' else children a) /\
      (if decide (x = this) then index b = 0
       else ((x ∉ drop idx cs') /\ index b = index a) \/
            (exists j, idx <= j /\ cs' !! j = Some x /\ index b = j))) h h'.
Proof.
  intros Et Hp Ep Hv idx cs'. unfold drop_node, isRoot.
  mstep (get_parent_Ret _ _ _ Et). rewrite Hp.
  mstep (get_index_Ret _ _ _ Et).
  mstep (get_parent_Ret _ _ _ Et). rewrite Hp.
  mstep (get_children_Ret _ _ _ Ep).
  destruct (set_children_step _ _ _ _ _ _ _ cs' (relinked_refl h) Ep)
    as (h1 & E1 & W1).
  fold idx. fold cs'. mstep E1. unfold reindex.
  mstep (get_children_step _ _ _ _ _ _ _ W1 Ep).
  rewrite decide_True by done.
  destruct (reindex_from_spec (drop idx cs') idx h1) as (h2 & E2 & W2).
  { intros c Hc. apply subseteq_drop in Hc. apply list_elem_of_delete_inv in Hc.
    destruct (Hv c Hc) as [nd E].
    rewrite (relinked_lookup _ _ _ _ _ _ _ W1 E). eauto. }
  mstep E2.
  assert (cells_rel (fun x a b =>
      model b = model a /\ parent b = parent a /\
      children b = (if decide (x = p) then cs' else children a) /\
      (((x ∉ drop idx cs') /\ index b = index a) \/
       (exists j, idx <= j /\ cs' !! j = Some x /\ index b = j))) h h2) as W12.
  { eapply cells_rel_trans; [exact W1|exact W2|].
    intros x a b d -> [(Hm & Hp' & Hc) Hidx]. simpl in *.
    repeat split; [done..|].
    destruct Hidx as [[Hx Hi']|(j & Hj & Hi')]; [left; done|].
    right. exists (idx + j). rewrite lookup_drop in Hj. split; [lia|]. done. }
  destruct W12 as [L12 H12]. destruct (H12 _ _ Et) as (td2 & Et2 & Htd2).
  mstep (set_parent_Ret _ None _ _ Et2).
  set (td3 := Node (model td2) None (children td2) (index td2)).
  assert (<[this := td3]> h2 !! this = Some td3) as Et3.
  { apply list_lookup_insert_eq. eapply lookup_lt_Some, Et2. }
  mstep (set_index_Ret _ 0 _ _ Et3).
  eexists. split; [done|]. split.
  { rewrite !length_insert. done. }
  intros x a Ex. destruct (decide (x = this)) as [->|Hne].
  - eexists. split.
    { apply list_lookup_insert_eq. rewrite length_insert. eapply lookup_lt_Some, Et2. }
    assert (a = td) as -> by congruence. simpl.
    destruct Htd2 as (Hm & Hp2 & Hc2 & _). done.
  - rewrite !list_lookup_insert_ne by done.
    destruct (H12 _ _ Ex) as (b & Eb & Hb). exists b. split; [done|].
    destruct Hb as (? & ? & ? & ?). done.
Qed.

(** ** Invariant 1 across [add], [swap] and [drop] *)

Lemma add_append_index_inv this child h td cd :
  index_inv h -> h !! this = Some td -> h !! child = Some cd ->
  exists h', add this child None h = Ret child h' /\ index_inv h'.
Proof.
  intros Hinv Et Ec.
  destruct (add_append_spec this child h td cd Et Ec) as (h' & E & W).
  exists h'. split; [done|].
  intros n nd' q En' Hq.
  destruct (cells_rel_inv _ _ _ _ _ W En') as (nd & En & ->). simpl in *.
  destruct (decide (n = child)) as [->|Hne].
  - injection Hq as <-. rewrite (relinked_lookup _ _ _ _ _ _ _ W Et).
    eexists. split; [done|]. simpl. rewrite decide_True by done.
    now apply list_lookup_middle.
  - destruct (Hinv _ _ _ En Hq) as (pd & Ep & Hc).
    rewrite (relinked_lookup _ _ _ _ _ _ _ W Ep).
    eexists. split; [done|]. simpl.
    destruct (decide (q = this)); [|done]. now apply lookup_app_l_Some.
Qed.

Lemma owned_point_back h p : owned h -> children_point_back h p.
Proof.
  intros Ho pd c Ep Hc. apply list_elem_of_lookup in Hc as [i Hi].
  destruct (Ho _ _ _ _ Ep Hi) as (cd & Ec & Hp & _). eauto.
Qed.

Lemma point_back_valid h p pd c :
  children_point_back h p -> h !! p = Some pd -> c ∈ children pd -> is_Some (h !! c).
Proof. intros Hb Ep Hc. destruct (Hb _ _ Ep Hc) as (cd & Ec & _). eauto. Qed.

Lemma add_insert_index_inv this child (i : Z) h td cd :
  index_inv h -> children_point_back h this ->
  h !! this = Some td -> h !! child = Some cd ->
  (0 <= i <= Z.of_nat (length (children td)))%Z ->
  exists h', add this child (Some i) h = Ret child h' /\ index_inv h'.
Proof.
  intros Hinv Hback Et Ec Hi.
  destruct (add_insert_spec this child i h td cd Et Ec) as (h' & E & W);
    [eauto using point_back_valid|done|].
  exists h'. split; [done|].
  set (k := Z.to_nat i) in *. assert (k <= length (children td)) as Hk by lia.
  set (cs' := splice_in k child (children td)) in *.
  intros n nd' q En' Hq.
  destruct (cells_rel_inv _ _ _ _ _ W En') as (nd & En & Hm & Hp & Hc & Hidx).
  destruct (proj2 W _ _ Et) as (td' & Et' & _ & _ & Hct & _).
  rewrite decide_True in Hct by done.
  destruct (decide (n = child)) as [->|Hne].
  - rewrite Hq in Hp. injection Hp as ->. exists td'. split; [done|].
    rewrite Hct. destruct Hidx as [[Hx _]|(j & _ & Hj & ->)]; [|done].
    exfalso. apply Hx. unfold cs'. rewrite splice_in_drop by done. left.
  - rewrite Hq in Hp. symmetry in Hp.
    destruct (Hinv _ _ _ En Hp) as (pd & Ep & Hcp).
    destruct (proj2 W _ _ Ep) as (pd' & Ep' & _ & _ & Hcp' & _).
    exists pd'. split; [done|]. rewrite Hcp'.
    destruct (decide (q = this)) as [->|Hqt].
    + assert (pd = td) as -> by congruence.
      destruct Hidx as [[Hx Hix]|(j & _ & Hj & ->)]; [|done].
      rewrite Hix. destruct (decide (index nd < k)) as [Hlt|Hge].
      * unfold cs'. rewrite splice_in_lookup_lt by done. done.
      * exfalso. apply Hx. apply list_elem_of_lookup.
        exists (S (index nd - k)). rewrite lookup_drop.
        replace (k + S (index nd - k)) with (S (index nd)) by lia.
        unfold cs'. rewrite splice_in_lookup_gt by lia. done.
    + destruct Hidx as [[Hx ->]|(j & Hkj & Hj & _)]; [done|].
      exfalso. apply list_elem_of_lookup_2, splice_in_elem in Hj as [Hj|Hj]; [done|].
      destruct (Hback _ _ Et Hj) as (nd2 & En2 & Hp2). congruence.
Qed.

Lemma swap_index_inv this (i j : Z) h td :
  index_inv h -> children_point_back h this -> h !! this = Some td ->
  (0 <= i < Z.of_nat (length (children td)))%Z ->
  (0 <= j < Z.of_nat (length (children td)))%Z ->
  exists h', swap this i j h = Ret tt h' /\ index_inv h'.
Proof.
  intros Hinv Hback Et Hi Hj.
  destruct (decide (i = j)) as [->|Hij].
  { exists h. split; [|done]. unfold swap. mstep (get_children_Ret _ _ _ Et).
    replace ((j <? 0)%Z || (j <? 0)%Z || (Z.of_nat (length (children td)) <=? j)%Z
             || (Z.of_nat (length (children td)) <=? j)%Z) with false.
    2:{ symmetry. repeat (apply orb_false_intro);
        [apply Z.ltb_ge|apply Z.ltb_ge|apply Z.leb_gt|apply Z.leb_gt]; lia. }
    now rewrite Z.eqb_refl. }
  destruct (lookup_lt_is_Some_2 (children td) (Z.to_nat i)) as [ci Hci]; [lia|].
  destruct (lookup_lt_is_Some_2 (children td) (Z.to_nat j)) as [cj Hcj]; [lia|].
  destruct (swap_spec this i j h td ci cj) as (h' & E & W);
    [done|eauto using point_back_valid|done|done|lia|done|lia|].
  exists h'. split; [done|].
  assert (Z.to_nat i <> Z.to_nat j) as Hne by lia.
  set (a := Z.to_nat i) in *. set (b := Z.to_nat j) in *.
  intros n nd' q En' Hq.
  destruct (cells_rel_inv _ _ _ _ _ W En') as (nd & En & ->). simpl in *.
  destruct (Hinv _ _ _ En Hq) as (pd & Ep & Hcp).
  rewrite (relinked_lookup _ _ _ _ _ _ _ W Ep). eexists. split; [done|]. simpl.
  destruct (decide (q = this)) as [->|Hqt].
  - assert (pd = td) as -> by congruence.
    destruct (decide (n = ci)) as [->|Hnci].
    { apply list_lookup_insert_eq. rewrite length_insert.
      eapply lookup_lt_Some, Hcj. }
    destruct (decide (n = cj)) as [->|Hncj].
    { rewrite list_lookup_insert_ne by done. apply list_lookup_insert_eq.
      eapply lookup_lt_Some, Hci. }
    rewrite !list_lookup_insert_ne; [done| |]; intros Heq; rewrite <- Heq in Hcp; congruence.
  - assert (forall c k, children td !! k = Some c -> n <> c) as Hout.
    { intros c k Hk ->.
      destruct (Hback _ _ Et (list_elem_of_lookup_2 _ _ _ Hk)) as (nd2 & En2 & Hp2).
      congruence. }
    rewrite decide_False by eauto. rewrite decide_False by eauto. done.
Qed.

Lemma drop_index_inv this h td :
  index_inv h -> (forall p, parent td = Some p -> children_point_back h p) ->
  h !! this = Some td ->
  exists h', drop_node this h = Ret this h' /\ index_inv h'.
Proof.
  intros Hinv Hback Et. destruct (parent td) as [p|] eqn:Hp.
  2:{ exists h. split; [|done]. eapply drop_root_spec; eauto. }
  specialize (Hback p eq_refl).
  destruct (Hinv _ _ _ Et Hp) as (pd & Ep & Hthis).
  destruct (drop_spec this h td p pd Et Hp Ep) as (h' & E & W);
    [eauto using point_back_valid|].
  exists h'. split; [done|].
  set (idx := index td) in *. set (cs' := delete idx (children pd)) in *.
  intros n nd' q En' Hq.
  destruct (cells_rel_inv _ _ _ _ _ W En') as (nd & En & Hm & Hpn & Hc & Hidx).
  destruct (decide (n = this)) as [->|Hne]; [congruence|].
  rewrite Hq in Hpn. symmetry in Hpn.
  destruct (Hinv _ _ _ En Hpn) as (qd & Eq & Hcq).
  destruct (proj2 W _ _ Eq) as (qd' & Eq' & _ & _ & Hcq' & _).
  exists qd'. split; [done|]. rewrite Hcq'.
  destruct (decide (q = p)) as [->|Hqp].
  - assert (qd = pd) as -> by congruence.
    destruct Hidx as [[Hx Hix]|(j & _ & Hj & ->)]; [|done].
    rewrite Hix. assert (index nd <> idx) as Hni by (intros Heq; congruence).
    destruct (decide (index nd < idx)) as [Hlt|Hge].
    + unfold cs'. rewrite list_lookup_delete_lt by done. done.
    + exfalso. apply Hx. apply list_elem_of_lookup.
      exists (index nd - 1 - idx). rewrite lookup_drop.
      unfold cs'. rewrite list_lookup_delete_ge by lia.
      replace (S (idx + (index nd - 1 - idx))) with (index nd) by lia. done.
  - destruct Hidx as [[Hx ->]|(j & Hkj & Hj & _)]; [done|].
    exfalso. apply list_elem_of_lookup_2, list_elem_of_delete_inv in Hj.
    destruct (Hback _ _ Ep Hj) as (nd2 & En2 & Hp2). congruence.
Qed.
End Forest.

(** ** Ownership across [add], [swap] and [drop] *)

Section Ownership.
Context {T : Type}.
Implicit Types (h : heap T) (nd : node T) (n p c x r : loc).

(** In a forest a node is listed once. *)
Lemma owned_unique h p pd i j c :
  owned h -> h !! p = Some pd ->
  children pd !! i = Some c -> children pd !! j = Some c -> i = j.
Proof.
  intros Hown Ep Hi Hj.
  destruct (Hown _ _ _ _ Ep Hi) as (cd & Ec & _ & <-).
  destruct (Hown _ _ _ _ Ep Hj) as (cd' & Ec' & _ & <-). congruence.
Qed.

Lemma add_append_owned this child h td cd :
  owned h -> h !! this = Some td -> h !! child = Some cd -> parent cd = None ->
  exists h', add this child None h = Ret child h' /\ owned h'.
Proof.
  intros Hown Et Ec Hroot.
  destruct (add_append_spec this child h td cd Et Ec) as (h' & E & W).
  exists h'. split; [done|].
  assert (forall p pd i, h !! p = Some pd -> children pd !! i = Some child -> False)
    as Hfresh.
  { intros p pd i Ep Hi. destruct (Hown _ _ _ _ Ep Hi) as (cd' & Ec' & Hp & _).
    congruence. }
  intros p pd' i c Ep' Hc.
  destruct (cells_rel_inv _ _ _ _ _ W Ep') as (pd & Ep & ->). simpl in Hc.
  destruct (decide (p = this)) as [->|Hne].
  - assert (pd = td) as -> by congruence.
    apply lookup_app_Some in Hc as [Hc|[Hlen Hc]].
    + destruct (Hown _ _ _ _ Et Hc) as (cd' & Ec' & Hp & Hi).
      assert (c <> child) by (intros ->; eauto).
      rewrite (relinked_lookup _ _ _ _ _ _ _ W Ec'). eexists. split; [done|].
      simpl. rewrite !decide_False by done. done.
    + apply list_lookup_singleton_Some in Hc as [Hi ->].
      rewrite (relinked_lookup _ _ _ _ _ _ _ W Ec). eexists. split; [done|].
      simpl. rewrite !decide_True by done. split; [done|]. lia.
  - destruct (Hown _ _ _ _ Ep Hc) as (cd' & Ec' & Hp & Hi).
    assert (c <> child) by (intros ->; eauto).
    rewrite (relinked_lookup _ _ _ _ _ _ _ W Ec'). eexists. split; [done|].
    simpl. rewrite !decide_False by done. done.
Qed.

Lemma add_insert_owned this child (i : Z) h td cd :
  owned h -> h !! this = Some td -> h !! child = Some cd -> parent cd = None ->
  (0 <= i <= Z.of_nat (length (children td)))%Z ->
  exists h', add this child (Some i) h = Ret child h' /\ owned h'.
Proof.
  intros Hown Et Ec Hroot Hi.
  destruct (add_insert_spec this child i h td cd Et Ec) as (h' & E & W);
    [eauto using owned_valid|done|].
  exists h'. split; [done|].
  set (k := Z.to_nat i) in *. assert (k <= length (children td)) as Hk by lia.
  set (cs' := splice_in k child (children td)) in *.
  assert (forall p pd j, h !! p = Some pd -> children pd !! j = Some child -> False)
    as Hfresh.
  { intros p pd j Ep Hj. destruct (Hown _ _ _ _ Ep Hj) as (cd' & Ec' & Hp & _).
    congruence. }
  (* where a node sits in the new children of [this] *)
  assert (forall j c, cs' !! j = Some c ->
            (j = k /\ c = child) \/
            (c <> child /\ exists j0, children td !! j0 = Some c /\
                                      j = if decide (j0 < k) then j0 else S j0))
    as Hpos.
  { intros j c Hj. destruct (decide (j < k)) as [Hlt|Hge].
    - unfold cs' in Hj. rewrite splice_in_lookup_lt in Hj by done.
      right. split; [intros ->; eauto|]. exists j. now rewrite decide_True.
    - destruct (decide (j = k)) as [->|Hne].
      + unfold cs' in Hj. rewrite splice_in_lookup_eq in Hj by done.
        left. split; [done|congruence].
      + destruct j as [|j]; [lia|]. unfold cs' in Hj.
        rewrite splice_in_lookup_gt in Hj by lia.
        right. split; [intros ->; eauto|]. exists j. rewrite decide_False by lia. done. }
  intros p pd' j c Ep' Hc.
  destruct (cells_rel_inv _ _ _ _ _ W Ep') as (pd & Ep & _ & _ & Hcp & _).
  rewrite Hcp in Hc. clear Hcp.
  destruct (decide (p = this)) as [->|Hne].
  - assert (pd = td) as -> by congruence.
    destruct (Hpos _ _ Hc) as [[-> ->]|(Hcc & j0 & Hj0 & ->)].
    + destruct (proj2 W _ _ Ec) as (cd' & Ec' & _ & Hp' & _ & Hidx).
      exists cd'. split; [done|]. rewrite Hp', decide_True by done. split; [done|].
      destruct Hidx as [[Hx _]|(j' & Hj' & Hcj' & ->)].
      * exfalso. apply Hx. unfold cs'. rewrite splice_in_drop by done. left.
      * destruct (Hpos _ _ Hcj') as [[-> _]|(Hcc & _)]; done.
    + destruct (Hown _ _ _ _ Et Hj0) as (cd0 & Ec0 & Hp0 & Hi0).
      destruct (proj2 W _ _ Ec0) as (cd' & Ec' & _ & Hp' & _ & Hidx).
      exists cd'. split; [done|]. rewrite Hp', decide_False by done. split; [done|].
      destruct Hidx as [[Hx Hsame]|(j' & Hj' & Hcj' & ->)].
      * rewrite Hsame, Hi0. destruct (decide (j0 < k)); [done|].
        exfalso. apply Hx. apply list_elem_of_lookup. exists (S j0 - k).
        rewrite lookup_drop. replace (k + (S j0 - k)) with (S j0) by lia. done.
      * destruct (Hpos _ _ Hcj') as [[-> ->]|(_ & j1 & Hj1 & ->)]; [done|].
        rewrite (owned_unique _ _ _ _ _ _ Hown Et Hj0 Hj1).
        destruct (decide (j1 < k)); [lia|done].
  - destruct (Hown _ _ _ _ Ep Hc) as (cd0 & Ec0 & Hp0 & Hi0).
    assert (c <> child) by (intros ->; eauto).
    destruct (proj2 W _ _ Ec0) as (cd' & Ec' & _ & Hp' & _ & Hidx).
    exists cd'. split; [done|]. rewrite Hp', decide_False by done. split; [done|].
    destruct Hidx as [[_ ->]|(j' & _ & Hcj' & _)]; [done|].
    exfalso. destruct (Hpos _ _ Hcj') as [[_ ->]|(_ & j1 & Hj1 & _)]; [done|].
    destruct (Hown _ _ _ _ Et Hj1) as (cd1 & Ec1 & Hp1 & _). congruence.
Qed.

Lemma swap_owned this (i j : Z) h td :
  owned h -> h !! this = Some td ->
  (0 <= i < Z.of_nat (length (children td)))%Z ->
  (0 <= j < Z.of_nat (length (children td)))%Z ->
  exists h', swap this i j h = Ret tt h' /\ owned h'.
Proof.
  intros Hown Et Hi Hj.
  destruct (decide (i = j)) as [->|Hij].
  { exists h. split; [|done]. unfold swap. mstep (get_children_Ret _ _ _ Et).
    replace ((j <? 0)%Z || (j <? 0)%Z || (Z.of_nat (length (children td)) <=? j)%Z
             || (Z.of_nat (length (children td)) <=? j)%Z) with false.
    2:{ symmetry. repeat (apply orb_false_intro);
        [apply Z.ltb_ge|apply Z.ltb_ge|apply Z.leb_gt|apply Z.leb_gt]; lia. }
    now rewrite Z.eqb_refl. }
  destruct (lookup_lt_is_Some_2 (children td) (Z.to_nat i)) as [ci Hci]; [lia|].
  destruct (lookup_lt_is_Some_2 (children td) (Z.to_nat j)) as [cj Hcj]; [lia|].
  destruct (swap_spec this i j h td ci cj) as (h' & E & W);
    [done|eauto using owned_valid|done|done|lia|done|lia|].
  exists h'. split; [done|].
  assert (Z.to_nat i <> Z.to_nat j) as Hne by lia.
  set (a := Z.to_nat i) in *. set (b := Z.to_nat j) in *.
  assert (ci <> cj) as Hcij.
  { intros ->. apply Hne. eapply owned_unique; eauto. }
  intros p pd' k c Ep' Hc.
  destruct (cells_rel_inv _ _ _ _ _ W Ep') as (pd & Ep & ->). simpl in Hc.
  destruct (decide (p = this)) as [->|Hpt].
  - assert (pd = td) as -> by congruence.
    assert (exists k0, children td !! k0 = Some c /\
              k = if decide (c = ci) then b else if decide (c = cj) then a else k0)
      as (k0 & Hk0 & ->).
    { destruct (decide (k = b)) as [->|Hkb].
      - rewrite list_lookup_insert_eq in Hc
          by (rewrite length_insert; eapply lookup_lt_Some, Hcj).
        injection Hc as <-. exists a. now rewrite decide_True.
      - rewrite list_lookup_insert_ne in Hc by done.
        destruct (decide (k = a)) as [->|Hka].
        + rewrite list_lookup_insert_eq in Hc by (eapply lookup_lt_Some, Hci).
          injection Hc as <-. exists b. rewrite decide_False by done.
          now rewrite decide_True.
        + rewrite list_lookup_insert_ne in Hc by done. exists k.
          split; [done|]. rewrite decide_False.
          2:{ intros ->. apply Hka. eapply owned_unique; eauto. }
          rewrite decide_False; [done|].
          intros ->. apply Hkb. eapply owned_unique; eauto. }
    destruct (Hown _ _ _ _ Et Hk0) as (cd0 & Ec0 & Hp0 & Hi0).
    rewrite (relinked_lookup _ _ _ _ _ _ _ W Ec0). eexists. split; [done|].
    simpl. split; [done|]. now repeat case_decide.
  - destruct (Hown _ _ _ _ Ep Hc) as (cd0 & Ec0 & Hp0 & Hi0).
    rewrite (relinked_lookup _ _ _ _ _ _ _ W Ec0). eexists. split; [done|].
    simpl. split; [done|].
    assert (forall c' k', children td !! k' = Some c' -> c <> c') as Hout.
    { intros c' k' Hk' ->. destruct (Hown _ _ _ _ Et Hk') as (nd2 & En2 & Hp2 & _).
      congruence. }
    rewrite decide_False by eauto. rewrite decide_False by eauto. done.
Qed.

Lemma drop_owned this h td :
  forest h -> h !! this = Some td ->
  exists h', drop_node this h = Ret this h' /\ owned h'.
Proof.
  intros [Hinv Hown] Et. destruct (parent td) as [p|] eqn:Hp.
  2:{ exists h. split; [|done]. eapply drop_root_spec; eauto. }
  destruct (Hinv _ _ _ Et Hp) as (pd & Ep & Hthis).
  destruct (drop_spec this h td p pd Et Hp Ep) as (h' & E & W);
    [eauto using owned_valid|].
  exists h'. split; [done|].
  set (idx := index td) in *. set (cs' := delete idx (children pd)) in *.
  (* where a node sits in the children left to [p] *)
  assert (forall j c, cs' !! j = Some c ->
            c <> this /\ exists j0, children pd !! j0 = Some c /\
                           j0 <> idx /\ j = if decide (j0 < idx) then j0 else j0 - 1)
    as Hpos.
  { intros j c Hj. unfold cs' in Hj. destruct (decide (j < idx)) as [Hlt|Hge].
    - rewrite list_lookup_delete_lt in Hj by done.
      split; [intros ->; pose proof (owned_unique _ _ _ _ _ _ Hown Ep Hj Hthis); lia|].
      exists j. rewrite decide_True by done. split; [done|]. lia.
    - rewrite list_lookup_delete_ge in Hj by lia.
      split; [intros ->; pose proof (owned_unique _ _ _ _ _ _ Hown Ep Hj Hthis); lia|].
      exists (S j). rewrite decide_False by lia. split; [done|]. lia. }
  intros q qd' j c Eq' Hc.
  destruct (cells_rel_inv _ _ _ _ _ W Eq') as (qd & Eq & _ & _ & Hcq & _).
  rewrite Hcq in Hc. clear Hcq.
  destruct (decide (q = p)) as [->|Hqp].
  - assert (qd = pd) as -> by congruence.
    destruct (Hpos _ _ Hc) as (Hct & j0 & Hj0 & Hj0i & ->).
    destruct (Hown _ _ _ _ Ep Hj0) as (cd0 & Ec0 & Hp0 & Hi0).
    destruct (proj2 W _ _ Ec0) as (cd' & Ec' & _ & Hp' & _ & Hidx).
    exists cd'. split; [done|]. rewrite Hp', decide_False by done. split; [done|].
    rewrite decide_False in Hidx by done.
    destruct Hidx as [[Hx Hsame]|(j' & Hj' & Hcj' & ->)].
    + rewrite Hsame, Hi0. destruct (decide (j0 < idx)); [done|].
      exfalso. apply Hx. apply list_elem_of_lookup. exists (j0 - 1 - idx).
      rewrite lookup_drop. unfold cs'. rewrite list_lookup_delete_ge by lia.
      replace (S (idx + (j0 - 1 - idx))) with j0 by lia. done.
    + destruct (Hpos _ _ Hcj') as (_ & j1 & Hj1 & Hj1i & ->).
      rewrite (owned_unique _ _ _ _ _ _ Hown Ep Hj0 Hj1).
      destruct (decide (j1 < idx)); [lia|done].
  - destruct (Hown _ _ _ _ Eq Hc) as (cd0 & Ec0 & Hp0 & Hi0).
    assert (c <> this) by (intros ->; congruence).
    destruct (proj2 W _ _ Ec0) as (cd' & Ec' & _ & Hp' & _ & Hidx).
    exists cd'. split; [done|]. rewrite Hp', decide_False by done. split; [done|].
    rewrite decide_False in Hidx by done.
    destruct Hidx as [[_ ->]|(j' & _ & Hcj' & _)]; [done|].
    exfalso. destruct (Hpos _ _ Hcj') as (_ & j1 & Hj1 & _).
    destruct (Hown _ _ _ _ Ep Hj1) as (cd1 & Ec1 & Hp1 & _). congruence.
Qed.
End Ownership.

(** * Rebuilding a tree: [clone], [map], [mapAsync] *)

Section Rebuild.
Context {T : Type}.
Implicit Types (h : heap T) (nd : node T) (n p c x r : loc).

Lemma bind_ext {A B} (m m' : M T A) (k k' : A -> M T B) h :
  m h = m' h -> (forall a h1, k a h1 = k' a h1) -> bind m k h = bind m' k' h.
Proof. intros E Hk. unfold bind. rewrite E. destruct (m' h); auto. Qed.

Lemma array_map_ext {A B} (f g : A -> nat -> M T B) l i h :
  (forall a j h1, f a j h1 = g a j h1) -> array_map f l i h = array_map g l i h.
Proof.
  intros Hfg. revert i h. induction l as [|a l IH]; intros i h; [done|].
  simpl. apply bind_ext; [apply Hfg|]. intros b h1.
  apply bind_ext; [apply IH|done].
Qed.

Lemma clone_rebuild fuel this parent h :
  clone fuel this h = rebuild fuel (fun n _ h => model <$> h !! n) this parent h.
Proof.
  revert this parent h. induction fuel as [|fuel IH]; intros this parent h; [done|].
  simpl. apply bind_ext.
  { unfold get_model, read, bind, deref. now destruct (h !! this). }
  intros m h1. apply bind_ext; [done|]. intros nd h2.
  apply bind_ext; [done|]. intros cs h3.
  apply bind_ext; [|done]. apply array_map_ext. intros c j h4.
  apply bind_ext; [apply IH|done].
Qed.

Lemma map_rebuild fuel callback this parent h :
  map_node fuel callback this h =
  rebuild fuel (fun n _ h => Some (callback n h)) this parent h.
Proof.
  revert this parent h. induction fuel as [|fuel IH]; intros this parent h; [done|].
  simpl. apply bind_ext; [done|].
  intros m h1. apply bind_ext; [done|]. intros nd h2.
  apply bind_ext; [done|]. intros cs h3.
  apply bind_ext; [|done]. apply array_map_ext. intros c j h4.
  apply bind_ext; [apply IH|done].
Qed.

Lemma mapAsync_rebuild fuel callback this parent h :
  mapAsync fuel callback this parent h =
  rebuild fuel (fun n q h => Some (callback n q h)) this parent h.
Proof.
  revert this parent h. induction fuel as [|fuel IH]; intros this parent h; [done|].
  simpl. apply bind_ext; [done|].
  intros m h1. apply bind_ext; [done|]. intros nd h2.
  apply bind_ext; [done|]. intros cs h3.
  apply bind_ext; [|done]. apply array_map_ext. intros c j h4.
  apply bind_ext; [apply IH|done].
Qed.

Lemma rebuilt_frame payload h0 L L' h1 h2 :
  L' <= L ->
  (forall x nd, L <= x -> h1 !! x = Some nd ->
     exists nd', h2 !! x = Some nd' /\ model nd' = model nd /\
                 children nd' = children nd) ->
  forall this parent r,
    rebuilt payload h0 L h1 this parent r ->
    (forall p pd, parent = Some p -> h1 !! p = Some pd ->
       exists pd', h2 !! p = Some pd' /\ model pd' = model pd) ->
    rebuilt payload h0 L' h2 this parent r.
Proof.
  intros HLL Hfr. fix IH 4. intros this parent r H Hpar.
  destruct H as [this parent r od nd hc HL E0 E1 Hpre Hmat Hpay Hcs].
  destruct (Hfr _ _ HL E1) as (nd' & E2 & Hm & Hc).
  apply (rebuilt_node _ _ _ _ this parent r od nd' hc); try done; [lia|..].
  - intros p ->. destruct (Hmat p eq_refl) as (pd & Ep & Ehc).
    destruct (Hpar p pd eq_refl Ep) as (pd' & Ep' & Hmp).
    exists pd'. split; [done|]. now rewrite Hmp.
  - now rewrite Hm.
  - rewrite Hc. clear Hc Hpay. induction Hcs as [|c c' cs cs' Hc Hcs IHcs]; constructor.
    + apply IH; [exact Hc|]. intros p pd [= <-] Ep.
      rewrite E1 in Ep. injection Ep as <-. eauto.
    + exact IHcs.
Qed.

Lemma prefix_lookup_old h h' x :
  h `prefix_of` h' -> x < length h -> h' !! x = h !! x.
Proof. intros [k ->] Hx. now apply lookup_app_l. Qed.

Lemma prefix_insert_new h h' x (v : node T) :
  h `prefix_of` h' -> length h <= x -> h `prefix_of` <[x := v]> h'.
Proof.
  intros [k ->] Hx. rewrite insert_app_r_alt by done. now apply prefix_app_r.
Qed.

Lemma to_tree_Some_inv fuel h this (t : tree T) :
  to_tree fuel h this = Some t ->
  exists fuel' nd ts, fuel = S fuel' /\ h !! this = Some nd /\
    Forall2 (fun c t => to_tree fuel' h c = Some t) (children nd) ts /\
    t = TNode (model nd) ts.
Proof.
  destruct fuel as [|fuel]; [done|]. simpl.
  destruct (h !! this) as [nd|]; [|done]. simpl.
  destruct (mapM (to_tree fuel h) (children nd)) as [ts|] eqn:E; [|done].
  intros [= <-]. apply mapM_Some in E. eauto 10.
Qed.

Section Spec.
Variable payload : loc -> option loc -> heap T -> option T.
Variable h0 : heap T.
Hypothesis payload_total : forall n q hc,
  h0 `prefix_of` hc -> is_Some (h0 !! n) -> is_Some (payload n q hc).

Lemma rebuild_spec fuel : forall this par h t,
  to_tree fuel h0 this = Some t ->
  h0 `prefix_of` h ->
  (forall p, par = Some p -> exists mp, h !! p = Some (Node mp None [] 0)) ->
  exists r h', rebuild fuel payload this par h = Ret r h' /\
               rebuild_post payload h0 h this par r h'.
Proof.
  induction fuel as [|fuel IH]; intros this par h t Ht Hpre Hmat; [done|].
  apply to_tree_Some_inv in Ht as (fuel' & od & ts & [= <-] & E0 & Hts & ->).
  simpl.
  destruct (payload_total this par h Hpre) as [m Em]; [eauto|].
  assert (read (payload this par) h = Ret m h) as Er
    by (unfold read; now rewrite Em).
  mstep Er. unfold new_TreeNode at 1. rewrite bind_unfold.
  set (nd := length h). set (h1 := h ++ [Node m None [] 0]).
  assert (h `prefix_of` h1) as Hh1 by (now apply prefix_app_r).
  assert (h1 !! nd = Some (Node m None [] 0)) as End1
    by (apply list_lookup_middle; done).
  assert (length h1 = S nd) as Lh1 by (unfold h1; rewrite length_app; simpl; lia).
  assert (h1 !! this = Some od) as Eth1.
  { eapply prefix_lookup_Some; [exact E0|]. now transitivity h. }
  mstep (get_children_Ret _ _ _ Eth1).
  set (body := fun (child : loc) (i : nat) => _).
  (* the loop over the children *)
  assert (forall cs ts, Forall2 (fun c t => to_tree fuel h0 c = Some t) cs ts ->
    forall i hi done,
      h1 `prefix_of` hi -> length done = i ->
      (forall x ndx p, length h1 <= x -> hi !! x = Some ndx -> parent ndx = Some p ->
         (p = nd /\ done !! index ndx = Some x) \/
         (length h1 <= p /\ exists pd, hi !! p = Some pd /\
                                       children pd !! index ndx = Some x)) ->
      owned_from (length h1) hi ->
      (forall j c, done !! j = Some c ->
         exists cd, hi !! c = Some cd /\ parent cd = Some nd /\ index cd = j) ->
      exists cs' hf, array_map body cs i hi = Ret cs' hf /\
        hi `prefix_of` hf /\
        (forall x ndx p, length h1 <= x -> hf !! x = Some ndx -> parent ndx = Some p ->
           (p = nd /\ (done ++ cs') !! index ndx = Some x) \/
           (length h1 <= p /\ exists pd, hf !! p = Some pd /\
                                         children pd !! index ndx = Some x)) /\
        Forall2 (fun c c' => rebuilt payload h0 (length h1) hf c (Some nd) c') cs cs' /\
        owned_from (length h1) hf /\
        (forall j c, (done ++ cs') !! j = Some c ->
           exists cd, hf !! c = Some cd /\ parent cd = Some nd /\ index cd = j))
    as Hloop.
  { clear Hts ts. intros cs ts Hts.
    induction Hts as [|c t cs ts Hc Hts IHl]; intros i hi done Hhi Hlen HJ HK1 HK2.
    - exists [], hi. rewrite app_nil_r. split; [done|]. split; [done|]. split; [done|].
      split; [constructor|done].
    - simpl.
      assert (hi !! nd = Some (Node m None [] 0)) as Endi.
      { eapply prefix_lookup_Some; [exact End1|done]. }
      destruct (IH c (Some nd) hi t Hc) as (r & h2 & Er2 & Hpost).
      { transitivity h; [done|]. now transitivity h1. }
      { intros p [= <-]. eauto. }
      destruct Hpost as (-> & Hpre2 & (ndr & Endr & Hpr & Hir) & Hinv2 & Hreb & Hown2).
      set (r := length hi) in *.
      assert (nd < r) as Hndr.
      { apply prefix_length in Hhi. unfold r. lia. }
      unfold body at 1. mstep Er2.
      mstep (set_parent_Ret _ (Some nd) _ _ Endr).
      set (h3 := <[r := Node (model ndr) (Some nd) (children ndr) (index ndr)]> h2).
      assert (h3 !! r = Some (Node (model ndr) (Some nd) (children ndr) (index ndr)))
        as Er3 by (apply list_lookup_insert_eq; eapply lookup_lt_Some, Endr).
      mstep (set_index_Ret _ i _ _ Er3). simpl.
      set (h4 := <[r := Node (model ndr) (Some nd) (children ndr) i]> h3).
      assert (forall x, h4 !! x =
                if decide (x = r)
                then Some (Node (model ndr) (Some nd) (children ndr) i)
                else h2 !! x) as Eh4.
      { intros x. unfold h4. rewrite (lookup_write _ _ _ _ _ Er3).
        destruct (decide (x = r)); [done|].
        unfold h3. now rewrite (lookup_write _ _ _ _ _ Endr), decide_False. }
      assert (hi `prefix_of` h4) as Hpre4.
      { unfold h4, h3. apply prefix_insert_new; [|done].
        apply prefix_insert_new; done. }
      destruct (IHl (S i) h4 (done ++ [r]))
        as (cs' & hf & Ecs & Hpref & HJf & Hrebs & HK1f & HK2f).
      { now transitivity hi. }
      { rewrite length_app. simpl. lia. }
      { intros x ndx p Hx Ex Hp. rewrite Eh4 in Ex.
        destruct (decide (x = r)) as [->|Hxr].
        - injection Ex as <-. simpl in *. injection Hp as <-. left.
          split; [done|]. rewrite <- Hlen. now apply list_lookup_middle.
        - destruct (decide (x < r)) as [Hlt|Hge].
          + rewrite (prefix_lookup_old _ _ _ Hpre2 Hlt) in Ex.
            destruct (HJ _ _ _ Hx Ex Hp) as [[-> Hd]|(Hp1 & pd & Epd & Hcp)].
            * left. split; [done|]. now apply lookup_app_l_Some.
            * right. split; [done|]. exists pd. split; [|done].
              rewrite Eh4. pose proof (lookup_lt_Some _ _ _ Epd) as Hpl.
              rewrite decide_False by (unfold r; lia).
              rewrite (prefix_lookup_old _ _ _ Hpre2 Hpl). done.
          + destruct (Hinv2 x ndx p) as (Hp1 & pd & Epd & Hcp); [unfold r in *; lia|done..|].
            right. split; [apply prefix_length in Hhi; lia|].
            rewrite Eh4. destruct (decide (p = r)) as [->|Hpr'].
            * eexists. split; [done|]. simpl. congruence.
            * eauto. }
      { intros p pd j c' Hp Ep Hc'. rewrite Eh4 in Ep.
        assert (forall q cd, h2 !! c' = Some cd -> parent cd = Some q ->
                             h4 !! c' = Some cd) as Hkeep.
        { intros q cd Ecd Hq. rewrite Eh4, decide_False; [done|].
          intros ->. congruence. }
        destruct (decide (p = r)) as [->|Hpr'].
        - injection Ep as <-. simpl in Hc'.
          destruct (Hown2 r ndr j c') as (cd & Ecd & Hq & Hj); [done..|]. eauto.
        - destruct (decide (p < r)) as [Hlt|Hge].
          + rewrite (prefix_lookup_old _ _ _ Hpre2 Hlt) in Ep.
            destruct (HK1 p pd j c' Hp Ep Hc') as (cd & Ecd & Hq & Hj).
            exists cd. split; [|done]. eapply Hkeep; [|exact Hq].
            eapply prefix_lookup_Some; eauto.
          + destruct (Hown2 p pd j c') as (cd & Ecd & Hq & Hj);
              [unfold r in *; lia|done..|]. eauto. }
      { intros j c' Hj. apply lookup_app_Some in Hj as [Hj|[Hlj Hj]].
        - destruct (HK2 j c' Hj) as (cd & Ecd & Hq & Hjj).
          exists cd. split; [|done]. rewrite Eh4.
          pose proof (lookup_lt_Some _ _ _ Ecd).
          rewrite decide_False by (unfold r; lia).
          eapply prefix_lookup_Some; eauto.
        - apply list_lookup_singleton_Some in Hj as [Hj0 <-].
          rewrite Eh4, decide_True by done. eexists. split; [done|].
          simpl. split; [done|]. lia. }
      exists (r :: cs'), hf. mstep Ecs. split; [done|].
      split; [now transitivity h4|].
      replace (done ++ r :: cs') with ((done ++ [r]) ++ cs')
        by (now rewrite <- app_assoc).
      split; [done|]. split; [|done].
      constructor; [|done].
      eapply (rebuilt_frame _ _ (length h1) (length h1) h4 hf); [done| | |].
      + intros x ndx Hx Ex. exists ndx. split; [|done].
        eapply prefix_lookup_Some; [exact Ex|done].
      + eapply (rebuilt_frame _ _ (length hi) (length h1) h2 h4);
          [apply prefix_length in Hhi; lia| |exact Hreb|].
        * intros x ndx Hx Ex. rewrite Eh4. destruct (decide (x = r)) as [->|].
          { eexists. split; [done|]. simpl. split; congruence. }
          { eauto. }
        * intros p pd [= <-] Epd. rewrite Eh4, decide_False by lia. eauto.
      + intros p pd [= <-] Epd. exists pd. split; [|done].
        eapply prefix_lookup_Some; [exact Epd|done]. }
  destruct (Hloop _ _ Hts 0 h1 [])
    as (cs' & hf & Ecs & Hpref & HJf & Hrebs & HK1f & HK2f); [done|done| | | |].
  { intros x ndx p Hx Ex. apply lookup_lt_Some in Ex. lia. }
  { intros p pd j c Hp Ep. apply lookup_lt_Some in Ep. lia. }
  { intros j c Hj. done. }
  simpl in HJf.
  mstep Ecs.
  assert (hf !! nd = Some (Node m None [] 0)) as Endf
    by (eapply prefix_lookup_Some; [exact End1|done]).
  mstep (set_children_Ret _ cs' _ _ Endf). simpl.
  set (h' := <[nd := Node m None cs' 0]> hf).
  assert (forall x, h' !! x =
            if decide (x = nd) then Some (Node m None cs' 0) else hf !! x) as Eh'.
  { intros x. unfold h'. now rewrite (lookup_write _ _ _ _ _ Endf). }
  exists nd, h'. split; [done|]. split; [done|]. split.
  { unfold h'. apply prefix_insert_new; [|done]. now transitivity h1. }
  split.
  { exists (Node m None cs' 0). rewrite Eh', decide_True by done. done. }
  split; [|split].
  - intros x ndx p Hx Ex Hp. rewrite Eh' in Ex.
    destruct (decide (x = nd)) as [->|Hxn]; [injection Ex as <-; done|].
    destruct (HJf x ndx p) as [[-> Hd]|(Hp1 & pd & Epd & Hcp)];
      [fold nd in Hx; lia|done..| |].
    + split; [done|]. rewrite Eh', decide_True by done. eauto.
    + split; [lia|]. rewrite Eh', decide_False by lia. eauto.
  - apply (rebuilt_node _ _ _ _ this par nd od (Node m None cs' 0) h);
      [done|done|by rewrite Eh', decide_True| done | |done|].
    + intros p ->. destruct (Hmat p eq_refl) as (mp & Ep).
      exists (Node mp None [] 0). split; [|done].
      rewrite Eh'. pose proof (lookup_lt_Some _ _ _ Ep).
      rewrite decide_False by (fold nd in H; lia).
      eapply prefix_lookup_Some; [exact Ep|]. now transitivity h1.
    + simpl. eapply Forall2_impl; [exact Hrebs|]. intros c c' Hcc. simpl in Hcc.
      eapply (rebuilt_frame _ _ (length h1) (length h) hf h'); [lia| |exact Hcc|].
      * intros x ndx Hx Ex. rewrite Eh', decide_False by lia. eauto.
      * intros p pd Hp Epd. injection Hp as Hp. subst p.
        rewrite Eh', decide_True by done.
        eexists. split; [done|].
        assert (Some pd = Some (Node m None [] 0)) as Heq
          by (rewrite <- Epd; exact Endf).
        now injection Heq as ->.
  - intros p pd j c Hp Ep Hc. rewrite Eh' in Ep.
    assert (forall q cd, hf !! c = Some cd -> parent cd = Some q ->
                         h' !! c = Some cd) as Hkeep.
    { intros q cd Ecd Hq. rewrite Eh', decide_False; [done|].
      intros ->. assert (Some cd = Some (Node m None [] 0)) as Heq
        by (rewrite <- Ecd; exact Endf).
      injection Heq as ->. done. }
    destruct (decide (p = nd)) as [->|Hpn].
    + injection Ep as <-. simpl in Hc.
      destruct (HK2f j c Hc) as (cd & Ecd & Hq & Hj). eauto.
    + destruct (HK1f p pd j c) as (cd & Ecd & Hq & Hj); [fold nd in Hp; lia|done..|].
      eauto.
Qed.
End Spec.
End Rebuild.

Section RebuildInv.
Context {T : Type}.
Implicit Types (h : heap T) (nd : node T) (n p c x r : loc).

Lemma rebuild_index_inv payload h this par r h' :
  index_inv h -> rebuild_post payload h h this par r h' -> index_inv h'.
Proof.
  intros Hinv (-> & Hpre & _ & Hfrom & _ & Hofrom) x nd p Ex Hp.
  destruct (decide (x < length h)) as [Hlt|Hge].
  - rewrite (prefix_lookup_old _ _ _ Hpre Hlt) in Ex.
    destruct (Hinv _ _ _ Ex Hp) as (pd & Ep & Hc). exists pd. split; [|done].
    eapply prefix_lookup_Some; [exact Ep|done].
  - destruct (Hfrom x nd p) as (_ & H); [lia|done..].
Qed.

Lemma rebuild_forest payload h this par r h' :
  forest h -> rebuild_post payload h h this par r h' -> forest h'.
Proof.
  intros [Hinv Hown] Hpost. split; [eapply rebuild_index_inv; eauto|].
  destruct Hpost as (-> & Hpre & _ & Hfrom & _ & Hofrom).
  - intros p pd i c Ep Hc.
    destruct (decide (p < length h)) as [Hlt|Hge].
    + rewrite (prefix_lookup_old _ _ _ Hpre Hlt) in Ep.
      destruct (Hown _ _ _ _ Ep Hc) as (cd & Ec & H). exists cd. split; [|done].
      eapply prefix_lookup_Some; [exact Ec|done].
    + apply (Hofrom p pd i c); [lia|done..].
Qed.

Lemma clone_forest fuel h this (t : tree T) :
  to_tree fuel h this = Some t ->
  exists r h', clone fuel this h = Ret r h' /\
               (index_inv h -> index_inv h') /\ (forest h -> forest h').
Proof.
  intros Ht.
  assert (forall n (q : option loc) hc,
            h `prefix_of` hc -> is_Some (h !! n) -> is_Some (model <$> hc !! n)) as Htot.
  { intros n _ hc Hpre [nd En]. rewrite (prefix_lookup_Some _ _ _ _ En Hpre). eauto. }
  destruct (rebuild_spec (fun n _ h => model <$> h !! n) h Htot fuel this None h t Ht)
    as (r & h' & E & Hpost); [done|done|].
  exists r, h'. rewrite (clone_rebuild _ _ None). split; [done|].
  split; intros H; [eapply rebuild_index_inv|eapply rebuild_forest]; eauto.
Qed.

Lemma map_forest fuel callback h this (t : tree T) :
  to_tree fuel h this = Some t ->
  exists r h', map_node fuel callback this h = Ret r h' /\
               (index_inv h -> index_inv h') /\ (forest h -> forest h').
Proof.
  intros Ht.
  assert (forall n (q : option loc) hc,
            h `prefix_of` hc -> is_Some (h !! n) -> is_Some (Some (callback n hc))) as Htot
    by eauto.
  destruct (rebuild_spec (fun n _ h => Some (callback n h)) h Htot fuel this None h t Ht)
    as (r & h' & E & Hpost); [done|done|].
  exists r, h'. rewrite (map_rebuild _ _ _ None). split; [done|].
  split; intros H; [eapply rebuild_index_inv|eapply rebuild_forest]; eauto.
Qed.
End RebuildInv.

(** C1, as amended.  Invariant 1 across the mutating operations, at
    integer positions.  From a store in which Invariant 1 holds, [add]
    without a position, [clone] and [map] return and leave a store in
    which every node [n] with a parent [p] satisfies
    [p.children[n.index] === n].  So do [add] with a position in range
    and [swap] with positions in range when the nodes listed by the node
    they are called on have it as their parent, and [drop] when the
    nodes listed by the parent of the node have that parent as theirs:
    these are the nodes the three methods re-index.  From a forest
    (Invariant 1 holds, and whatever a node lists at a position has that
    node as parent and that position as cached index) each operation
    leaves a forest, [add] when the child had no parent. *)
Theorem index_invariant_maintained {T} (h : heap T) :
  index_inv h ->
  (forall this child td cd,
     h !! this = Some td -> h !! child = Some cd ->
     exists h', add this child None h = Ret child h' /\ index_inv h' /\
                (forest h -> parent cd = None -> forest h')) /\
  (forall this child i td cd,
     h !! this = Some td -> h !! child = Some cd ->
     children_point_back h this ->
     (0 <= i <= Z.of_nat (length (children td)))%Z ->
     exists h', add this child (Some i) h = Ret child h' /\ index_inv h' /\
                (forest h -> parent cd = None -> forest h')) /\
  (forall this td,
     h !! this = Some td ->
     (forall p, parent td = Some p -> children_point_back h p) ->
     exists h', drop_node this h = Ret this h' /\ index_inv h' /\
                (forest h -> forest h')) /\
  (forall this i j td,
     h !! this = Some td ->
     children_point_back h this ->
     (0 <= i < Z.of_nat (length (children td)))%Z ->
     (0 <= j < Z.of_nat (length (children td)))%Z ->
     exists h', swap this i j h = Ret tt h' /\ index_inv h' /\
                (forest h -> forest h')) /\
  (forall fuel this t,
     to_tree fuel h this = Some t ->
     exists r h', clone fuel this h = Ret r h' /\ index_inv h' /\
                  (forest h -> forest h')) /\
  (forall fuel callback this t,
     to_tree fuel h this = Some t ->
     exists r h', map_node fuel callback this h = Ret r h' /\ index_inv h' /\
                  (forest h -> forest h')).
Proof.
  intros Hinv. repeat split.
  - intros this child td cd Et Ec.
    destruct (add_append_index_inv this child h td cd Hinv Et Ec) as (h' & E & Hi).
    exists h'. split; [done|]. split; [done|]. intros [_ Hown] Hroot.
    destruct (add_append_owned this child h td cd Hown Et Ec Hroot) as (h2 & E2 & Ho).
    rewrite E in E2. injection E2 as <-. done.
  - intros this child i td cd Et Ec Hback Hr.
    destruct (add_insert_index_inv this child i h td cd Hinv Hback Et Ec Hr)
      as (h' & E & Hi).
    exists h'. split; [done|]. split; [done|]. intros [_ Hown] Hroot.
    destruct (add_insert_owned this child i h td cd Hown Et Ec Hroot Hr)
      as (h2 & E2 & Ho).
    rewrite E in E2. injection E2 as <-. done.
  - intros this td Et Hback.
    destruct (drop_index_inv this h td Hinv Hback Et) as (h' & E & Hi).
    exists h'. split; [done|]. split; [done|]. intros Hf.
    destruct (drop_owned this h td Hf Et) as (h2 & E2 & Ho).
    rewrite E in E2. injection E2 as <-. done.
  - intros this i j td Et Hback Hi Hj.
    destruct (swap_index_inv this i j h td Hinv Hback Et Hi Hj) as (h' & E & Hi').
    exists h'. split; [done|]. split; [done|]. intros [_ Hown].
    destruct (swap_owned this i j h td Hown Et Hi Hj) as (h2 & E2 & Ho).
    rewrite E in E2. injection E2 as <-. done.
  - intros fuel this t Ht.
    destruct (clone_forest fuel h this t Ht) as (r & h' & E & Hi & Hf').
    exists r, h'. auto.
  - intros fuel callback this t Ht.
    destruct (map_forest fuel callback h this t Ht) as (r & h' & E & Hi & Hf').
    exists r, h'. auto.
Qed.

Lemma parse_fixture : parse fixture [] = Ret 0 fixture_store.
Proof. reflexivity. Qed.

Lemma fixture_forest : forest fixture_store.
Proof.
  split.
  - intros n nd p En Hp.
    do 5 (destruct n as [|n];
      [injection En as <-; simpl in Hp; try discriminate; injection Hp as <-;
       eexists; split; reflexivity|]).
    done.
  - intros p pd i c Ep Hc.
    do 5 (destruct p as [|p]; [injection Ep as <-; simpl in Hc;
      repeat (destruct i as [|i]; [injection Hc as <-; eexists; split; [reflexivity|done]|]); done|]).
    done.
Qed.

(** C1, as stated, fails where a node is listed by a node that is not
    its parent: the calls below are all in range and return, Invariant 1
    holds before [p1.add(c, 0)], and after it [x] has parent [p2] and
    cached index 2 while [p2.children] is [[x]]. *)
Lemma index_invariant_shared_child_counterexample :
  (let* p1 := new_TreeNode "p1" in
   let* a := new_TreeNode "a" in
   let* x := new_TreeNode "x" in
   let* p2 := new_TreeNode "p2" in
   new_TreeNode "c" ;;;
   add p1 a None ;;; add p1 x None ;;; add p2 x None ;;;
   ret tt) [] = Ret tt shared_child_store /\
  index_inv shared_child_store /\
  exists h' xd p2d,
    add 0 4 (Some 0%Z) shared_child_store = Ret 4 h' /\
    h' !! 2 = Some xd /\ parent xd = Some 3 /\ index xd = 2 /\
    h' !! 3 = Some p2d /\ children p2d = [2] /\
    ~ index_inv h'.
Proof.
  split; [reflexivity|]. split.
  - intros n nd p En Hp.
    do 5 (destruct n as [|n];
      [injection En as <-; simpl in Hp; try discriminate; injection Hp as <-;
       eexists; split; reflexivity|]).
    done.
  - eexists _, _, _. split; [reflexivity|].
    do 5 (split; [reflexivity|]).
    intros H.
    destruct (H 2 _ 3 eq_refl eq_refl) as (pd & E & C).
    injection E as <-. discriminate C.
Qed.

Lemma index_invariant_maintained_witness :
  (forall this child td cd,
     fixture_store !! this = Some td -> fixture_store !! child = Some cd ->
     exists h', add this child None fixture_store = Ret child h' /\ index_inv h' /\
                (forest fixture_store -> parent cd = None -> forest h')) /\
  (forall this child i td cd,
     fixture_store !! this = Some td -> fixture_store !! child = Some cd ->
     children_point_back fixture_store this ->
     (0 <= i <= Z.of_nat (length (children td)))%Z ->
     exists h', add this child (Some i) fixture_store = Ret child h' /\ index_inv h' /\
                (forest fixture_store -> parent cd = None -> forest h')) /\
  (forall this td,
     fixture_store !! this = Some td ->
     (forall p, parent td = Some p -> children_point_back fixture_store p) ->
     exists h', drop_node this fixture_store = Ret this h' /\ index_inv h' /\
                (forest fixture_store -> forest h')) /\
  (forall this i j td,
     fixture_store !! this = Some td ->
     children_point_back fixture_store this ->
     (0 <= i < Z.of_nat (length (children td)))%Z ->
     (0 <= j < Z.of_nat (length (children td)))%Z ->
     exists h', swap this i j fixture_store = Ret tt h' /\ index_inv h' /\
                (forest fixture_store -> forest h')) /\
  (forall fuel this t,
     to_tree fuel fixture_store this = Some t ->
     exists r h', clone fuel this fixture_store = Ret r h' /\ index_inv h' /\
                  (forest fixture_store -> forest h')) /\
  (forall fuel callback this t,
     to_tree fuel fixture_store this = Some t ->
     exists r h', map_node fuel callback this fixture_store = Ret r h' /\
                  index_inv h' /\ (forest fixture_store -> forest h')).
Proof. exact (index_invariant_maintained fixture_store (proj1 fixture_forest)). Defined.




Section AddFacts.
Context {T : Type}.
Implicit Types (h : heap T) (nd : node T) (n p c x r : loc).

Lemma reindex_from_links cs i h h' :
  reindex_from cs i h = Ret tt h' -> cells_rel (fun _ a b => same_links a b) h h'.
Proof.
  revert i h. induction cs as [|c cs IH]; intros i h E.
  - injection E as <-. apply cells_rel_refl. intros x nd. done.
  - simpl in E. apply bind_Ret_inv in E as ([] & h1 & E1 & E2).
    unfold set_index, update in E1. destruct (h !! c) as [cd|] eqn:Ec; [|done].
    injection E1 as <-.
    eapply cells_rel_trans;
      [exact (update_cells_rel h c cd
                (fun nd => Node (model nd) (parent nd) (children nd) i) Ec)
      |exact (IH _ _ E2)|].
    intros x a b d -> (Hm & Hp & Hc). destruct (decide (x = c)); simpl in *; done.
Qed.

Lemma add_Ret_inv this child idx h r h' :
  add this child idx h = Ret r h' ->
  r = child /\
  exists td cd, h !! this = Some td /\ h !! child = Some cd /\
    in_range idx (length (children td)) /\
    cells_rel (fun x a b =>
      model b = model a /\
      parent b = (if decide (x = child) then Some this else parent a) /\
      children b = (if decide (x = this) then added idx child (children a)
                    else children a)) h h'.
Proof.
  intros E.
  destruct (h !! child) as [cd|] eqn:Ec.
  2:{ unfold add, set_parent, update in E. rewrite bind_unfold, Ec in E. done. }
  destruct (h !! this) as [td|] eqn:Et.
  2:{ unfold add in E.
      destruct (set_parent_step _ _ _ _ _ _ _ (Some this) (relinked_refl h) Ec)
        as (h1 & E1 & W1).
      rewrite (bind_Ret _ _ _ _ _ E1) in E.
      pose proof (cells_rel_None _ _ _ _ W1 Et) as Et1.
      destruct idx; rewrite bind_assoc in E;
        unfold get_children, deref in E; rewrite bind_assoc, bind_unfold, Et1 in E;
        done. }
  destruct idx as [i|].
  - destruct (decide (0 <= i <= Z.of_nat (length (children td)))%Z) as [Hi|Hi].
    + unfold add in E.
      destruct (set_parent_step _ _ _ _ _ _ _ (Some this) (relinked_refl h) Ec)
        as (h1 & E1 & W1).
      rewrite (bind_Ret _ _ _ _ _ E1) in E.
      rewrite bind_assoc, (bind_Ret _ _ _ _ _ (get_children_step _ _ _ _ _ _ _ W1 Et))
        in E.
      replace ((i <? 0)%Z || (Z.of_nat (length (children td)) <? i)%Z) with false in E
        by (symmetry; apply orb_false_intro; [apply Z.ltb_ge|apply Z.ltb_ge]; lia).
      destruct (set_children_step _ _ _ _ _ _ _
                  (splice_in (Z.to_nat i) child (children td)) W1 Et) as (h2 & E2 & W2).
      rewrite bind_assoc, (bind_Ret _ _ _ _ _ E2) in E.
      apply bind_Ret_inv in E as ([] & h3 & E3 & E4). injection E4 as <- <-.
      unfold reindex in E3.
      rewrite (bind_Ret _ _ _ _ _ (get_children_step _ _ _ _ _ _ _ W2 Et)) in E3.
      apply reindex_from_links in E3.
      split; [done|]. exists td, cd. split; [done|]. split; [done|]. split; [done|].
      eapply (cells_rel_weaken (fun x a b =>
        model b = model a /\
        parent b = (if decide (x = child) then Some this else parent a) /\
        children b = (if decide (x = this)
                      then splice_in (Z.to_nat i) child (children td)
                      else children a))).
      { eapply cells_rel_trans; [exact W2|exact E3|].
        intros x a b d -> (Hm & Hp & Hc). simpl in *. rewrite Hm, Hp, Hc. done. }
      intros x a b Ex (Hm & Hp & Hc). split; [done|]. split; [done|].
      rewrite Hc. destruct (decide (x = this)) as [->|]; [|done].
      simpl. congruence.
    + exfalso. unfold add in E.
      destruct (set_parent_step _ _ _ _ _ _ _ (Some this) (relinked_refl h) Ec)
        as (h1 & E1 & W1).
      rewrite (bind_Ret _ _ _ _ _ E1) in E.
      rewrite bind_assoc, (bind_Ret _ _ _ _ _ (get_children_step _ _ _ _ _ _ _ W1 Et))
        in E.
      replace ((i <? 0)%Z || (Z.of_nat (length (children td)) <? i)%Z) with true in E.
      { done. }
      symmetry. apply orb_true_iff. rewrite !Z.ltb_lt. lia.
  - destruct (add_append_spec this child h td cd Et Ec) as (h2 & E2 & W2).
    rewrite E2 in E. injection E as <- <-.
    split; [done|]. exists td, cd. split; [done|]. split; [done|]. split; [done|].
    eapply cells_rel_weaken; [exact W2|]. intros x a b Ex ->. simpl. done.
Qed.

(** A thrown [add]: the child's parent has been written, nothing else. *)
Lemma add_out_of_range this child (i : Z) h td cd :
  h !! this = Some td -> h !! child = Some cd ->
  (i < 0 \/ Z.of_nat (length (children td)) < i)%Z ->
  add this child (Some i) h =
  Throw RangeError (<[child := Node (model cd) (Some this) (children cd) (index cd)]> h).
Proof.
  intros Et Ec Hi. unfold add.
  destruct (set_parent_step _ _ _ _ _ _ _ (Some this) (relinked_refl h) Ec)
    as (h1 & E1 & W1).
  pose proof E1 as E1'. rewrite (set_parent_Ret _ _ _ _ Ec) in E1'. injection E1' as <-.
  mstep E1. mstep (get_children_step _ _ _ _ _ _ _ W1 Et).
  replace ((i <? 0)%Z || (Z.of_nat (length (children td)) <? i)%Z) with true.
  { done. }
  symmetry. apply orb_true_iff. rewrite !Z.ltb_lt. lia.
Qed.
End AddFacts.

(** C10.  [add(child)] does not detach: if [p1] lists [child] and
    [p2.add(child)] returns, [p1] still lists [child], the parent of
    [child] is [p2], and the store no longer satisfies ownership. *)
Theorem add_does_not_detach {T} (h : heap T) p1 pd1 p2 child idx r h' :
  h !! p1 = Some pd1 -> child ∈ children pd1 ->
  add p2 child idx h = Ret r h' ->
  exists pd1' cd',
    h' !! p1 = Some pd1' /\ child ∈ children pd1' /\
    h' !! child = Some cd' /\ parent cd' = Some p2 /\
    ~ owned h'.
Proof.
  intros E1 Hin E.
  apply add_Ret_inv in E as (-> & td & cd & Et & Ec & Hr & W).
  destruct (proj2 W _ _ E1) as (pd1' & E1' & _ & _ & Hc1).
  destruct (proj2 W _ _ Ec) as (cd' & Ec' & _ & Hpc & _).
  rewrite decide_True in Hpc by done.
  apply list_elem_of_lookup in Hin as [i1 Hi1].
  exists pd1', cd'. split; [done|]. split.
  { rewrite Hc1. destruct (decide (p1 = p2)) as [->|]; [|eapply list_elem_of_lookup_2, Hi1].
    assert (pd1 = td) as -> by congruence.
    destruct idx as [i|]; simpl.
    - unfold splice_in. rewrite <- (take_drop (Z.to_nat i) (children td)) in Hi1.
      apply list_elem_of_lookup_2 in Hi1. rewrite elem_of_app in *.
      rewrite elem_of_cons. tauto.
    - apply elem_of_app. left. eapply list_elem_of_lookup_2, Hi1. }
  split; [done|]. split; [done|].
  intros Hown. destruct (decide (p1 = p2)) as [->|Hne].
  - assert (pd1 = td) as -> by congruence.
    assert (exists a b, a <> b /\ children pd1' !! a = Some child /\
                        children pd1' !! b = Some child) as (a & b & Hab & Ha & Hb).
    { rewrite Hc1. destruct idx as [i|]; simpl in *.
      - set (k := Z.to_nat i). assert (k <= length (children td)) by lia.
        destruct (decide (i1 < k)).
        + exists i1, k. split; [lia|]. rewrite splice_in_lookup_lt by done.
          rewrite splice_in_lookup_eq by done. done.
        + exists (S i1), k. split; [lia|]. rewrite splice_in_lookup_gt by lia.
          rewrite splice_in_lookup_eq by done. done.
      - exists i1, (length (children td)). pose proof (lookup_lt_Some _ _ _ Hi1).
        split; [lia|]. split; [now apply lookup_app_l_Some|now apply list_lookup_middle]. }
    destruct (Hown _ _ _ _ E1' Ha) as (x1 & Ex1 & _ & Hx1).
    destruct (Hown _ _ _ _ E1' Hb) as (x2 & Ex2 & _ & Hx2).
    congruence.
  - assert (children pd1' !! i1 = Some child) as Hi1' by (now rewrite Hc1).
    destruct (Hown _ _ _ _ E1' Hi1') as (x1 & Ex1 & Hp1 & _). congruence.
Qed.

Lemma add_does_not_detach_witness :
  exists pd1' cd',
    [Node "1" None [1; 4] 0; Node "11" (Some 0) [2; 3; 4] 0; Node "111" (Some 1) [] 0;
     Node "112" (Some 1) [] 1; Node "12" (Some 1) [] 2] !! 0 = Some pd1' /\
    4 ∈ children pd1' /\
    [Node "1" None [1; 4] 0; Node "11" (Some 0) [2; 3; 4] 0; Node "111" (Some 1) [] 0;
     Node "112" (Some 1) [] 1; Node "12" (Some 1) [] 2] !! 4 = Some cd' /\
    parent cd' = Some 1 /\
    ~ owned [Node "1" None [1; 4] 0; Node "11" (Some 0) [2; 3; 4] 0;
             Node "111" (Some 1) [] 0; Node "112" (Some 1) [] 1;
             Node "12" (Some 1) [] 2].
Proof.
  refine (add_does_not_detach fixture_store 0 (Node "1" None [1; 4] 0) 1 4 None 4 _
            eq_refl _ eq_refl).
  apply list_elem_of_In. simpl. tauto.
Defined.

(** C2.  [add] with a position out of range throws [RangeError] and
    leaves the children of every node as they were, but it has already
    written [child.parent]: after [node.add(b, 100)] and after
    [node.add(b, -1)] the parent of [b] is [node], where it was [null]. *)
Theorem add_out_of_range_writes_parent :
  (let* root := new_TreeNode "root" in
   addModel root "a" None ;;;
   let* b := new_TreeNode "b" in
   ret (root, b)) [] = Ret (0, 2) root_a_b /\
  add 0 2 (Some 100%Z) root_a_b =
    Throw RangeError
      [Node "root" None [1] 0; Node "a" (Some 0) [] 0; Node "b" (Some 0) [] 0] /\
  add 0 2 (Some (-1)%Z) root_a_b =
    Throw RangeError
      [Node "root" None [1] 0; Node "a" (Some 0) [] 0; Node "b" (Some 0) [] 0] /\
  parent <$> root_a_b !! 2 = Some None.
Proof. repeat split. Qed.

Section RebuiltShape.
Context {T : Type}.
Implicit Types (h : heap T) (nd : node T) (n p c x r : loc).

Lemma to_tree_Some_intro fuel h this nd (ts : list (tree T)) :
  h !! this = Some nd ->
  Forall2 (fun c t => to_tree fuel h c = Some t) (children nd) ts ->
  to_tree (S fuel) h this = Some (TNode (model nd) ts).
Proof.
  intros E Hts. simpl. rewrite E. simpl.
  apply mapM_Some in Hts. now rewrite Hts.
Qed.

Lemma rebuilt_shape payload h0 L h' fuel : forall this (t : tree T),
  to_tree fuel h0 this = Some t ->
  forall par r, rebuilt payload h0 L h' this par r ->
  exists t', to_tree fuel h' r = Some t' /\ tree_shape t' = tree_shape t.
Proof.
  induction fuel as [|fuel IH]; intros this t Ht par r Hr; [done|].
  apply to_tree_Some_inv in Ht as (fuel' & od & ts & [= <-] & E0 & Hts & ->).
  destruct Hr as [this par r od' nd hc HL E0' E1 _ _ _ Hcs].
  assert (od' = od) as -> by congruence.
  assert (exists ts', Forall2 (fun c t => to_tree fuel h' c = Some t) (children nd) ts' /\
                      map tree_shape ts' = map tree_shape ts) as (ts' & Hts' & Hsh).
  { clear E0 E0' E1. revert Hcs. generalize (children nd).
    induction Hts as [|c t cs ts Hc Hts IHl]; intros cs' Hcs.
    - apply Forall2_nil_inv_l in Hcs as ->. exists []. split; [constructor|done].
    - apply Forall2_cons_inv_l in Hcs as (c' & cs'' & Hc' & Hcs' & ->).
      destruct (IH _ _ Hc _ _ Hc') as (t' & Ht' & Hs).
      destruct (IHl _ Hcs') as (ts' & Hts' & Hss).
      exists (t' :: ts'). split; [now constructor|]. simpl. congruence. }
  exists (TNode (model nd) ts'). split; [now apply to_tree_Some_intro|].
  simpl. now rewrite Hsh.
Qed.
End RebuiltShape.

(** C5.  On the fixture [1 -> {11 -> {111, 112}, 12}], [flatten] gives
    the payloads in the orders 1, 11, 12, 111, 112 (breadth),
    1, 11, 111, 112, 12 (pre) and 111, 112, 11, 12, 1 (post). *)
Theorem fixture_traversals (k : nat) :
  parse fixture [] = Ret 0 fixture_store /\
  mapModel (6 + k) fixture_store 0 StrategyBreadth
    = Some ["1"; "11"; "12"; "111"; "112"] /\
  mapModel (6 + k) fixture_store 0 StrategyPre
    = Some ["1"; "11"; "111"; "112"; "12"] /\
  mapModel (6 + k) fixture_store 0 StrategyPost
    = Some ["111"; "112"; "11"; "12"; "1"].
Proof. repeat split. Qed.

(** C6.  [mapAsync] returns a tree of the same shape whose payloads are
    the callback's results on the original node and the new parent, the
    new parent holding its payload when the callback runs; on the
    fixture with the callback [model + "-" + (parent's model or "null")]
    the payloads in breadth order are 1-null, 11-1-null, 12-1-null,
    111-11-1-null, 112-11-1-null. *)
Theorem mapAsync_rebuilds :
  (forall T (h : heap T) callback fuel this t,
     to_tree fuel h this = Some t ->
     exists r h' t',
       mapAsync fuel callback this None h = Ret r h' /\
       h `prefix_of` h' /\
       rebuilt (fun n q hc => Some (callback n q hc)) h (length h) h' this None r /\
       to_tree fuel h' r = Some t' /\ tree_shape t' = tree_shape t) /\
  (forall k, exists r h',
     mapAsync (3 + k) dash_callback 0 None fixture_store = Ret r h' /\
     mapModel (6 + k) h' r StrategyBreadth
       = Some ["1-null"; "11-1-null"; "12-1-null"; "111-11-1-null"; "112-11-1-null"]).
Proof.
  split.
  - intros T h callback fuel this t Ht.
    assert (forall n (q : option loc) hc,
              h `prefix_of` hc -> is_Some (h !! n) -> is_Some (Some (callback n q hc)))
      as Htot by eauto.
    destruct (rebuild_spec (fun n q h => Some (callback n q h)) h Htot fuel this None h t Ht)
      as (r & h' & E & -> & Hpre & _ & _ & Hreb & _); [done|done|].
    destruct (rebuilt_shape _ _ _ _ _ _ _ Ht _ _ Hreb) as (t' & Ht' & Hsh).
    exists (length h), h', t'. rewrite (mapAsync_rebuild _ _ _ None). done.
  - intros k. eexists _, _. split; reflexivity.
Qed.

Lemma mapAsync_rebuilds_witness :
  exists r h' t',
    mapAsync 3 dash_callback 0 None fixture_store = Ret r h' /\
    fixture_store `prefix_of` h' /\
    rebuilt (fun n q hc => Some (dash_callback n q hc)) fixture_store
            (length fixture_store) h' 0 None r /\
    to_tree 3 h' r = Some t' /\
    tree_shape t' =
    tree_shape (TNode "1" [TNode "11" [TNode "111" []; TNode "112" []]; TNode "12" []]).
Proof.
  exact (proj1 mapAsync_rebuilds string fixture_store dash_callback 3 0 _ eq_refl).
Defined.

(** * Path keys *)

Lemma pathKey_fold idxs parts zeroCount :
  (0 <= zeroCount)%Z ->
  (let '(parts, zeroCount) := fold_left pathKey_step idxs (parts, zeroCount) in
   if (0 <? zeroCount)%Z then parts ++ [zeroCount] else parts)
  = parts ++ pathKey_run zeroCount idxs.
Proof.
  revert parts zeroCount. induction idxs as [|idx rest IH]; intros parts zc Hzc; simpl.
  - destruct (0 <? zc)%Z; [done|now rewrite app_nil_r].
  - destruct (idx =? 0) eqn:E0.
    + apply IH. lia.
    + destruct (0 <? zc)%Z eqn:Ez.
      * rewrite IH by done. now rewrite <- !app_assoc.
      * apply Z.ltb_ge in Ez. assert (zc = 0%Z) as -> by lia.
        rewrite IH by done. now rewrite <- !app_assoc.
Qed.

Lemma pathKey_parts_run idxs : pathKey_parts idxs = pathKey_run 0 idxs.
Proof. unfold pathKey_parts. now rewrite pathKey_fold. Qed.

Lemma pathKey_run_rle idxs : forall zc,
  rle (replicate zc 0 ++ idxs) (pathKey_run (Z.of_nat zc) idxs).
Proof.
  induction idxs as [|idx rest IH]; intros zc; simpl.
  - destruct zc as [|zc].
    + simpl. constructor.
    + replace (0 <? Z.of_nat (S zc))%Z with true by (symmetry; apply Z.ltb_lt; lia).
      rewrite app_nil_r. rewrite <- (app_nil_r (replicate (S zc) 0)).
      apply (rle_run (S zc) []); [lia|done|constructor].
  - destruct idx as [|k]; simpl.
    + replace (Z.of_nat zc + 1)%Z with (Z.of_nat (S zc)) by lia.
      replace (replicate zc 0 ++ 0 :: rest) with (replicate (S zc) 0 ++ rest).
      { apply IH. }
      rewrite replicate_S_end, <- app_assoc. done.
    + pose proof (IH 0) as IH0. simpl in IH0.
      destruct zc as [|zc].
      * simpl. change (Z.neg (Pos.of_succ_nat k)) with (- Z.of_nat (S k))%Z.
        apply rle_idx; [lia|done].
      * replace (0 <? Z.of_nat (S zc))%Z with true by (symmetry; apply Z.ltb_lt; lia).
        apply (rle_run (S zc) (S k :: rest)); [lia|done|].
        change (Z.neg (Pos.of_succ_nat k)) with (- Z.of_nat (S k))%Z.
        apply rle_idx; [lia|done].
Qed.

Lemma pathKey_parts_rle idxs : rle idxs (pathKey_parts idxs).
Proof. rewrite pathKey_parts_run. apply (pathKey_run_rle idxs 0). Qed.

Lemma replicate_app_head_inj (n n' : nat) (l l' : list nat) :
  head l <> Some 0 -> head l' <> Some 0 ->
  replicate n 0 ++ l = replicate n' 0 ++ l' -> n = n' /\ l = l'.
Proof.
  revert n'. induction n as [|n IH]; intros [|n'] Hl Hl' E; simpl in *.
  - done.
  - subst l. done.
  - subst l'. done.
  - injection E as E. destruct (IH n' Hl Hl' E) as [-> ->]. done.
Qed.

Lemma rle_functional idxs toks1 toks2 : rle idxs toks1 -> rle idxs toks2 -> toks1 = toks2.
Proof.
  intros H1. revert toks2. induction H1 as [|n rest toks Hn Hh H1 IH|k rest toks Hk H1 IH];
    intros toks2 H2.
  - inversion H2 as [|n' rest' toks' Hn' Hh' H2' E|]; [done|].
    destruct n'; [lia|done].
  - inversion H2 as [E|n' rest' toks' Hn' Hh' H2' E|k' rest' toks' Hk' H2' E].
    + destruct n; [lia|done].
    + apply replicate_app_head_inj in E as [-> ->]; [|done..].
      f_equal. now apply IH.
    + destruct n; [lia|]. simpl in E. injection E as E _. lia.
  - inversion H2 as [|n' rest' toks' Hn' Hh' H2' E|k' rest' toks' Hk' H2' E].
    + destruct n'; [lia|]. simpl in E. injection E as E _. lia.
    + subst. f_equal. now apply IH.
Qed.

Lemma indices_root {T} fuel (h : heap T) this nd :
  h !! this = Some nd -> parent nd = None -> indices (S fuel) h this = Some [].
Proof. intros E Hp. unfold indices. simpl. rewrite E. simpl. now rewrite Hp. Qed.

(** C4.  [pathKey] is the run-length encoding of [indices]: the tokens
    of [rle], printed in decimal and joined with commas.  Every sequence
    of indices has such tokens; a root has the empty key; and
    [0,0,0,1,0,0] has the key ["3,-1,2"]. *)
Theorem pathKey_run_length T (h : heap T) :
  (forall fuel this idxs toks,
     indices fuel h this = Some idxs -> rle idxs toks ->
     pathKey fuel h this = Some (String.concat "," (number_to_string <$> toks))) /\
  (forall idxs, exists toks, rle idxs toks) /\
  (forall fuel this nd,
     h !! this = Some nd -> parent nd = None -> pathKey (S fuel) h this = Some EmptyString) /\
  pathKey_of [0; 0; 0; 1; 0; 0] = "3,-1,2".
Proof.
  repeat split.
  - intros fuel this idxs toks Hi Hr. unfold pathKey. rewrite Hi. simpl. f_equal.
    rewrite (rle_functional _ _ _ Hr (pathKey_parts_rle idxs)).
    unfold pathKey_of. destruct idxs; [|done]. done.
  - intros idxs. exists (pathKey_parts idxs). apply pathKey_parts_rle.
  - intros fuel this nd E Hp. unfold pathKey. now rewrite (indices_root _ _ _ _ E Hp).
Qed.

Lemma pathKey_run_length_witness :
  pathKey 3 fixture_store 3 = Some (String.concat "," (number_to_string <$> [1%Z; (-1)%Z])).
Proof.
  refine (proj1 (pathKey_run_length string fixture_store) 3 3 [0; 1] [1%Z; (-1)%Z] eq_refl _).
  apply (rle_run 1 [1] [(-1)%Z]); [lia|done|].
  apply (rle_idx 1 [] []); [lia|constructor].
Defined.

(** ** Decoding a path key *)

Lemma split_comma_nonnil s : split_comma s <> [].
Proof.
  destruct s as [|c s]; simpl; [done|].
  destruct (Ascii.eqb c ","); [done|]. destruct (split_comma s); done.
Qed.

Lemma split_comma_no_comma s : no_comma s = true -> split_comma s = [s].
Proof.
  induction s as [|c s IH]; simpl; [done|].
  intros [Hc Hs]%andb_prop. apply negb_true_iff in Hc. rewrite Hc.
  now rewrite (IH Hs).
Qed.

Lemma split_comma_app s t :
  no_comma s = true ->
  split_comma (String.append s (String "," t)) = s :: split_comma t.
Proof.
  induction s as [|c s IH]; simpl; [done|].
  intros [Hc Hs]%andb_prop. apply negb_true_iff in Hc. rewrite Hc.
  now rewrite (IH Hs).
Qed.

Lemma split_comma_concat s ss :
  Forall (fun x => no_comma x = true) (s :: ss) ->
  split_comma (String.concat "," (s :: ss)) = s :: ss.
Proof.
  revert s. induction ss as [|s' ss IH]; intros s Hall.
  - simpl. apply split_comma_no_comma. now inversion Hall.
  - inversion Hall as [|? ? Hs Hrest]; subst.
    change (String.concat "," (s :: s' :: ss))
      with (String.append s (String "," (String.concat "," (s' :: ss)))).
    rewrite split_comma_app by done. now rewrite IH.
Qed.

Lemma uint_no_comma d : no_comma (NilEmpty.string_of_uint d) = true.
Proof. induction d; simpl; done. Qed.

Lemma number_to_string_no_comma z : no_comma (number_to_string z) = true.
Proof.
  unfold number_to_string. destruct z as [|p|p]; simpl; [done| |].
  - unfold NilZero.string_of_uint. destruct (Pos.to_uint p); try done;
      apply (uint_no_comma (_ _)).
  - unfold NilZero.string_of_uint. destruct (Pos.to_uint p); try done;
      apply (uint_no_comma (_ _)).
Qed.

Lemma number_to_string_nonempty z : number_to_string z <> EmptyString.
Proof.
  unfold number_to_string. destruct z as [|p|p]; simpl; [done| |done].
  unfold NilZero.string_of_uint. destruct (Pos.to_uint p); done.
Qed.

Lemma Number_number_to_string z : Number (number_to_string z) = Some z.
Proof.
  unfold Number. pose proof (number_to_string_nonempty z) as Hne.
  destruct (number_to_string z) as [|c s] eqn:E; [done|]. rewrite <- E.
  unfold number_to_string. rewrite NilZero.isi.
  - simpl. now rewrite DecimalZ.of_to.
  - destruct z; simpl; try done. intros [= H]. now apply Unsigned.to_uint_nonnil in H.
  - destruct z; simpl; try done. intros [= H]. now apply Unsigned.to_uint_nonnil in H.
Qed.

Lemma concat_nonempty s ss :
  s <> EmptyString -> String.concat "," (s :: ss) <> EmptyString.
Proof. destruct s; [done|]. destruct ss; done. Qed.

Lemma rle_expand idxs toks :
  rle idxs toks ->
  concat (expand_part <$> (Some <$> toks)) = (fun i => Some (Z.of_nat i)) <$> idxs.
Proof.
  induction 1 as [|n rest toks Hn Hh H IH|k rest toks Hk H IH]; [done| |].
  - rewrite !fmap_cons, fmap_app. cbn [concat expand_part]. rewrite IH.
    replace (0 <=? Z.of_nat n)%Z with true by (symmetry; apply Z.leb_le; lia).
    rewrite Nat2Z.id. f_equal.
    clear. induction n; simpl; [done|now f_equal].
  - rewrite !fmap_cons. cbn [concat expand_part]. rewrite IH.
    replace (0 <=? - Z.of_nat k)%Z with false by (symmetry; apply Z.leb_gt; lia).
    rewrite Z.opp_involutive. done.
Qed.

Lemma rle_nonnil idxs toks : rle idxs toks -> idxs <> [] -> toks <> [].
Proof. destruct 1; done. Qed.

Lemma Number_fmap (toks : list Z) : Number <$> (number_to_string <$> toks) = Some <$> toks.
Proof.
  induction toks as [|z toks IH]; [done|].
  rewrite !fmap_cons, IH. now rewrite Number_number_to_string.
Qed.

Lemma split_comma_numbers (toks : list Z) :
  toks <> [] ->
  split_comma (String.concat "," (number_to_string <$> toks)) = number_to_string <$> toks.
Proof.
  destruct toks as [|z toks]; [done|]. intros _. rewrite fmap_cons.
  apply split_comma_concat. rewrite <- fmap_cons.
  apply Forall_fmap, Forall_forall. intros x _. apply number_to_string_no_comma.
Qed.

Lemma fetchByPathKey_pathKey_of {T} (h : heap T) this idxs :
  idxs <> [] ->
  fetchByPathKey h this (pathKey_of idxs)
  = fetch h this ((fun i => Some (Z.of_nat i)) <$> idxs).
Proof.
  intros Hne. unfold fetchByPathKey, pathKey_of.
  destruct idxs as [|i idxs]; [done|].
  change (length (i :: idxs) =? 0) with false. cbv iota.
  pose proof (pathKey_parts_rle (i :: idxs)) as Hr.
  pose proof (rle_nonnil _ _ Hr Hne) as Hp.
  rewrite split_comma_numbers by done. rewrite Number_fmap.
  rewrite (rle_expand _ _ Hr).
  destruct (String.eqb_spec
              (String.concat "," (number_to_string <$> pathKey_parts (i :: idxs)))
              EmptyString)
    as [E|_]; [|done].
  exfalso. revert E. destruct (pathKey_parts (i :: idxs)) as [|z toks]; [done|].
  apply concat_nonempty, number_to_string_nonempty.
Qed.

(** ** Reaching a node from the root *)

Section Paths.
Context {T : Type}.
Implicit Types (h : heap T) (nd : node T) (n p c x r : loc).

Lemma indices_loop_acc fuel h n acc :
  indices_loop fuel h n acc = (acc ++.) <$> indices_loop fuel h n [].
Proof.
  revert n acc. induction fuel as [|fuel IH]; intros n acc; [done|].
  simpl. destruct (h !! n) as [nd|]; [|done]. simpl.
  destruct (parent nd) as [p|].
  - rewrite (IH p (acc ++ [index nd])), (IH p [index nd]).
    destruct (indices_loop fuel h p []); [|done]. simpl. now rewrite <- app_assoc.
  - simpl. now rewrite app_nil_r.
Qed.

Lemma indices_child fuel h c cd p idxs :
  h !! c = Some cd -> parent cd = Some p ->
  indices fuel h p = Some idxs ->
  indices (S fuel) h c = Some (idxs ++ [index cd]).
Proof.
  intros Ec Hp. unfold indices. simpl. rewrite Ec. simpl. rewrite Hp.
  rewrite (indices_loop_acc fuel h p [index cd]).
  destruct (indices_loop fuel h p []) as [l|]; [|done]. simpl.
  intros [= <-]. simpl. now rewrite reverse_cons.
Qed.

Lemma fetch_app h r l1 l2 m :
  fetch h r l1 = Some (Some m) -> fetch h r (l1 ++ l2) = fetch h m l2.
Proof.
  revert r. induction l1 as [|i l1 IH]; intros r; simpl.
  - now intros [= ->].
  - destruct (h !! r) as [nd|]; [|done]. simpl.
    destruct (i ≫= at_number (children nd)); [apply IH|done].
Qed.

Lemma descendant_path h root rd n :
  owned h -> h !! root = Some rd -> parent rd = None ->
  descendant h root n ->
  exists idxs, indices (S (length idxs)) h n = Some idxs /\
               fetch h root ((fun i => Some (Z.of_nat i)) <$> idxs) = Some (Some n).
Proof.
  intros Hown Er Hp. induction 1 as [|p pd c Hd IH Ep Hc].
  - exists []. split; [|done]. now apply (indices_root _ _ _ rd).
  - destruct IH as (idxs & Hi & Hf).
    apply list_elem_of_lookup in Hc as [i Hi'].
    destruct (Hown _ _ _ _ Ep Hi') as (cd & Ec & Hpc & Hic).
    exists (idxs ++ [i]). split.
    + rewrite length_app. simpl. rewrite Nat.add_1_r.
      rewrite <- Hic. now apply (indices_child _ _ _ _ p).
    + rewrite fmap_app. rewrite (fetch_app _ _ _ _ _ Hf). simpl.
      rewrite Ep. simpl. unfold at_number.
      replace (Z.of_nat i <? 0)%Z with false by (symmetry; apply Z.ltb_ge; lia).
      rewrite Nat2Z.id, Hi'. done.
Qed.
End Paths.

(** C3.  [root.fetchByPathKey(n.pathKey)] is [n], for every descendant
    [n] of a root in a store where listed children are owned; for the
    root itself the key is the empty string. *)
Theorem fetchByPathKey_inverts_pathKey T (h : heap T) root rd n :
  owned h -> h !! root = Some rd -> parent rd = None ->
  descendant h root n ->
  exists fuel key,
    pathKey fuel h n = Some key /\ fetchByPathKey h root key = Some (Some n).
Proof.
  intros Hown Er Hp Hd.
  destruct (descendant_path h root rd n Hown Er Hp Hd) as (idxs & Hi & Hf).
  exists (S (length idxs)), (pathKey_of idxs). split.
  - unfold pathKey. now rewrite Hi.
  - destruct idxs as [|i idxs].
    + simpl in Hf. injection Hf as <-. done.
    + now rewrite fetchByPathKey_pathKey_of.
Qed.

Lemma fetchByPathKey_inverts_pathKey_witness :
  exists fuel key,
    pathKey fuel fixture_store 3 = Some key /\
    fetchByPathKey fixture_store 0 key = Some (Some 3).
Proof.
  refine (fetchByPathKey_inverts_pathKey string fixture_store 0 _ 3
            (proj2 fixture_forest) eq_refl eq_refl _).
  apply (descendant_child _ _ 1 (Node "11" (Some 0) [2; 3] 0)); [|done|].
  - apply (descendant_child _ _ 0 (Node "1" None [1; 4] 0)); [constructor|done|].
    apply list_elem_of_In. simpl. tauto.
  - apply list_elem_of_In. simpl. tauto.
Defined.

(** * The nested-array form on shapes *)

Section TreeInd.
Context {T : Type}.

Lemma tree_ind' (P : tree T -> Prop) :
  (forall m ts, Forall P ts -> P (TNode m ts)) -> forall t, P t.
Proof.
  intros H. fix IH 1. intros [m ts]. apply H.
  induction ts as [|t ts IHts]; constructor; [apply IH|exact IHts].
Qed.
End TreeInd.

Section Pure.
Context {A : Type}.
Abbreviation V := (jsval A).
Implicit Types (t : tree V) (ts : list (tree V)).

Lemma encode_chain t :
  is_chain t = true -> plain t = true ->
  encode t = (if is_leaf t then tmodel t else Array (chain_models t)) /\
  existsb isArray (chain_models t) = false /\
  chain_tree (chain_models t) = [t].
Proof.
  induction t as [m ts IH] using tree_ind'. intros Hc Hp.
  destruct ts as [|c [|c' ts]]; [| |done].
  - simpl in *. apply andb_prop in Hp as [Hm _]. apply negb_true_iff in Hm.
    now rewrite Hm.
  - apply Forall_cons in IH as [IHc _]. simpl in Hc.
    simpl in Hp. apply andb_prop in Hp as [Hm Hp]. apply negb_true_iff in Hm.
    rewrite andb_true_r in Hp. destruct (IHc Hc Hp) as (He & Hx & Ht).
    cbn [encode chain_models is_leaf tchildren]. rewrite He. repeat split.
    + destruct c as [mc [|? ?]]; simpl.
      * simpl in Hp. apply andb_prop in Hp as [Hmc _]. destruct mc; done.
      * done.
    + cbn [existsb]. now rewrite Hm, Hx.
    + cbn [chain_tree]. now rewrite Ht.
Qed.

Lemma encode_nonleaf_is_array t : is_leaf t = false -> isArray (encode t) = true.
Proof.
  destruct t as [m [|c [|c' ts]]]; [done| |].
  - intros _. simpl. destruct (encode c); done.
  - intros _. cbn [encode]. destruct (forallb is_leaf (c :: c' :: ts)); done.
Qed.

Lemma encode_leaf t : is_leaf t = true -> encode t = tmodel t.
Proof. destruct t as [m [|c ts]]; done. Qed.

Lemma plain_leaf_not_array t : plain t = true -> is_leaf t = true -> isArray (encode t) = false.
Proof.
  intros Hp Hl. rewrite encode_leaf by done. destruct t as [m ts]. simpl in *.
  apply andb_prop in Hp as [Hm _]. now apply negb_true_iff in Hm.
Qed.

Lemma leaves_map (ts : list (tree V)) :
  forallb is_leaf ts = true -> map (fun leaf => TNode leaf []) (map tmodel ts) = ts.
Proof.
  induction ts as [|[m [|? ?]] ts IH]; simpl; [done| |done].
  intros H. now rewrite IH.
Qed.

Lemma leaves_not_array (ts : list (tree V)) :
  forallb plain ts = true -> existsb isArray (map tmodel ts) = false.
Proof.
  induction ts as [|[m cs] ts IH]; simpl; [done|].
  intros [[Hm _]%andb_prop Hts]%andb_prop. apply negb_true_iff in Hm.
  now rewrite Hm, IH.
Qed.

Lemma encode_some_array (ts : list (tree V)) :
  forallb is_leaf ts = false -> existsb isArray (map encode ts) = true.
Proof.
  induction ts as [|t ts IH]; simpl; [done|].
  destruct (is_leaf t) eqn:El; simpl.
  - intros H. rewrite (IH H). apply orb_true_r.
  - intros _. now rewrite encode_nonleaf_is_array.
Qed.

Lemma decode_encode t :
  plain t = true -> unary_chains t = true -> decode (encode t) = t.
Proof.
  induction t as [m ts IH] using tree_ind'. intros Hp Hu.
  pose proof Hp as Hp'. simpl in Hp'. apply andb_prop in Hp' as [Hm Hps].
  apply negb_true_iff in Hm.
  destruct ts as [|c [|c' ts]].
  - simpl. destruct m; done.
  - simpl in Hu. simpl in Hps. rewrite andb_true_r in Hps.
    destruct (encode_chain c Hu Hps) as (He & Hx & Ht).
    cbn [encode]. rewrite He. destruct (is_leaf c) eqn:El.
    + destruct c as [mc [|? ?]]; [|done]. simpl in *.
      apply andb_prop in Hps as [Hmc _]. apply negb_true_iff in Hmc.
      destruct mc; try done; simpl; now rewrite ?Hm.
    + destruct c as [mc [|c2 [|? ?]]]; [done| |done].
      cbn [chain_models] in *. cbn [chain_tree] in Ht.
      remember (chain_models c2) as l eqn:El2.
      destruct l as [|x l]; [destruct c2 as [? [|? [|? ?]]]; done|].
      cbn [existsb] in Hx. apply orb_false_elim in Hx as [Hmc Hx].
      cbn [decode]. destruct mc; try done; cbn [existsb isArray orb negb];
        rewrite Hx; cbn [negb chain_tree]; cbn [chain_tree] in Ht; now rewrite Ht.
  - cbn [encode]. destruct (forallb is_leaf (c :: c' :: ts)) eqn:El.
    + cbn [decode]. rewrite leaves_not_array by done. cbn [negb].
      now rewrite leaves_map.
    + assert (map decode (map encode (c :: c' :: ts)) = c :: c' :: ts) as Hmap.
      { cbn [unary_chains] in Hu. revert IH Hps Hu. generalize (c :: c' :: ts).
        intros l IH Hps Hu. induction l as [|t l IHl]; [done|].
        apply Forall_cons in IH as [IHt IH]. simpl in Hps, Hu.
        apply andb_prop in Hps as [Hpt Hps]. apply andb_prop in Hu as [Hut Hu].
        simpl. rewrite IHt by done. now rewrite IHl. }
      pose proof (encode_some_array _ El) as Harr.
      remember (map encode (c :: c' :: ts)) as l eqn:Hl.
      destruct l as [|r0 [|r1 l]]; [done|done|].
      cbn [decode]. destruct r0; rewrite Harr; cbn [negb]; now rewrite Hmap.
Qed.
End Pure.

(** * Shapes in the store *)

Section TreeAt.
Context {T : Type}.
Implicit Types (h : heap T) (nd : node T) (n p c x r : loc) (t : tree T).

Lemma tree_at_inv L h r m ts :
  tree_at L h r (TNode m ts) ->
  L <= r /\ exists nd, h !! r = Some nd /\ model nd = m /\
                       Forall2 (tree_at L h) (children nd) ts.
Proof. inversion 1; subst. eauto 10. Qed.

Lemma Forall2_Forall_impl {X Y} (P Q : X -> Y -> Prop) (l : list X) (k : list Y) :
  Forall (fun b => forall a, P a b -> Q a b) k ->
  Forall2 P l k -> Forall2 Q l k.
Proof.
  intros HF H2. induction H2 as [|a b l k Hab H2 IH]; [constructor|].
  apply Forall_cons in HF as [Hb HF]. constructor; auto.
Qed.

Lemma tree_at_frame L L' h1 h2 t : forall r,
  L' <= L ->
  (forall x nd, L <= x -> h1 !! x = Some nd ->
     exists nd', h2 !! x = Some nd' /\ model nd' = model nd /\
                 children nd' = children nd) ->
  tree_at L h1 r t -> tree_at L' h2 r t.
Proof.
  induction t as [m ts IH] using tree_ind'. intros r HL Hfr H.
  apply tree_at_inv in H as (Hr & nd & E & <- & Hcs).
  destruct (Hfr _ _ Hr E) as (nd' & E' & Hm & Hc). rewrite <- Hm.
  apply tree_at_node; [lia|done|]. rewrite Hc.
  eapply Forall2_Forall_impl; [|exact Hcs].
  eapply Forall_impl; [exact IH|]. intros t Ht c Hc'. now apply Ht.
Qed.

Lemma tree_at_prefix L h1 h2 r t :
  h1 `prefix_of` h2 -> tree_at L h1 r t -> tree_at L h2 r t.
Proof.
  intros Hpre. apply tree_at_frame; [done|].
  intros x nd _ E. exists nd. split; [|done]. eapply prefix_lookup_Some; eauto.
Qed.

Lemma to_tree_tree_at fuel h : forall r t,
  to_tree fuel h r = Some t -> tree_at 0 h r t.
Proof.
  induction fuel as [|fuel IH]; intros r t Ht; [done|].
  apply to_tree_Some_inv in Ht as (fuel' & nd & ts & [= <-] & E & Hts & ->).
  apply tree_at_node; [lia|done|].
  eapply Forall2_impl; [exact Hts|]. intros c t. apply IH.
Qed.

Lemma tree_at_to_tree L h t : forall r fuel,
  tree_at L h r t -> theight t <= fuel -> to_tree fuel h r = Some t.
Proof.
  induction t as [m ts IH] using tree_ind'. intros r fuel H Hf.
  apply tree_at_inv in H as (Hr & nd & E & <- & Hcs).
  destruct fuel as [|fuel]; [simpl in Hf; lia|].
  apply to_tree_Some_intro; [done|]. simpl in Hf. apply le_S_n in Hf.
  revert Hf. induction Hcs as [|c t cs ts Hc Hcs IHl]; intros Hf; [constructor|].
  apply Forall_cons in IH as [IHt IH]. simpl in Hf. constructor.
  - apply IHt; [done|lia].
  - apply IHl; [done|lia].
Qed.

Lemma tree_at_functional L L' h t : forall r t',
  tree_at L h r t -> tree_at L' h r t' -> t = t'.
Proof.
  induction t as [m ts IH] using tree_ind'. intros r [m' ts'] H H'.
  apply tree_at_inv in H as (_ & nd & E & <- & Hcs).
  apply tree_at_inv in H' as (_ & nd' & E' & <- & Hcs').
  assert (nd' = nd) as -> by congruence. f_equal.
  revert ts' Hcs'. induction Hcs as [|c t cs ts Hc Hcs IHl]; intros ts' Hcs'.
  - now apply Forall2_nil_inv_l in Hcs'.
  - apply Forall2_cons_inv_l in Hcs' as (t' & ts'' & Hc' & Hcs'' & ->).
    apply Forall_cons in IH as [IHt IH]. f_equal; [eapply IHt; eauto|].
    now apply IHl.
Qed.

Lemma to_tree_functional fuel fuel' h r t t' :
  to_tree fuel h r = Some t -> to_tree fuel' h r = Some t' -> t = t'.
Proof.
  intros H H'. apply to_tree_tree_at in H, H'. eapply tree_at_functional; eauto.
Qed.
End TreeAt.

(** * [toNestedArray] computes [encode] *)

Section Encode.
Context {A : Type}.
Implicit Types (h : heap (jsval A)) (t : tree (jsval A)).

Lemma toNestedArray_encode fuel h : forall this t,
  to_tree fuel h this = Some t -> toNestedArray fuel h this = Some (encode t).
Proof.
  induction fuel as [|fuel IH]; intros this t Ht; [done|].
  apply to_tree_Some_inv in Ht as (fuel' & nd & ts & [= <-] & E & Hts & ->).
  pose proof (Forall2_length _ _ _ Hts) as Hlen.
  cbn [toNestedArray]. rewrite E. cbn [mbind option_bind].
  destruct (children nd) as [|c [|c' cs]] eqn:Ecs.
  - destruct ts; [|done]. done.
  - destruct ts as [|t [|? ?]]; [done| |done].
    apply Forall2_cons_1 in Hts as [Hc _]. cbn [length Nat.ltb Nat.leb negb Nat.eqb].
    cbn [lookup list_lookup mbind option_bind].
    rewrite (IH _ _ Hc). cbn [mbind option_bind encode]. now destruct (encode t).
  - destruct ts as [|t [|t' ts]]; [done|done|].
    change (negb (0 <? length (c :: c' :: cs))) with false.
    change (length (c :: c' :: cs) =? 1) with false. cbv iota.
    assert (mapM (fun c => n ← h !! c; Some (negb (0 <? length (children n))))
              (c :: c' :: cs) = Some (map is_leaf (t :: t' :: ts))) as ->.
    { apply mapM_Some. revert Hts. generalize (c :: c' :: cs) (t :: t' :: ts).
      intros l1 l2 Hts. induction Hts as [|a b l1 l2 Hxy Hts IHl]; [constructor|].
      simpl. constructor; [|done].
      apply to_tree_Some_inv in Hxy as (f' & xd & ys & _ & Ex & Hys & ->).
      rewrite Ex. simpl. f_equal. apply Forall2_length in Hys.
      unfold is_leaf. simpl. destruct (children xd), ys; done. }
    cbn [mbind option_bind].
    assert (forallb id (map is_leaf (t :: t' :: ts)) = forallb is_leaf (t :: t' :: ts))
      as -> by (generalize (t :: t' :: ts); intros l; induction l; simpl; congruence).
    cbn [encode]. destruct (forallb is_leaf (t :: t' :: ts)).
    + assert (mapM (fun c => model <$> h !! c) (c :: c' :: cs)
              = Some (map tmodel (t :: t' :: ts))) as ->.
      { apply mapM_Some. revert Hts. generalize (c :: c' :: cs) (t :: t' :: ts).
        intros l1 l2 Hts. induction Hts as [|a b l1 l2 Hxy Hts IHl]; [constructor|].
        simpl. constructor; [|done].
        apply to_tree_Some_inv in Hxy as (f' & xd & ys & _ & Ex & Hys & ->).
        now rewrite Ex. }
      done.
    + assert (mapM (toNestedArray fuel h) (c :: c' :: cs)
              = Some (map encode (t :: t' :: ts))) as ->.
      { apply mapM_Some. revert Hts. generalize (c :: c' :: cs) (t :: t' :: ts).
        intros l1 l2 Hts. induction Hts as [|a b l1 l2 Hxy Hts IHl]; [constructor|].
        simpl. constructor; [|done]. now apply IH. }
      done.
Qed.
End Encode.

(** * Building a tree with [add] *)

Section Builders.
Context {T : Type}.
Implicit Types (h : heap T) (nd : node T) (n p c x r : loc) (t : tree T).

Lemma prefix_of_lookups h h' :
  (forall i nd, h !! i = Some nd -> h' !! i = Some nd) -> h `prefix_of` h'.
Proof.
  intros H. exists (drop (length h) h'). apply list_eq. intros i.
  destruct (decide (i < length h)) as [Hlt|Hge].
  - rewrite lookup_app_l by done.
    destruct (lookup_lt_is_Some_2 _ _ Hlt) as [nd E]. rewrite E. now apply H.
  - rewrite lookup_app_r by lia. rewrite lookup_drop. f_equal. lia.
Qed.

Lemma building_tree_at L L' h n m ts :
  L' <= n -> L' <= L -> building L h n m ts -> tree_at L' h n (TNode m ts).
Proof.
  intros Hn HL (cell & E & <- & Hcs). apply tree_at_node; [done..|].
  eapply Forall2_impl; [exact Hcs|]. intros c t. now apply tree_at_frame; eauto.
Qed.

Lemma add_built L h n m ts c t :
  n < L -> building L h n m ts -> tree_at L h c t ->
  exists h', add n c None h = Ret c h' /\
    building L h' n m (ts ++ [t]) /\
    length h' = length h /\
    (forall x, x < n -> h' !! x = h !! x).
Proof.
  intros Hn (cell & E & Hm & Hcs) Hc.
  assert (L <= c /\ exists cd, h !! c = Some cd) as (HLc & cd & Ec).
  { destruct t. apply tree_at_inv in Hc as (? & ? & ? & _). eauto. }
  destruct (add_append_spec n c h cell cd E Ec) as (h' & Ea & W).
  assert (forall x a, L <= x -> h !! x = Some a ->
            exists a', h' !! x = Some a' /\ model a' = model a /\
                       children a' = children a) as Hfr.
  { intros x a Hx Ex. rewrite (relinked_lookup _ _ _ _ _ _ _ W Ex).
    eexists. split; [done|]. simpl. rewrite decide_False by lia. done. }
  exists h'. split; [done|]. split; [|split; [apply W|]].
  - unfold building. rewrite (relinked_lookup _ _ _ _ _ _ _ W E). eexists. split; [done|].
    split; [done|]. simpl. rewrite decide_True by done.
    apply Forall2_app.
    + eapply Forall2_impl; [exact Hcs|]. intros c' t'. now apply tree_at_frame.
    + constructor; [|constructor]. revert Hc. now apply tree_at_frame.
  - intros x Hx. destruct (h !! x) as [a|] eqn:Ex.
    + rewrite (relinked_lookup _ _ _ _ _ _ _ W Ex).
      rewrite !decide_False by lia. now destruct a.
    + exact (cells_rel_None _ _ _ _ W Ex).
Qed.

(** Attaching to [n] a child that a builder has just made at the end of
    the store. *)
Lemma attach_built h0 L hi h2 n m ts c t :
  n < L -> L <= length hi -> length h0 <= n -> h0 `prefix_of` hi ->
  building L hi n m ts ->
  hi `prefix_of` h2 -> tree_at (length hi) h2 c t ->
  exists h3, add n c None h2 = Ret c h3 /\
    building L h3 n m (ts ++ [t]) /\ h0 `prefix_of` h3 /\ L <= length h3.
Proof.
  intros Hn HL H0 Hpre0 (cell & E & Hm & Hcs) Hpre Hc.
  destruct (add_built L h2 n m ts c t) as (h3 & Ea & Hb & Hlen & Hold); [done| | |].
  { exists cell. split; [eapply prefix_lookup_Some; eauto|]. split; [done|].
    eapply Forall2_impl; [exact Hcs|]. intros c' t'. now apply tree_at_prefix. }
  { revert Hc. apply tree_at_frame; [done|]. eauto. }
  exists h3. split; [done|]. split; [done|]. split.
  - apply prefix_of_lookups. intros i a Ei.
    rewrite Hold by (apply lookup_lt_Some in Ei; lia).
    eapply prefix_lookup_Some; [|exact Hpre]. eapply prefix_lookup_Some; eauto.
  - apply prefix_length in Hpre. lia.
Qed.

Lemma new_TreeNode_tree_at (m : T) h :
  tree_at (length h) (h ++ [Node m None [] 0]) (length h) (TNode m []).
Proof.
  apply (tree_at_node _ _ _ (Node m None [] 0) []); [done| |constructor].
  now apply list_lookup_middle.
Qed.
End Builders.

Section Decode.
Context {A : Type}.
Abbreviation V := (jsval A).
Implicit Types (h : heap V) (n c x : loc) (v : V).

Lemma jsval_ind' (P : V -> Prop) :
  P Undefined -> (forall a, P (Scalar a)) ->
  (forall items, Forall P items -> P (Array items)) -> forall v, P v.
Proof.
  intros HU HS HA. fix IH 1. intros [|a|items]; [done|done|]. apply HA.
  induction items as [|v items IHi]; constructor; [apply IH|exact IHi].
Qed.

Lemma leaves_spec h0 L n m : forall inner hi ts,
  n < L -> L <= length hi -> length h0 <= n -> h0 `prefix_of` hi ->
  building L hi n m ts ->
  exists hf, for_of inner (fun leaf => addModel n leaf None ;;; ret tt) hi = Ret tt hf /\
    building L hf n m (ts ++ map (fun leaf => TNode leaf []) inner) /\
    h0 `prefix_of` hf.
Proof.
  induction inner as [|leaf inner IH]; intros hi ts Hn HL H0 Hpre Hb.
  - exists hi. rewrite app_nil_r. done.
  - simpl. unfold addModel, new_TreeNode at 1. rewrite !bind_assoc, bind_unfold.
    destruct (attach_built h0 L hi (hi ++ [Node leaf None [] 0]) n m ts (length hi)
                (TNode leaf [])) as (h3 & Ea & Hb3 & Hpre3 & HL3);
      [done..|now apply prefix_app_r|apply new_TreeNode_tree_at|].
    mstep Ea.
    destruct (IH h3 (ts ++ [TNode leaf []])) as (hf & Ef & Hbf & Hpref); [done..|].
    exists hf. split; [exact Ef|]. split; [|done].
    now rewrite <- app_assoc in Hbf.
Qed.

Lemma each_child_spec h0 L n m : forall rest,
  Forall builds rest -> forall hi ts,
  n < L -> L <= length hi -> length h0 <= n -> h0 `prefix_of` hi ->
  building L hi n m ts ->
  exists hf, each_child n rest hi = Ret tt hf /\
    building L hf n m (ts ++ map decode rest) /\ h0 `prefix_of` hf.
Proof.
  induction 1 as [|v rest Hv Hrest IH]; intros hi ts Hn HL H0 Hpre Hb.
  - exists hi. rewrite app_nil_r. done.
  - simpl. destruct (Hv hi) as (h2 & E2 & Hpre2 & Ht2). mstep E2.
    destruct (attach_built h0 L hi h2 n m ts (length hi) (decode v))
      as (h3 & Ea & Hb3 & Hpre3 & HL3); [done..|].
    mstep Ea.
    destruct (IH h3 (ts ++ [decode v])) as (hf & Ef & Hbf & Hpref); [done..|].
    exists hf. split; [done|]. split; [|done].
    now rewrite <- app_assoc in Hbf.
Qed.

Lemma chain_spec L : forall (vals : list V) (hi : heap V) cur (cell : node V),
  L <= cur -> hi !! cur = Some cell -> children cell = [] ->
  exists hf, chain cur vals hi = Ret tt hf /\
    tree_at L hf cur (TNode (model cell) (chain_tree vals)) /\
    (forall x, x < cur -> hf !! x = hi !! x).
Proof.
  induction vals as [|val vals IH]; intros hi cur cell HL E Hc.
  - exists hi. split; [done|]. split; [|done].
    apply tree_at_node; [done..|]. rewrite Hc. constructor.
  - simpl. unfold addModel, new_TreeNode at 1. rewrite !bind_assoc, bind_unfold.
    set (c := length hi). set (h2 := hi ++ [Node val None [] 0]).
    pose proof (lookup_lt_Some _ _ _ E) as Hcur.
    assert (h2 !! cur = Some cell) as E2 by (now apply lookup_app_l_Some).
    assert (h2 !! c = Some (Node val None [] 0)) as Ec2 by (now apply list_lookup_middle).
    destruct (add_append_spec cur c h2 cell _ E2 Ec2) as (h3 & Ea & W).
    mstep Ea.
    pose proof (relinked_lookup _ _ _ _ _ _ _ W Ec2) as Ec3. simpl in Ec3.
    repeat match type of Ec3 with
           | context [decide ?P] =>
               destruct (decide P); try (unfold c in *; lia); try done
           end.
    destruct (IH h3 c _ ltac:(unfold c; lia) Ec3 eq_refl) as (hf & Ef & Htf & Hold).
    exists hf. split; [exact Ef|].
    pose proof (relinked_lookup _ _ _ _ _ _ _ W E2) as Ecur3. simpl in Ecur3.
    repeat match type of Ecur3 with
           | context [decide ?P] =>
               destruct (decide P); try (unfold c in *; lia); try done
           end.
    split.
    + eapply (tree_at_node _ _ _ (Node (model cell) (parent cell) (children cell ++ [c]) (index cell))).
      * done.
      * rewrite Hold by (unfold c; lia). exact Ecur3.
      * simpl. rewrite Hc. simpl. constructor; [exact Htf|constructor].
    + intros x Hx. rewrite Hold by (unfold c; lia).
      destruct (hi !! x) as [a|] eqn:Ex.
      * assert (h2 !! x = Some a) as Ex2 by (now apply lookup_app_l_Some).
        rewrite (relinked_lookup _ _ _ _ _ _ _ W Ex2).
        rewrite !decide_False by (unfold c; lia). now destruct a.
      * apply lookup_ge_None in Ex. lia.
Qed.

Lemma fromNestedArray_rest h m rest :
  rest <> [] -> Forall builds rest ->
  let n := length h in
  let h1 := h ++ [Node m None [] 0] in
  exists h',
    (if negb (existsb isArray rest) then chain n rest ;;; ret n
     else each_child n rest ;;; ret n) h1 = Ret n h' /\
    h `prefix_of` h' /\
    tree_at n h' n (if negb (existsb isArray rest) then TNode m (chain_tree rest)
                    else TNode m (map decode rest)).
Proof.
  intros Hne Hrest n h1.
  assert (h1 !! n = Some (Node m None [] 0)) as En by (now apply list_lookup_middle).
  destruct (negb (existsb isArray rest)).
  - destruct (chain_spec n rest h1 n _ (le_n _) En eq_refl) as (hf & Ef & Htf & Hold).
    exists hf. mstep Ef. split; [done|]. split; [|done].
    apply prefix_of_lookups. intros i a Ei. pose proof (lookup_lt_Some _ _ _ Ei).
    rewrite Hold by done. now apply lookup_app_l_Some.
  - destruct (each_child_spec h (S n) n m rest Hrest h1 []) as (hf & Ef & Hbf & Hpref);
      [lia|unfold h1; rewrite length_app; simpl; lia|done|now apply prefix_app_r| |].
    { exists (Node m None [] 0). split; [done|]. split; [done|]. constructor. }
    exists hf. mstep Ef. split; [done|]. split; [done|].
    eapply building_tree_at; [done| |exact Hbf]. lia.
Qed.

Lemma fromNestedArray_builds v : builds v.
Proof.
  induction v as [|a|items IH] using jsval_ind'; intros h.
  - eexists. split; [reflexivity|]. split; [now apply prefix_app_r|].
    apply new_TreeNode_tree_at.
  - eexists. split; [reflexivity|]. split; [now apply prefix_app_r|].
    apply new_TreeNode_tree_at.
  - destruct items as [|m rest].
    { eexists. split; [reflexivity|]. split; [now apply prefix_app_r|].
      apply new_TreeNode_tree_at. }
    apply Forall_cons in IH as [_ IH].
    destruct rest as [|r0 rest'].
    { eexists. split; [reflexivity|]. split; [now apply prefix_app_r|].
      apply new_TreeNode_tree_at. }
    set (n := length h). set (h1 := h ++ [Node m None [] 0]).
    assert (h1 !! n = Some (Node m None [] 0)) as En by (now apply list_lookup_middle).
    assert (forall r0 rest',
      Forall builds (r0 :: rest') ->
      (forall inner, r0 = Array inner -> rest' <> []) ->
      exists h', fromNestedArray (Array (m :: r0 :: rest')) h = Ret n h' /\
        h `prefix_of` h' /\ tree_at n h' n (decode (Array (m :: r0 :: rest')))) as HB.
    { clear. intros r0 rest' IH Hr0.
      destruct (fromNestedArray_rest h m (r0 :: rest') ltac:(done) IH)
        as (h' & E & Hpre & Ht).
      exists h'. split; [|split; [done|]].
      - destruct r0 as [|a|inner]; [exact E|exact E|].
        destruct rest' as [|r1 rest'']; [now destruct (Hr0 inner)|exact E].
      - destruct r0 as [|a|inner]; [exact Ht|exact Ht|].
        destruct rest' as [|r1 rest'']; [now destruct (Hr0 inner)|exact Ht]. }
    destruct r0 as [|a|inner]; [apply HB; [done|done]..|].
    destruct rest' as [|r1 rest'']; [|apply HB; [done|done]].
    apply Forall_cons in IH as [IH0 _].
    cbn [fromNestedArray decode]. unfold new_TreeNode at 1. rewrite bind_unfold.
    fold n. fold h1.
    destruct (negb (existsb isArray inner)).
    + destruct (leaves_spec h (S n) n m inner h1 []) as (hf & Ef & Hbf & Hpref);
        [lia|unfold h1; rewrite length_app; simpl; lia|done|now apply prefix_app_r| |].
      { exists (Node m None [] 0). split; [done|]. split; [done|]. constructor. }
      exists hf. mstep Ef. split; [done|]. split; [done|].
      eapply building_tree_at; [done| |exact Hbf]. lia.
    + destruct (each_child_spec h (S n) n m [Array inner] ltac:(constructor; [done|constructor]) h1 [])
        as (hf & Ef & Hbf & Hpref);
        [lia|unfold h1; rewrite length_app; simpl; lia|done|now apply prefix_app_r| |].
      { exists (Node m None [] 0). split; [done|]. split; [done|]. constructor. }
      exists hf. split; [|split; [done|]].
      * assert ((let* c := fromNestedArray (Array inner) in add n c None ;;; ret tt) h1
                = Ret tt hf) as Ef' by exact Ef.
        now rewrite (bind_Ret _ _ _ _ _ Ef').
      * eapply building_tree_at; [done| |exact Hbf]. lia.
Qed.
End Decode.

(** * Round trips through the nested-array form *)

Section RoundTrip.
Context {A : Type}.
Implicit Types (h : heap (jsval A)) (t : tree (jsval A)).

Lemma is_chain_unary_chains t : is_chain t = true -> unary_chains t = true.
Proof. destruct t as [m [|c [|c' ts]]]; done. Qed.

Lemma leaves_unary_chains (ts : list (tree (jsval A))) :
  forallb is_leaf ts = true -> forallb unary_chains ts = true.
Proof.
  induction ts as [|[m [|? ?]] ts IH]; simpl; [done| |done]. exact IH.
Qed.

Lemma unary_chains_children m (ts : list (tree (jsval A))) :
  2 <= length ts -> forallb unary_chains ts = true -> unary_chains (TNode m ts) = true.
Proof. destruct ts as [|c [|c' ts]]; simpl; [lia|lia|done]. Qed.

Lemma roundtrip_unary_chains h fuel this t :
  to_tree fuel h this = Some t ->
  plain t = true -> unary_chains t = true ->
  exists v h' fuel',
    toNestedArray fuel h this = Some v /\
    fromNestedArray v h = Ret (length h) h' /\
    to_tree fuel' h' (length h) = Some t.
Proof.
  intros Ht Hp Hu.
  destruct (fromNestedArray_builds (encode t) h) as (h' & E & _ & Hat).
  rewrite decode_encode in Hat by done.
  exists (encode t), h', (theight t). split; [now apply toNestedArray_encode|].
  split; [done|]. eapply tree_at_to_tree; eauto.
Qed.
End RoundTrip.

(** C7, with the condition the mixed class needs.  [fromNestedArray]
    of [toNestedArray] rebuilds the shape of a tree whose payloads are
    not arrays when the tree is a chain, or its root has several
    children that are all leaves, or its root has several children, not
    all leaves, and in each child's subtree every node with exactly one
    child heads a chain. *)
Theorem nested_array_roundtrip A (h : heap (jsval A)) fuel this t :
  to_tree fuel h this = Some t ->
  plain t = true ->
  is_chain t = true \/ leaf_children t \/
  (mixed_children t /\ forallb unary_chains (tchildren t) = true) ->
  exists v h' fuel',
    toNestedArray fuel h this = Some v /\
    fromNestedArray v h = Ret (length h) h' /\
    to_tree fuel' h' (length h) = Some t.
Proof.
  intros Ht Hp Hclass. apply roundtrip_unary_chains; [done..|].
  destruct Hclass as [Hc|[[Hn Hl]|[[Hn _] Hu]]].
  - now apply is_chain_unary_chains.
  - destruct t as [m ts]. apply unary_chains_children; [done|].
    now apply leaves_unary_chains.
  - destruct t as [m ts]. now apply unary_chains_children.
Qed.

Lemma nested_array_roundtrip_witness :
  exists v h' fuel',
    toNestedArray 3 fixture_values 0 = Some v /\
    fromNestedArray v fixture_values = Ret 5 h' /\
    to_tree fuel' h' 5
    = Some (TNode (Scalar "1")
              [TNode (Scalar "11") [TNode (Scalar "111") []; TNode (Scalar "112") []];
               TNode (Scalar "12") []]).
Proof.
  refine (nested_array_roundtrip string fixture_values 3 0 _ eq_refl eq_refl _).
  right. right. split; [split|]; [simpl; lia|reflexivity|reflexivity].
Defined.

(** The round trip fails on a mixed tree: the root has the children
    [a] and [e], and [a -> b -> {c, d}]. *)
Lemma nested_array_mixed_counterexample :
  parse (Parseable (Scalar "root")
           [Parseable (Scalar "a")
              [Parseable (Scalar "b") [Parseable (Scalar "c") []; Parseable (Scalar "d") []]];
            Parseable (Scalar "e") []]) [] = Ret 0 mixed_store /\
  to_tree 4 mixed_store 0 = Some mixed_tree /\
  plain mixed_tree = true /\ mixed_children mixed_tree /\
  exists v h',
    toNestedArray 4 mixed_store 0 = Some v /\
    v = Array [Scalar "root";
               Array [Scalar "a"; Scalar "b"; Array [Scalar "c"; Scalar "d"]];
               Scalar "e"] /\
    fromNestedArray v mixed_store = Ret 6 h' /\
    to_tree 4 h' 6
    = Some (TNode (Scalar "root")
              [TNode (Scalar "a")
                 [TNode (Scalar "b") []; TNode (Scalar "c") [TNode (Scalar "d") []]];
               TNode (Scalar "e") []]) /\
    forall fuel', to_tree fuel' h' 6 <> Some mixed_tree.
Proof.
  split; [reflexivity|]. split; [reflexivity|]. split; [reflexivity|].
  split; [split; [simpl; lia|reflexivity]|].
  eexists _, _. split; [reflexivity|]. split; [reflexivity|].
  split; [reflexivity|]. split; [reflexivity|].
  intros fuel' H.
  eapply (to_tree_functional 4 fuel') in H; [|reflexivity]. discriminate H.
Qed.

(** C9.  A tree with scalar payloads that the nested-array form does
    not bring back: [root -> child -> {leaf1, leaf2}] is encoded as
    [[root, child, [leaf1, leaf2]]], which is decoded as [root] with the
    two children [child] and [leaf1 -> leaf2]. *)
Theorem nested_array_ambiguous :
  parse (Parseable (Scalar "root")
           [Parseable (Scalar "child")
              [Parseable (Scalar "leaf1") []; Parseable (Scalar "leaf2") []]]) []
    = Ret 0 ambiguous_store /\
  to_tree 3 ambiguous_store 0 = Some ambiguous_tree /\
  plain ambiguous_tree = true /\
  exists v h',
    toNestedArray 3 ambiguous_store 0 = Some v /\
    v = Array [Scalar "root"; Scalar "child"; Array [Scalar "leaf1"; Scalar "leaf2"]] /\
    fromNestedArray v ambiguous_store = Ret 4 h' /\
    to_tree 3 h' 4
    = Some (TNode (Scalar "root")
              [TNode (Scalar "child") [];
               TNode (Scalar "leaf1") [TNode (Scalar "leaf2") []]]) /\
    forall fuel', to_tree fuel' h' 4 <> Some ambiguous_tree.
Proof.
  split; [reflexivity|]. split; [reflexivity|]. split; [reflexivity|].
  eexists _, _. split; [reflexivity|]. split; [reflexivity|].
  split; [reflexivity|]. split; [reflexivity|].
  intros fuel' H.
  eapply (to_tree_functional 3 fuel') in H; [|reflexivity]. discriminate H.
Qed.

(** * Further properties of the class *)

(** ** Traversals: [pre], [post], [breadth], [flatten], [find], [findAll] *)

Section SubtreeFacts.
Context {T : Type}.
Implicit Types (h : heap T) (nd : node T) (n p c x r : loc).

Lemma subtree_Some_inv fuel h this (t : tree loc) :
  subtree fuel h this = Some t ->
  exists fuel' nd ts, fuel = S fuel' /\ h !! this = Some nd /\
    Forall2 (fun c t => subtree fuel' h c = Some t) (children nd) ts /\
    t = TNode this ts.
Proof.
  destruct fuel as [|fuel]; [discriminate|]. simpl.
  destruct (h !! this) as [nd|] eqn:E; [|discriminate]. simpl.
  destruct (mapM (subtree fuel h) (children nd)) as [ts|] eqn:Ets; [|discriminate].
  simpl. intros [= <-]. apply mapM_Some in Ets. eauto 10.
Qed.

Lemma subtree_Some_intro fuel h this nd (ts : list (tree loc)) :
  h !! this = Some nd ->
  Forall2 (fun c t => subtree fuel h c = Some t) (children nd) ts ->
  subtree (S fuel) h this = Some (TNode this ts).
Proof.
  intros E Hts. simpl. rewrite E. simpl.
  apply mapM_Some in Hts. now rewrite Hts.
Qed.

Lemma subtree_mono fuel h : forall this (t : tree loc) fuel',
  subtree fuel h this = Some t -> fuel <= fuel' -> subtree fuel' h this = Some t.
Proof.
  induction fuel as [|fuel IH]; intros this t fuel' Ht Hle; [discriminate|].
  apply subtree_Some_inv in Ht as (f & nd & ts & [= <-] & E & Hts & ->).
  destruct fuel' as [|fuel']; [lia|].
  apply (subtree_Some_intro _ _ _ nd); [done|].
  eapply Forall2_impl; [exact Hts|]. intros c t Hc. apply IH; [done|lia].
Qed.
End SubtreeFacts.

Section ScanFacts.
Context {St : Type}.
Variable callback : loc -> St -> St * bool.

Lemma scan_app l1 l2 s :
  scan callback (l1 ++ l2) s =
  match scan callback l1 s with
  | (s', Some nd) => (s', Some nd)
  | (s', None) => scan callback l2 s'
  end.
Proof.
  revert s. induction l1 as [|n l1 IH]; intros s; [done|].
  simpl. destruct (callback n s) as [s1 [|]]; [done|]. apply IH.
Qed.
End ScanFacts.

Section Searches.
Context {T St : Type}.
Variable h : heap T.
Variable callback : loc -> St -> St * bool.
Implicit Types (nd : node T) (n p c x r : loc) (t : tree loc) (s : St).

(** The loop over the children in [pre] and [post], for a search [go]
    that scans the order [ord] of each child. *)
Lemma each_scan (go : loc -> St -> option (St * option loc)) (ord : tree loc -> list loc)
    (cs : list loc) (ts : list (tree loc)) :
  Forall2 (fun c t => forall s, go c s = Some (scan callback (ord t) s)) cs ts ->
  forall s,
  (fix each (cs : list loc) (s : St) : option (St * option loc) :=
     match cs with
     | [] => Some (s, None)
     | c :: cs =>
         '(s, r) ← go c s;
         match r with
         | Some nd => Some (s, Some nd)
         | None => each cs s
         end
     end) cs s = Some (scan callback (concat (map ord ts)) s).
Proof.
  induction 1 as [|c t cs ts Hc _ IH]; intros s; [done|].
  rewrite Hc. simpl. rewrite scan_app.
  destruct (scan callback (ord t) s) as [s1 [nd|]]; [done|]. apply IH.
Qed.

Lemma pre_scan fuel : forall this t s,
  subtree fuel h this = Some t ->
  pre h callback fuel this s = Some (scan callback (preorder t) s).
Proof.
  induction fuel as [|fuel IH]; intros this t s Ht; [discriminate|].
  apply subtree_Some_inv in Ht as (f & nd & ts & [= <-] & E & Hts & ->).
  simpl. destruct (callback this s) as [s1 [|]]; [done|].
  rewrite E. simpl.
  apply (each_scan (pre h callback fuel) preorder).
  eapply Forall2_impl; [exact Hts|]. intros c t Hc s'. now apply IH.
Qed.

Lemma post_scan fuel : forall this t s,
  subtree fuel h this = Some t ->
  post h callback fuel this s = Some (scan callback (postorder t) s).
Proof.
  induction fuel as [|fuel IH]; intros this t s Ht; [discriminate|].
  apply subtree_Some_inv in Ht as (f & nd & ts & [= <-] & E & Hts & ->).
  simpl. rewrite E. simpl.
  rewrite (each_scan (post h callback fuel) postorder (children nd) ts).
  2:{ eapply Forall2_impl; [exact Hts|]. intros c t Hc s'. now apply IH. }
  simpl. rewrite scan_app.
  destruct (scan callback (concat (map postorder ts)) s) as [s1 [n|]]; [done|].
  simpl. destruct (callback this s1) as [s2 [|]]; done.
Qed.
End Searches.

Section Levels.
Context {X : Type}.
Implicit Types (t : tree X) (q ts : list (tree X)).

Lemma theight_unfold x ts : theight (TNode x ts) = S (fheight ts).
Proof. reflexivity. Qed.

Lemma tsize_unfold x ts : tsize (TNode x ts) = S (fsize ts).
Proof. reflexivity. Qed.

Lemma fheight_app q1 q2 : fheight (q1 ++ q2) = max (fheight q1) (fheight q2).
Proof. induction q1 as [|t q1 IH]; simpl; [done|]. rewrite IH. lia. Qed.

Lemma fsize_app q1 q2 : fsize (q1 ++ q2) = fsize q1 + fsize q2.
Proof. induction q1 as [|t q1 IH]; simpl; [done|]. rewrite IH. lia. Qed.

Lemma level_beyond t : forall d, theight t <= d -> level d t = [].
Proof.
  induction t as [x ts IH] using tree_ind'. intros d Hd.
  rewrite theight_unfold in Hd. destruct d as [|d]; [lia|]. simpl.
  assert (fheight ts <= d) as Hd' by lia. clear Hd.
  induction IH as [|t ts Ht _ IHts]; [done|]. simpl in *.
  rewrite Ht by lia. simpl. apply IHts. lia.
Qed.

Lemma levels_beyond q d : fheight q <= d -> levels d q = [].
Proof.
  induction q as [|t q IH]; [done|]. simpl. intros Hd. unfold levels. simpl.
  rewrite level_beyond by lia. simpl. apply IH. lia.
Qed.

Lemma levels_app d q1 q2 : levels d (q1 ++ q2) = levels d q1 ++ levels d q2.
Proof. unfold levels. now rewrite map_app, concat_app. Qed.

Lemma levels_cons_O x ts q : levels 0 (TNode x ts :: q) = x :: levels 0 q.
Proof. reflexivity. Qed.

Lemma levels_cons_S d x ts q :
  levels (S d) (TNode x ts :: q) = levels d ts ++ levels (S d) q.
Proof. reflexivity. Qed.

Lemma lvls_S K q : lvls (S K) q = lvls K q ++ levels K q.
Proof.
  unfold lvls. rewrite seq_S, map_app, concat_app. simpl. now rewrite app_nil_r.
Qed.

Lemma lvls_stable q : forall K, fheight q <= K -> lvls K q = lvls (fheight q) q.
Proof.
  induction K as [|K IH]; intros HK.
  - now replace (fheight q) with 0 by lia.
  - destruct (decide (fheight q = S K)) as [->|Hne]; [done|].
    rewrite lvls_S, levels_beyond by lia. rewrite app_nil_r. apply IH. lia.
Qed.

(** Two families of lists, interleaved with a shift of one. *)
Lemma interleave (a b : nat -> list X) K :
  a 0 ++ concat (map (fun d => b d ++ a (S d)) (seq 0 K))
  = concat (map (fun d => a d ++ b d) (seq 0 K)) ++ a K.
Proof.
  induction K as [|K IH].
  - simpl. now rewrite app_nil_r.
  - rewrite !seq_S, !map_app, !concat_app. simpl. rewrite !app_nil_r.
    rewrite app_assoc, IH. now rewrite <- !app_assoc.
Qed.

Lemma lvls_cons K x ts q :
  lvls (S K) (TNode x ts :: q) = x :: lvls K (q ++ ts) ++ levels K q.
Proof.
  unfold lvls at 1. rewrite <- cons_seq, <- seq_shift. rewrite map_cons, map_map.
  rewrite concat_cons, levels_cons_O. simpl. f_equal.
  rewrite (map_ext _ (fun d => levels d ts ++ levels (S d) q))
    by (intros; apply levels_cons_S).
  rewrite (interleave (fun d => levels d q) (fun d => levels d ts) K).
  f_equal. unfold lvls. f_equal. apply map_ext. intros d. now rewrite levels_app.
Qed.

(** Dequeuing a node and enqueuing its children keeps the level order. *)
Lemma lvls_dequeue x ts q :
  lvls (fheight (TNode x ts :: q)) (TNode x ts :: q)
  = x :: lvls (fheight (q ++ ts)) (q ++ ts).
Proof.
  pose (K := max (fheight q) (fheight ts)).
  assert (fheight (TNode x ts :: q) = max (S (fheight ts)) (fheight q)) as Hh by done.
  rewrite <- (lvls_stable _ (S K)) by (rewrite Hh; lia).
  rewrite lvls_cons, levels_beyond, app_nil_r by lia.
  f_equal. apply lvls_stable. rewrite fheight_app. lia.
Qed.

Lemma levelorder_lvls t : levelorder t = lvls (fheight [t]) [t].
Proof.
  unfold levelorder, lvls. simpl. replace (theight t `max` 0) with (theight t) by lia.
  f_equal. apply map_ext. intros d. unfold levels. simpl. now rewrite app_nil_r.
Qed.
End Levels.

Section Breadth.
Context {T St : Type}.
Variable h : heap T.
Variable callback : loc -> St -> St * bool.
Implicit Types (nd : node T) (n p c x r : loc) (t : tree loc) (s : St).

Lemma breadth_loop_unfold fuel queue head s :
  breadth_loop h callback (S fuel) queue head s =
  if head <? length queue then
    nd ← queue !! head;
    let '(s, found) := callback nd s in
    if found then Some (s, Some nd)
    else n ← h !! nd; breadth_loop h callback fuel (queue ++ children n) (S head) s
  else Some (s, None).
Proof. reflexivity. Qed.

Lemma breadth_loop_scan fuel0 : forall fuel queue head (pts : list (tree loc)) s,
  Forall2 (fun c t => subtree fuel0 h c = Some t) (drop head queue) pts ->
  fsize pts < fuel ->
  breadth_loop h callback fuel queue head s
  = Some (scan callback (lvls (fheight pts) pts) s).
Proof.
  induction fuel as [|fuel IH]; intros queue head pts s Hq Hf; [lia|].
  rewrite breadth_loop_unfold. destruct (drop head queue) as [|n rest] eqn:Ed.
  - apply Forall2_nil_inv_l in Hq as ->.
    assert (length queue <= head) as Hl.
    { destruct (decide (length queue <= head)); [done|].
      assert (length (drop head queue) = 0) as Hz by now rewrite Ed.
      rewrite length_drop in Hz. lia. }
    apply Nat.ltb_ge in Hl. rewrite Hl. done.
  - apply Forall2_cons_inv_l in Hq as (t & prest & Ht & Hrest & ->).
    assert (head < length queue) as Hl.
    { assert (length (drop head queue) = S (length rest)) as Hz by now rewrite Ed.
      rewrite length_drop in Hz. lia. }
    pose proof Hl as Hl'. apply Nat.ltb_lt in Hl'. rewrite Hl'.
    assert (queue !! head = Some n) as Eh.
    { rewrite <- (Nat.add_0_r head), <- lookup_drop, Ed. done. }
    rewrite Eh.
    pose proof Ht as Ht'.
    apply subtree_Some_inv in Ht' as (f & nd & ts & -> & E & Hts & ->).
    rewrite lvls_dequeue. cbn [scan mbind option_bind].
    destruct (callback n s) as [s1 [|]]; [done|].
    rewrite E. cbn [mbind option_bind].
    apply IH.
    + replace (drop (S head) (queue ++ children nd)) with (rest ++ children nd).
      * apply Forall2_app; [done|].
        eapply Forall2_impl; [exact Hts|]. intros c t Hc.
        eapply subtree_mono; [exact Hc|lia].
      * rewrite drop_app_le by lia. f_equal.
        replace (S head) with (head + 1) by lia.
        rewrite <- drop_drop, Ed. done.
    + change (fsize (TNode n ts :: prest)) with (S (fsize ts) + fsize prest) in Hf.
      rewrite fsize_app. lia.
Qed.

End Breadth.

Section Sizes.
Context {X : Type}.
Implicit Types (t : tree X) (q ts : list (tree X)).

Lemma fheight_elem t ts : t ∈ ts -> theight t <= fheight ts.
Proof.
  induction 1 as [t ts|t t' ts _ IH]; simpl; lia.
Qed.

Lemma theight_le_tsize t : theight t <= tsize t.
Proof.
  induction t as [x ts IH] using tree_ind'.
  rewrite theight_unfold, tsize_unfold. apply le_n_S.
  induction IH as [|t ts Ht _ IHts]; simpl; lia.
Qed.
End Sizes.

Section SubtreeHeight.
Context {T : Type}.
Implicit Types (h : heap T) (nd : node T) (n p c x r : loc).

Lemma subtree_height fuel0 h : forall this (t : tree loc) fuel,
  subtree fuel0 h this = Some t -> theight t <= fuel -> subtree fuel h this = Some t.
Proof.
  induction fuel0 as [|fuel0 IH]; intros this t fuel Ht Hle; [discriminate|].
  apply subtree_Some_inv in Ht as (f & nd & ts & [= <-] & E & Hts & ->).
  rewrite theight_unfold in Hle. destruct fuel as [|fuel]; [lia|].
  apply (subtree_Some_intro _ _ _ nd); [done|].
  apply Forall2_same_length_lookup. split; [eapply Forall2_length, Hts|].
  intros i c t Hc Ht.
  apply IH.
  - exact (Forall2_lookup_lr _ _ _ _ _ _ Hts Hc Ht).
  - apply list_elem_of_lookup_2 in Ht. apply fheight_elem in Ht. lia.
Qed.
End SubtreeHeight.

Section SearchScan.
Context {T : Type}.
Implicit Types (h : heap T) (n p c x r : loc).

Lemma search_scan {St} method h (callback : loc -> St -> St * bool) fuel0 fuel this t s :
  subtree fuel0 h this = Some t -> tsize t < fuel ->
  search method h callback fuel this s = Some (scan callback (order method t) s).
Proof.
  intros Ht Hf. pose proof (theight_le_tsize t) as Hh.
  destruct method; simpl.
  - apply pre_scan. eapply subtree_height; [exact Ht|lia].
  - apply post_scan. eapply subtree_height; [exact Ht|lia].
  - unfold breadth. rewrite levelorder_lvls.
    apply (breadth_loop_scan _ _ fuel0); [|simpl; lia].
    simpl. now constructor.
Qed.

Lemma scan_push (l acc : list loc) :
  scan (fun nd list => (list ++ [nd], false)) l acc = (acc ++ l, None).
Proof.
  revert acc. induction l as [|n l IH]; intros acc; simpl.
  - now rewrite app_nil_r.
  - rewrite IH. now rewrite <- app_assoc.
Qed.

Lemma scan_find (predicate : loc -> bool) (l : list loc) :
  scan (fun nd (_ : unit) => (tt, predicate nd)) l tt = (tt, List.find predicate l).
Proof.
  induction l as [|n l IH]; simpl; [done|]. destruct (predicate n); done.
Qed.

Lemma scan_filter (predicate : loc -> bool) (l acc : list loc) :
  scan (fun nd results => (if predicate nd then results ++ [nd] else results, false)) l acc
  = (acc ++ List.filter predicate l, None).
Proof.
  revert acc. induction l as [|n l IH]; intros acc; simpl.
  - now rewrite app_nil_r.
  - rewrite IH. destruct (predicate n); [|done]. now rewrite <- app_assoc.
Qed.

End SearchScan.

(** X1.  [pre(callback)] calls the callback on the nodes of the subtree
    in depth-first pre-order (a node before its children, children from
    left to right), stops at the first node for which the callback
    returns true and returns that node; it returns [null] when the
    callback never returns true. *)
Theorem pre_scans_preorder {T St} (h : heap T) (callback : loc -> St -> St * bool)
    fuel0 fuel this t s :
  subtree fuel0 h this = Some t -> theight t <= fuel ->
  pre h callback fuel this s = Some (scan callback (preorder t) s).
Proof.
  intros Ht Hf. apply pre_scan. eapply subtree_height; eauto.
Qed.

Lemma pre_scans_preorder_witness :
  pre fixture_store (fun nd l => (l ++ [nd], nd =? 3)) 3 0 []
  = Some ([0; 1; 2; 3], Some 3).
Proof.
  exact (pre_scans_preorder fixture_store (fun nd l => (l ++ [nd], nd =? 3))
           3 3 0 fixture_nodes [] eq_refl (le_n 3)).
Defined.

(** X2.  [post(callback)] calls the callback on the nodes of the subtree
    in depth-first post-order (the children from left to right, then the
    node), with the same early exit. *)
Theorem post_scans_postorder {T St} (h : heap T) (callback : loc -> St -> St * bool)
    fuel0 fuel this t s :
  subtree fuel0 h this = Some t -> theight t <= fuel ->
  post h callback fuel this s = Some (scan callback (postorder t) s).
Proof.
  intros Ht Hf. apply post_scan. eapply subtree_height; eauto.
Qed.

Lemma post_scans_postorder_witness :
  post fixture_store (fun nd l => (l ++ [nd], nd =? 1)) 3 0 []
  = Some ([2; 3; 1], Some 1).
Proof.
  exact (post_scans_postorder fixture_store (fun nd l => (l ++ [nd], nd =? 1))
           3 3 0 fixture_nodes [] eq_refl (le_n 3)).
Defined.

(** X3.  [breadth(callback)] calls the callback on the nodes of the
    subtree level by level, each level from left to right, with the same
    early exit. *)
Theorem breadth_scans_levels {T St} (h : heap T) (callback : loc -> St -> St * bool)
    fuel0 fuel this t s :
  subtree fuel0 h this = Some t -> tsize t < fuel ->
  breadth h callback fuel this s = Some (scan callback (levelorder t) s).
Proof.
  intros Ht Hf. unfold breadth. rewrite levelorder_lvls.
  apply (breadth_loop_scan _ _ fuel0); [|simpl; lia].
  simpl. now constructor.
Qed.

Lemma breadth_scans_levels_witness :
  breadth fixture_store (fun nd l => (l ++ [nd], nd =? 2)) 6 0 []
  = Some ([0; 1; 4; 2], Some 2).
Proof.
  exact (breadth_scans_levels fixture_store (fun nd l => (l ++ [nd], nd =? 2))
           3 6 0 fixture_nodes [] eq_refl (le_n 6)).
Defined.

Section Permutations.
Context {X : Type}.
Implicit Types (t : tree X) (q ts : list (tree X)).

Lemma concat_map_Permutation (f g : tree X -> list X) ts :
  Forall (fun t => f t ≡ₚ g t) ts -> concat (map f ts) ≡ₚ concat (map g ts).
Proof.
  induction 1 as [|t ts Ht _ IH]; simpl; [done|]. now rewrite Ht, IH.
Qed.

Lemma postorder_Permutation t : postorder t ≡ₚ preorder t.
Proof.
  induction t as [x ts IH] using tree_ind'. simpl.
  rewrite <- Permutation_cons_append. constructor.
  now apply concat_map_Permutation.
Qed.

Lemma lvls_Permutation n : forall q,
  fsize q < n -> lvls (fheight q) q ≡ₚ concat (map preorder q).
Proof.
  induction n as [|n IH]; intros q Hn; [lia|].
  destruct q as [|[x ts] q]; [done|].
  rewrite lvls_dequeue. simpl. constructor.
  rewrite IH.
  - rewrite map_app, concat_app. apply Permutation_app_comm.
  - change (fsize (TNode x ts :: q)) with (S (fsize ts) + fsize q) in Hn.
    rewrite fsize_app. lia.
Qed.

Lemma levelorder_Permutation t : levelorder t ≡ₚ preorder t.
Proof.
  rewrite levelorder_lvls, (lvls_Permutation (S (fsize [t]))) by lia.
  simpl. now rewrite app_nil_r.
Qed.

Lemma order_Permutation method t : order method t ≡ₚ preorder t.
Proof.
  destruct method; simpl;
    [done|apply postorder_Permutation|apply levelorder_Permutation].
Qed.
End Permutations.

Section ListFacts.
Context {X Y : Type}.

Lemma elem_of_concat_map (f : X -> list Y) (l : list X) y :
  y ∈ concat (map f l) <-> exists x, x ∈ l /\ y ∈ f x.
Proof.
  induction l as [|x l IH]; simpl.
  - split; [intros H; inversion H|intros (x & H & _); inversion H].
  - rewrite elem_of_app, IH. split.
    + intros [H|(x' & Hx & Hy)];
        [exists x; split; [left|done]|exists x'; split; [now right|done]].
    + intros (x' & Hx & Hy). apply elem_of_cons in Hx as [->|Hx]; [now left|right; eauto].
Qed.

Lemma NoDup_concat_map (f : X -> list Y) (l : list X) :
  (forall x, x ∈ l -> NoDup (f x)) ->
  (forall i j x x' y, l !! i = Some x -> l !! j = Some x' ->
     y ∈ f x -> y ∈ f x' -> i = j) ->
  NoDup (concat (map f l)).
Proof.
  induction l as [|x l IH]; intros Hnd Hdis; simpl; [constructor|].
  apply NoDup_app. split; [apply Hnd; left|]. split.
  - intros y Hy Hy'. apply elem_of_concat_map in Hy' as (x' & Hx' & Hy').
    apply list_elem_of_lookup in Hx' as [j Hj].
    specialize (Hdis 0 (S j) x x' y eq_refl Hj Hy Hy'). discriminate.
  - apply IH.
    + intros x' Hx'. apply Hnd. now right.
    + intros i j a b y Hi Hj Ha Hb.
      specialize (Hdis (S i) (S j) a b y Hi Hj Ha Hb). lia.
Qed.
End ListFacts.

Section Descendants.
Context {T : Type}.
Implicit Types (h : heap T) (nd : node T) (n p c x r a b : loc) (t : tree loc).

Lemma descendant_trans h a b c :
  descendant h a b -> descendant h b c -> descendant h a c.
Proof.
  intros Hab Hbc. induction Hbc as [|p pd c Hp IH E Hc]; [done|].
  eapply descendant_child; eauto.
Qed.

Lemma descendant_step h p pd c : h !! p = Some pd -> c ∈ children pd -> descendant h p c.
Proof. intros E Hc. eapply descendant_child; [apply descendant_self|done..]. Qed.

Lemma troot_subtree fuel h this t :
  subtree fuel h this = Some t -> exists ts, t = TNode this ts.
Proof. intros Ht. apply subtree_Some_inv in Ht as (? & ? & ts & _ & _ & _ & ->). eauto. Qed.

(** A node of the subtree heads a subtree of its own inside it. *)
Lemma preorder_subtree fuel h : forall this t n,
  subtree fuel h this = Some t -> n ∈ preorder t ->
  exists tn, subtree fuel h n = Some tn /\ theight tn <= theight t /\
             (forall x, x ∈ preorder tn -> x ∈ preorder t) /\
             (n <> this -> theight tn < theight t).
Proof.
  induction fuel as [|fuel IH]; intros this t n Ht Hn; [discriminate|].
  pose proof Ht as Ht0.
  apply subtree_Some_inv in Ht as (f & nd & ts & [= <-] & E & Hts & ->).
  simpl in Hn. apply elem_of_cons in Hn as [->|Hn].
  - exists (TNode this ts). split; [done|]. split; [done|]. split; [done|]. done.
  - apply elem_of_concat_map in Hn as (tc & Htc & Hn).
    apply list_elem_of_lookup in Htc as [i Hi].
    destruct (Forall2_lookup_r _ _ _ _ _ Hts Hi) as (c & Hc & Hsub).
    destruct (IH _ _ _ Hsub Hn) as (tn & Hsn & Hh & Hin & _).
    exists tn. split; [eapply subtree_mono; [exact Hsn|lia]|].
    assert (theight tc <= fheight ts) as Hle
      by (apply fheight_elem; eapply list_elem_of_lookup_2; eauto).
    rewrite theight_unfold.
    split; [lia|]. split; [|lia].
    intros x Hx. simpl. right. apply elem_of_concat_map. exists tc.
    split; [eapply list_elem_of_lookup_2; eauto|auto].
Qed.

Lemma preorder_child fuel h this t nd c :
  subtree fuel h this = Some t -> h !! this = Some nd -> c ∈ children nd ->
  c ∈ preorder t /\ c <> this.
Proof.
  intros Ht E Hc.
  pose proof Ht as Ht0.
  apply subtree_Some_inv in Ht as (f & nd' & ts & -> & E' & Hts & ->).
  assert (nd' = nd) as -> by congruence.
  apply list_elem_of_lookup in Hc as [i Hi].
  destruct (Forall2_lookup_l _ _ _ _ _ Hts Hi) as (tc & Htc & Hsub).
  destruct (troot_subtree _ _ _ _ Hsub) as [tsc ->].
  split.
  - simpl. right. apply elem_of_concat_map. exists (TNode c tsc).
    split; [eapply list_elem_of_lookup_2; eauto|left].
  - intros ->.
    destruct (preorder_subtree _ _ _ _ this Ht0) as (tn & Hsn & _); [left|].
    rewrite Ht0 in Hsn. injection Hsn as <-.
    pose proof (subtree_mono _ _ _ _ (S f) Hsub ltac:(lia)) as H1.
    rewrite Ht0 in H1. injection H1 as H1.
    assert (theight (TNode this tsc) <= fheight ts) as Hle
      by (apply fheight_elem; eapply list_elem_of_lookup_2; eauto).
    subst. rewrite theight_unfold in Hle. lia.
Qed.

Lemma preorder_descendant fuel h this t n :
  subtree fuel h this = Some t -> (n ∈ preorder t <-> descendant h this n).
Proof.
  intros Ht. split.
  - revert this t n Ht. induction fuel as [|fuel IH]; intros this t n Ht Hn; [discriminate|].
    apply subtree_Some_inv in Ht as (f & nd & ts & [= <-] & E & Hts & ->).
    simpl in Hn. apply elem_of_cons in Hn as [->|Hn]; [apply descendant_self|].
    apply elem_of_concat_map in Hn as (tc & Htc & Hn).
    apply list_elem_of_lookup in Htc as [i Hi].
    destruct (Forall2_lookup_r _ _ _ _ _ Hts Hi) as (c & Hc & Hsub).
    eapply descendant_trans; [|eapply IH; eauto].
    eapply descendant_step; [exact E|]. eapply list_elem_of_lookup_2; eauto.
  - induction 1 as [|p pd c Hp IH E Hc].
    + destruct (troot_subtree _ _ _ _ Ht) as [ts ->]. left.
    + destruct (preorder_subtree _ _ _ _ _ Ht IH) as (tp & Hsp & _ & Hin & _).
      apply Hin. eapply preorder_child; eauto.
Qed.

(** In an owned store the way up from a descendant is the parent chain. *)
Lemma descendant_parent h c x :
  owned h -> descendant h c x ->
  x = c \/ exists xd p, h !! x = Some xd /\ parent xd = Some p /\ descendant h c p.
Proof.
  intros Ho Hd. destruct Hd as [|p pd x Hp E Hx]; [now left|]. right.
  apply list_elem_of_lookup in Hx as [i Hi].
  destruct (Ho _ _ _ _ E Hi) as (xd & Ex & Hpar & _). eauto.
Qed.

(** A node below [this] is below one child only. *)
Lemma descendant_one_child fuel h this t nd ci cj x :
  owned h -> subtree fuel h this = Some t -> h !! this = Some nd ->
  ci ∈ children nd -> cj ∈ children nd ->
  descendant h ci x -> descendant h cj x -> ci = cj.
Proof.
  intros Ho Ht E Hi Hj Hdi. revert cj Hj.
  assert (forall c, c ∈ children nd ->
            exists cd, h !! c = Some cd /\ parent cd = Some this) as Hpar.
  { intros c Hc. apply list_elem_of_lookup in Hc as [i Hc].
    destruct (Ho _ _ _ _ E Hc) as (cd & ? & ? & _). eauto. }
  assert (forall c, c ∈ children nd -> descendant h c this -> False) as Hcyc.
  { intros c Hc Hd.
    destruct (preorder_child _ _ _ _ _ _ Ht E Hc) as [Hin Hne].
    destruct (preorder_subtree _ _ _ _ _ Ht Hin) as (tc & Hsc & _ & _ & Hlt).
    apply (preorder_descendant _ _ _ _ _ Hsc) in Hd.
    destruct (preorder_subtree _ _ _ _ _ Hsc Hd) as (t' & Hs' & Hle & _).
    rewrite Ht in Hs'. injection Hs' as <-. specialize (Hlt Hne). lia. }
  induction Hdi as [|p pd x Hp IH Ep Hx]; intros cj Hj Hdj.
  - destruct (descendant_parent _ _ _ Ho Hdj) as [|(xd & p & Ex & Hp & Hd)]; [done|].
    destruct (Hpar _ Hi) as (cd & Ec & Hpc).
    assert (p = this) as -> by congruence.
    destruct (Hcyc _ Hj Hd).
  - destruct (descendant_parent _ _ _ Ho Hdj) as [->|(xd & p' & Ex & Hp' & Hd)].
    + destruct (Hpar _ Hj) as (cd & Ec & Hpc).
      apply list_elem_of_lookup in Hx as [k Hk].
      destruct (Ho _ _ _ _ Ep Hk) as (xd & Ex & Hpx & _).
      assert (p = this) as -> by congruence.
      destruct (Hcyc _ Hi Hp).
    + apply list_elem_of_lookup in Hx as [k Hk].
      destruct (Ho _ _ _ _ Ep Hk) as (xd' & Ex' & Hpx & _).
      assert (p' = p) as -> by congruence.
      now apply IH.
Qed.

Lemma preorder_NoDup fuel h : forall this t,
  owned h -> subtree fuel h this = Some t -> NoDup (preorder t).
Proof.
  induction fuel as [|fuel IH]; intros this t Ho Ht; [discriminate|].
  pose proof Ht as Ht0.
  apply subtree_Some_inv in Ht as (f & nd & ts & [= <-] & E & Hts & ->).
  simpl. constructor.
  - intros Hin. apply elem_of_concat_map in Hin as (tc & Htc & Hin).
    apply list_elem_of_lookup in Htc as [i Hi].
    destruct (Forall2_lookup_r _ _ _ _ _ Hts Hi) as (c & Hc & Hsub).
    apply list_elem_of_lookup_2 in Hc.
    destruct (preorder_child _ _ _ _ _ _ Ht0 E Hc) as [Hcin Hne].
    destruct (preorder_subtree _ _ _ _ _ Ht0 Hcin) as (tc' & Hsc & _ & _ & Hlt).
    pose proof (subtree_mono _ _ _ _ (S fuel) Hsub ltac:(lia)) as H1.
    rewrite Hsc in H1. injection H1 as ->.
    destruct (preorder_subtree _ _ _ _ _ Hsc Hin) as (t' & Hs' & Hle & _).
    rewrite Ht0 in Hs'. injection Hs' as <-. specialize (Hlt Hne). lia.
  - apply NoDup_concat_map.
    + intros tc Htc. apply list_elem_of_lookup in Htc as [i Hi].
      destruct (Forall2_lookup_r _ _ _ _ _ Hts Hi) as (c & Hc & Hsub). eauto.
    + intros i j ti tj y Hi Hj Hyi Hyj.
      destruct (Forall2_lookup_r _ _ _ _ _ Hts Hi) as (ci & Hci & Hsi).
      destruct (Forall2_lookup_r _ _ _ _ _ Hts Hj) as (cj & Hcj & Hsj).
      apply (preorder_descendant _ _ _ _ _ Hsi) in Hyi.
      apply (preorder_descendant _ _ _ _ _ Hsj) in Hyj.
      assert (ci = cj) as ->.
      { eapply (descendant_one_child _ h this); eauto;
          eapply list_elem_of_lookup_2; eauto. }
      eapply owned_unique; eauto.
Qed.

(** Below a leaf there is the leaf only. *)
Lemma leaf_descendant h n nd x :
  h !! n = Some nd -> children nd = [] -> descendant h n x -> x = n.
Proof.
  intros E Hc Hd. induction Hd as [|p pd c Hp IH Ep Hin]; [done|].
  subst p. assert (pd = nd) as -> by congruence.
  rewrite Hc in Hin. inversion Hin.
Qed.
End Descendants.

(** X4.  [flatten(method)] returns the nodes of the subtree in the order
    of the method; whatever the method, the list holds exactly the node
    and its descendants, and each of them once when listed children are
    owned. *)
Theorem flatten_lists_subtree {T} (h : heap T) fuel0 fuel this t method :
  subtree fuel0 h this = Some t -> tsize t < fuel ->
  flatten fuel h this method = Some (order method t) /\
  order method t ≡ₚ preorder t /\
  (forall n, n ∈ order method t <-> descendant h this n) /\
  (owned h -> NoDup (order method t)).
Proof.
  intros Ht Hf. split.
  { unfold flatten. rewrite (search_scan _ _ _ fuel0 _ _ t) by done.
    now rewrite scan_push. }
  split; [apply order_Permutation|]. split.
  - intros n. rewrite (order_Permutation method t).
    now apply (preorder_descendant fuel0).
  - intros Ho. rewrite (order_Permutation method t).
    now apply (preorder_NoDup fuel0 h this).
Qed.

Lemma flatten_lists_subtree_witness :
  flatten 6 fixture_store 0 StrategyBreadth = Some [0; 1; 4; 2; 3] /\
  [0; 1; 4; 2; 3] ≡ₚ [0; 1; 2; 3; 4] /\
  (forall n, n ∈ [0; 1; 4; 2; 3] <-> descendant fixture_store 0 n) /\
  NoDup [0; 1; 4; 2; 3].
Proof.
  destruct (flatten_lists_subtree fixture_store 3 6 0 fixture_nodes StrategyBreadth
              eq_refl (le_n 6)) as (H1 & H2 & H3 & H4).
  split; [exact H1|]. split; [exact H2|]. split; [exact H3|].
  exact (H4 (proj2 fixture_forest)).
Defined.

(** X5.  [find(predicate, method)] returns the first node, in the order
    of the method (pre-order when the method is omitted), for which the
    predicate holds, and [null] when it holds for no node of the
    subtree. *)
Theorem find_first_match {T} (h : heap T) fuel0 fuel this t predicate method :
  subtree fuel0 h this = Some t -> tsize t < fuel ->
  find fuel h this predicate method
  = Some (List.find predicate (order (default StrategyPre method) t)).
Proof.
  intros Ht Hf. unfold find.
  rewrite (search_scan _ _ _ fuel0 _ _ t) by done. now rewrite scan_find.
Qed.

Lemma find_first_match_witness :
  find 6 fixture_store 0 (fun n => 1 <? n) None = Some (Some 2) /\
  find 6 fixture_store 0 (fun n => 1 <? n) (Some StrategyBreadth) = Some (Some 4) /\
  find 6 fixture_store 0 (fun n => 9 <? n) (Some StrategyPost) = Some None.
Proof.
  split; [|split].
  - exact (find_first_match fixture_store 3 6 0 fixture_nodes (fun n => 1 <? n) None
             eq_refl (le_n 6)).
  - exact (find_first_match fixture_store 3 6 0 fixture_nodes (fun n => 1 <? n)
             (Some StrategyBreadth) eq_refl (le_n 6)).
  - exact (find_first_match fixture_store 3 6 0 fixture_nodes (fun n => 9 <? n)
             (Some StrategyPost) eq_refl (le_n 6)).
Defined.

(** X6.  [findAll(predicate, method)] returns the nodes of the subtree
    for which the predicate holds, in the order of the method (pre-order
    when the method is omitted). *)
Theorem findAll_filters {T} (h : heap T) fuel0 fuel this t predicate method :
  subtree fuel0 h this = Some t -> tsize t < fuel ->
  findAll fuel h this predicate method
  = Some (List.filter predicate (order (default StrategyPre method) t)).
Proof.
  intros Ht Hf. unfold findAll.
  rewrite (search_scan _ _ _ fuel0 _ _ t) by done. now rewrite scan_filter.
Qed.

Lemma findAll_filters_witness :
  findAll 6 fixture_store 0 (fun n => 1 <? n) (Some StrategyPost) = Some [2; 3; 4].
Proof.
  exact (findAll_filters fixture_store 3 6 0 fixture_nodes (fun n => 1 <? n)
           (Some StrategyPost) eq_refl (le_n 6)).
Defined.

(** ** The way up: [indices], [depth], [root], [path], [fetch] *)

Section Chains.
Context {T : Type}.
Implicit Types (h : heap T) (nd : node T) (n p c x r a b : loc).

Lemma indices_parent fuel h n nd p idxs :
  h !! n = Some nd -> parent nd = Some p ->
  indices (S fuel) h n = Some idxs ->
  exists idxs', indices fuel h p = Some idxs' /\ idxs = idxs' ++ [index nd].
Proof.
  intros E Hp. unfold indices. simpl. rewrite E. simpl. rewrite Hp.
  rewrite indices_loop_acc.
  destruct (indices_loop fuel h p []) as [l|]; [|discriminate]. simpl.
  intros [= <-]. exists (reverse l). split; [done|].
  now rewrite reverse_cons.
Qed.

Lemma path_loop_acc fuel h : forall node acc,
  path_loop fuel h node acc = (acc ++.) <$> path_loop fuel h node [].
Proof.
  induction fuel as [|fuel IH]; intros node acc; [done|].
  simpl. destruct node as [n|]; simpl; [|now rewrite app_nil_r].
  destruct (h !! n) as [nd|]; [|done]. simpl.
  rewrite (IH _ (acc ++ [n])), (IH _ [n]).
  destruct (path_loop fuel h (parent nd) []) as [l|]; [|done]. simpl.
  now rewrite <- app_assoc.
Qed.

Lemma path_child fuel h n nd p ps :
  h !! n = Some nd -> parent nd = Some p ->
  path (S fuel) h p = Some ps -> path (S (S fuel)) h n = Some (ps ++ [n]).
Proof.
  intros E Hp. unfold path.
  change (path_loop (S (S fuel)) h (Some n) [])
    with (n0 ← h !! n; path_loop (S fuel) h (parent n0) ([] ++ [n])).
  rewrite E. cbn [mbind option_bind]. rewrite Hp. simpl app.
  rewrite (path_loop_acc (S fuel) h (Some p) [n]).
  destruct (path_loop (S fuel) h (Some p) []) as [l|]; [|discriminate].
  cbn [fmap option_fmap option_map]. intros [= <-]. f_equal.
  change ([n] ++ l) with (n :: l). now rewrite reverse_cons.
Qed.

(** One walk up the parent chain gives the positions, the depth, the
    root and the path. *)
Lemma chain_spec_up fuel h : forall n idxs,
  indices fuel h n = Some idxs ->
  depth fuel h n = Some (length idxs) /\
  exists r rd ps,
    root fuel h n = Some r /\ h !! r = Some rd /\ parent rd = None /\
    path (S fuel) h n = Some (r :: ps) /\ length ps = length idxs /\
    last (r :: ps) = Some n /\
    (forall i a b, (r :: ps) !! i = Some a -> (r :: ps) !! S i = Some b ->
       exists bd, h !! b = Some bd /\ parent bd = Some a) /\
    (index_inv h ->
     fetch h r ((fun i => Some (Z.of_nat i)) <$> idxs) = Some (Some n)).
Proof.
  induction fuel as [|fuel IH]; intros n idxs Hi; [discriminate|].
  destruct (h !! n) as [nd|] eqn:E.
  2:{ unfold indices in Hi. simpl in Hi. rewrite E in Hi. discriminate. }
  destruct (parent nd) as [p|] eqn:Hp.
  - destruct (indices_parent _ _ _ _ _ _ E Hp Hi) as (idxs' & Hi' & ->).
    destruct (IH _ _ Hi')
      as (Hd & r & rd & ps & Hr & Er & Hrp & Hpath & Hlen & Hlast & Hlink & Hf).
    split.
    { simpl. rewrite E. simpl. rewrite Hp, Hd. simpl. f_equal.
      rewrite length_app. simpl. lia. }
    exists r, rd, (ps ++ [n]). split; [simpl; now rewrite E; simpl; rewrite Hp|].
    split; [done|]. split; [done|]. split.
    { destruct fuel as [|fuel]; [discriminate|].
      now rewrite (path_child _ _ _ _ _ _ E Hp Hpath). }
    split; [rewrite !length_app; simpl; lia|].
    split; [now rewrite app_comm_cons, last_snoc|].
    split.
    { intros i a b Ha Hb. rewrite app_comm_cons in Ha, Hb.
      destruct (decide (S i < length (r :: ps))) as [Hlt|Hge].
      - rewrite lookup_app_l in Ha by lia. rewrite lookup_app_l in Hb by lia. eauto.
      - destruct (decide (S i = length (r :: ps))) as [Heq|Hne].
        + rewrite lookup_app_l in Ha by lia.
          rewrite lookup_app_r in Hb by lia.
          rewrite Heq, Nat.sub_diag in Hb. injection Hb as <-.
          rewrite last_lookup in Hlast.
          replace (Nat.pred (length (r :: ps))) with i in Hlast by lia.
          exists nd. split; [done|]. congruence.
        + apply lookup_lt_Some in Hb. rewrite length_app in Hb. simpl in *. lia. }
    intros Hinv. rewrite fmap_app.
    rewrite (fetch_app _ _ _ _ _ (Hf Hinv)). simpl.
    destruct (Hinv _ _ _ E Hp) as (pd & Ep & Hc). rewrite Ep. simpl.
    unfold at_number. destruct (Z.ltb_spec (Z.of_nat (index nd)) 0); [lia|].
    rewrite Nat2Z.id, Hc. done.
  - assert (idxs = []) as ->.
    { unfold indices in Hi. simpl in Hi. rewrite E in Hi. simpl in Hi.
      rewrite Hp in Hi. now injection Hi as <-. }
    split; [simpl; now rewrite E; simpl; rewrite Hp|].
    exists n, nd, []. split; [simpl; now rewrite E; simpl; rewrite Hp|].
    split; [done|]. split; [done|].
    split; [unfold path; simpl; rewrite E; simpl; rewrite Hp; now destruct fuel|].
    split; [done|]. split; [done|]. split; [|done].
    intros i a b Ha Hb. destruct i; discriminate.
Qed.

Lemma root_mono fuel h : forall n r fuel',
  root fuel h n = Some r -> fuel <= fuel' -> root fuel' h n = Some r.
Proof.
  induction fuel as [|fuel IH]; intros n r fuel' Hr Hle; [discriminate|].
  destruct fuel' as [|fuel']; [lia|]. simpl in *.
  destruct (h !! n) as [nd|]; [|done]. simpl in *.
  destruct (parent nd); [|done]. apply IH; [done|lia].
Qed.

End Chains.

Lemma fixture_descendant_3 : descendant fixture_store 0 3.
Proof.
  apply (descendant_child _ _ 1 (Node "11" (Some 0) [2; 3] 0)); [|done|].
  - apply (descendant_child _ _ 0 (Node "1" None [1; 4] 0)); [constructor|done|].
    apply list_elem_of_In. simpl. tauto.
  - apply list_elem_of_In. simpl. tauto.
Qed.

(** X7.  [depth] is the length of [indices]; [path()] starts at [root],
    ends at the node, has one node more than [indices] has positions,
    and each of its nodes is the parent of the next; [root] has no
    parent. *)
Theorem depth_path_root {T} (h : heap T) fuel n idxs :
  indices fuel h n = Some idxs ->
  depth fuel h n = Some (length idxs) /\
  exists r rd ps,
    root fuel h n = Some r /\ h !! r = Some rd /\ parent rd = None /\
    path (S fuel) h n = Some (r :: ps) /\ length ps = length idxs /\
    last (r :: ps) = Some n /\
    forall i a b, (r :: ps) !! i = Some a -> (r :: ps) !! S i = Some b ->
      exists bd, h !! b = Some bd /\ parent bd = Some a.
Proof.
  intros Hi.
  destruct (chain_spec_up fuel h n idxs Hi)
    as (Hd & r & rd & ps & Hr & Er & Hp & Hpath & Hlen & Hlast & Hlink & _).
  split; [done|]. exists r, rd, ps. done.
Qed.

Lemma depth_path_root_witness :
  depth 3 fixture_store 3 = Some 2 /\
  exists r rd ps,
    root 3 fixture_store 3 = Some r /\ fixture_store !! r = Some rd /\ parent rd = None /\
    path 4 fixture_store 3 = Some (r :: ps) /\ length ps = 2 /\
    last (r :: ps) = Some 3 /\
    forall i a b, (r :: ps) !! i = Some a -> (r :: ps) !! S i = Some b ->
      exists bd, fixture_store !! b = Some bd /\ parent bd = Some a.
Proof. exact (depth_path_root fixture_store 3 3 [0; 1] eq_refl). Defined.

(** X8.  Under Invariant 1, [root.fetch(n.indices)] is [n]. *)
Theorem fetch_inverts_indices {T} (h : heap T) fuel n idxs r :
  index_inv h -> indices fuel h n = Some idxs -> root fuel h n = Some r ->
  fetch h r ((fun i => Some (Z.of_nat i)) <$> idxs) = Some (Some n).
Proof.
  intros Hinv Hi Hr.
  destruct (chain_spec_up fuel h n idxs Hi)
    as (_ & r' & rd & ps & Hr' & _ & _ & _ & _ & _ & _ & Hf).
  assert (r' = r) as -> by congruence. now apply Hf.
Qed.

Lemma fetch_inverts_indices_witness :
  fetch fixture_store 0 [Some 0%Z; Some 1%Z] = Some (Some 3).
Proof.
  exact (fetch_inverts_indices fixture_store 3 3 [0; 1] 0 (proj1 fixture_forest)
           eq_refl eq_refl).
Defined.

(** X9.  [n.root] is [r] for every descendant [n] of a node [r] without
    parent, in a store where listed children are owned. *)
Theorem root_of_descendant {T} (h : heap T) r rd n :
  owned h -> h !! r = Some rd -> parent rd = None -> descendant h r n ->
  exists fuel0, forall fuel, fuel0 <= fuel -> root fuel h n = Some r.
Proof.
  intros Ho Er Hp Hd.
  assert (exists fuel0, root fuel0 h n = Some r) as [fuel0 H].
  { induction Hd as [|p pd c Hd [fuel IH] E Hc].
    - exists 1. simpl. rewrite Er. simpl. now rewrite Hp.
    - apply list_elem_of_lookup in Hc as [i Hi].
      destruct (Ho _ _ _ _ E Hi) as (cd & Ec & Hpc & _).
      exists (S fuel). simpl. rewrite Ec. simpl. now rewrite Hpc. }
  exists fuel0. intros fuel Hle. eapply root_mono; eauto.
Qed.

Lemma root_of_descendant_witness :
  exists fuel0, forall fuel, fuel0 <= fuel -> root fuel fixture_store 3 = Some 0.
Proof.
  exact (root_of_descendant fixture_store 0 _ 3 (proj2 fixture_forest) eq_refl eq_refl
           fixture_descendant_3).
Defined.

(** ** Siblings and positions *)

Section Siblings.
Context {T : Type}.
Implicit Types (h : heap T) (nd : node T) (n p c x r a b : loc).

Lemma filter_ne_delete (l : list loc) : forall i n,
  l !! i = Some n -> (forall j, l !! j = Some n -> j = i) ->
  filter (fun child => child <> n) l = delete i l.
Proof.
  induction l as [|a l IH]; intros i n Hi Hu; [done|].
  destruct i as [|i]; simpl in *.
  - injection Hi as ->. rewrite filter_cons_False by (intros H; now apply H).
    assert (n ∉ l) as Hn.
    { intros Hin. apply list_elem_of_lookup in Hin as [j Hj].
      specialize (Hu (S j) Hj). discriminate. }
    clear Hu IH. induction l as [|b l IHl]; [done|].
    apply not_elem_of_cons in Hn as [Hne Hn].
    assert (b <> n) as Hne' by congruence.
    rewrite filter_cons_True by done. f_equal. now apply IHl.
  - assert (a <> n) as Hne.
    { intros ->. specialize (Hu 0 eq_refl). discriminate. }
    rewrite filter_cons_True by done. f_equal. apply IH; [done|].
    intros j Hj. specialize (Hu (S j) Hj). lia.
Qed.

Lemma indexOf_unique (l : list loc) i n :
  l !! i = Some n -> (forall j, l !! j = Some n -> j = i) ->
  indexOf l n = Z.of_nat i.
Proof.
  intros Hi Hu. unfold indexOf.
  destruct (list_find (fun y => y = n) l) as [[j y]|] eqn:Ef.
  - apply list_find_Some in Ef as (Hj & -> & _). f_equal. now apply Hu.
  - apply list_find_None in Ef. rewrite Forall_forall in Ef.
    destruct (Ef n); [eapply list_elem_of_lookup_2; eauto|done].
Qed.

Lemma forest_listed_once h n nd p pd :
  forest h -> h !! n = Some nd -> parent nd = Some p -> h !! p = Some pd ->
  children pd !! index nd = Some n /\
  forall j, children pd !! j = Some n -> j = index nd.
Proof.
  intros [Hinv Ho] E Hp Ep.
  destruct (Hinv _ _ _ E Hp) as (pd' & Ep' & Hc).
  assert (pd' = pd) as -> by congruence.
  split; [done|]. intros j Hj. eapply owned_unique; eauto.
Qed.
End Siblings.

(** X10.  In a forest, [siblings] of a root is empty, and [siblings] of
    a node with a parent is the parent's children without the position
    of the node, in their order; the node itself is not among them. *)
Theorem siblings_are_the_others {T} (h : heap T) n nd :
  forest h -> h !! n = Some nd ->
  match parent nd with
  | None => siblings h n = Some []
  | Some p =>
      exists pd, h !! p = Some pd /\ children pd !! index nd = Some n /\
        siblings h n = Some (delete (index nd) (children pd)) /\
        n ∉ delete (index nd) (children pd)
  end.
Proof.
  intros Hf E. unfold siblings. rewrite E. simpl.
  destruct (parent nd) as [p|] eqn:Hp; [|done].
  destruct (proj1 Hf _ _ _ E Hp) as (pd & Ep & Hc).
  destruct (forest_listed_once h n nd p pd Hf E Hp Ep) as [_ Hu].
  exists pd. rewrite Ep. simpl. split; [done|]. split; [done|].
  rewrite (filter_ne_delete _ _ _ Hc Hu). split; [done|].
  rewrite <- (filter_ne_delete _ _ _ Hc Hu).
  intros Hin. apply list_elem_of_filter in Hin as [Hne _]. now apply Hne.
Qed.

Lemma siblings_are_the_others_witness :
  exists pd, fixture_store !! 1 = Some pd /\ children pd !! 0 = Some 2 /\
    siblings fixture_store 2 = Some (delete 0 (children pd)) /\
    2 ∉ delete 0 (children pd).
Proof.
  exact (siblings_are_the_others fixture_store 2 (Node "111" (Some 1) [] 0)
           fixture_forest eq_refl).
Defined.

(** X11.  In a forest the cached position of a node with a parent is
    what the getter [index] of the revisions without the cache computes,
    [this.parent.children.indexOf(this)]. *)
Theorem cached_index_is_indexOf {T} (h : heap T) n nd p :
  forest h -> h !! n = Some nd -> parent nd = Some p ->
  index_by_indexOf h n = Some (Z.of_nat (index nd)).
Proof.
  intros Hf E Hp. unfold index_by_indexOf. rewrite E. simpl. rewrite Hp.
  destruct (proj1 Hf _ _ _ E Hp) as (pd & Ep & Hc). rewrite Ep. simpl.
  destruct (forest_listed_once h n nd p pd Hf E Hp Ep) as [_ Hu].
  f_equal. now apply indexOf_unique.
Qed.

Lemma cached_index_is_indexOf_witness :
  index_by_indexOf fixture_store 4 = Some 1%Z.
Proof.
  exact (cached_index_is_indexOf fixture_store 4 (Node "12" (Some 0) [] 1) 0
           fixture_forest eq_refl eq_refl).
Defined.

(** ** Path keys as names *)

Section KeyInjective.

Lemma fmap_of_nat_inj (l1 l2 : list nat) :
  (fun i => Some (Z.of_nat i)) <$> l1 = (fun i => Some (Z.of_nat i)) <$> l2 -> l1 = l2.
Proof.
  revert l2. induction l1 as [|a l1 IH]; intros [|b l2] H; try done.
  simpl in H. injection H as Hab H. f_equal; [lia|auto].
Qed.

Lemma pathKey_of_nonempty idxs : idxs <> [] -> pathKey_of idxs <> EmptyString.
Proof.
  intros Hne. unfold pathKey_of. destruct idxs as [|i idxs]; [done|]. simpl length.
  cbn [Nat.eqb].
  pose proof (rle_nonnil _ _ (pathKey_parts_rle (i :: idxs)) ltac:(done)) as Hn.
  destruct (pathKey_parts (i :: idxs)) as [|z zs]; [done|].
  apply concat_nonempty, number_to_string_nonempty.
Qed.

Lemma pathKey_of_decode idxs :
  idxs <> [] ->
  concat (expand_part <$> (Number <$> split_comma (pathKey_of idxs)))
  = (fun i => Some (Z.of_nat i)) <$> idxs.
Proof.
  intros Hne. unfold pathKey_of. destruct idxs as [|i idxs]; [done|].
  simpl length. cbn [Nat.eqb].
  pose proof (pathKey_parts_rle (i :: idxs)) as Hr.
  rewrite split_comma_numbers by (eapply rle_nonnil; eauto).
  rewrite Number_fmap. now apply rle_expand.
Qed.

Lemma pathKey_of_inj idxs1 idxs2 : pathKey_of idxs1 = pathKey_of idxs2 -> idxs1 = idxs2.
Proof.
  intros H.
  destruct (decide (idxs1 = [])) as [->|H1]; destruct (decide (idxs2 = [])) as [->|H2].
  - done.
  - symmetry in H. now apply pathKey_of_nonempty in H.
  - now apply pathKey_of_nonempty in H.
  - apply fmap_of_nat_inj.
    rewrite <- (pathKey_of_decode idxs1), <- (pathKey_of_decode idxs2) by done.
    now rewrite H.
Qed.
End KeyInjective.

(** X12.  Within one tree a path key names one node: under Invariant 1,
    two nodes with the same root and the same [pathKey] are the same
    node. *)
Theorem pathKey_identifies_node {T} (h : heap T) fuel1 fuel2 n1 n2 r key :
  index_inv h ->
  root fuel1 h n1 = Some r -> root fuel2 h n2 = Some r ->
  pathKey fuel1 h n1 = Some key -> pathKey fuel2 h n2 = Some key ->
  n1 = n2.
Proof.
  intros Hinv Hr1 Hr2 Hk1 Hk2. unfold pathKey in Hk1, Hk2.
  destruct (indices fuel1 h n1) as [idxs1|] eqn:Hi1; [|discriminate].
  destruct (indices fuel2 h n2) as [idxs2|] eqn:Hi2; [|discriminate].
  simpl in Hk1, Hk2. injection Hk1 as Hk1. injection Hk2 as Hk2.
  assert (idxs1 = idxs2) as -> by (apply pathKey_of_inj; congruence).
  destruct (chain_spec_up fuel1 h n1 idxs2 Hi1)
    as (_ & r1 & _ & _ & Hr1' & _ & _ & _ & _ & _ & _ & Hf1).
  destruct (chain_spec_up fuel2 h n2 idxs2 Hi2)
    as (_ & r2 & _ & _ & Hr2' & _ & _ & _ & _ & _ & _ & Hf2).
  assert (r1 = r) as -> by congruence. assert (r2 = r) as -> by congruence.
  specialize (Hf1 Hinv). specialize (Hf2 Hinv). congruence.
Qed.

Lemma pathKey_identifies_node_witness :
  root 3 fixture_store 3 = Some 0 /\ pathKey 3 fixture_store 3 = Some "1,-1" /\ 3 = 3.
Proof.
  split; [reflexivity|]. split; [reflexivity|].
  exact (pathKey_identifies_node fixture_store 3 3 3 3 0 "1,-1" (proj1 fixture_forest)
           eq_refl eq_refl eq_refl eq_refl).
Defined.

Section FetchFacts.
Context {T : Type}.
Implicit Types (h : heap T) (nd : node T) (n p c x r a b : loc).

Lemma at_number_elem (l : list loc) i c : at_number l i = Some c -> c ∈ l.
Proof.
  unfold at_number. destruct (i <? 0)%Z; [done|]. apply list_elem_of_lookup_2.
Qed.

End FetchFacts.

(** X13.  In a store where listed children are owned, [fetch(indices)]
    returns [null] or a descendant of the node it is called on, for any
    list of indices. *)
Theorem fetch_stays_below {T} (h : heap T) n nd idxs :
  owned h -> h !! n = Some nd ->
  fetch h n idxs = Some None \/
  exists c, fetch h n idxs = Some (Some c) /\ descendant h n c /\ is_Some (h !! c).
Proof.
  intros Ho. revert n nd. induction idxs as [|i idxs IH]; intros n nd E.
  - right. exists n. split; [done|]. split; [apply descendant_self|eauto].
  - simpl. rewrite E. simpl.
    destruct (i ≫= at_number (children nd)) as [c|] eqn:Ec; [|now left].
    assert (c ∈ children nd) as Hc.
    { destruct i as [i|]; [|done]. simpl in Ec. eapply at_number_elem; eauto. }
    destruct (owned_valid _ _ _ _ Ho E Hc) as [cd Ecd].
    destruct (IH c cd Ecd) as [->|(d & -> & Hd & Hs)]; [now left|].
    right. exists d. split; [done|]. split; [|done].
    eapply descendant_trans; [|exact Hd]. eapply descendant_step; eauto.
Qed.

Lemma fetch_stays_below_witness :
  fetch fixture_store 1 [Some 1%Z; Some 0%Z] = Some None \/
  exists c, fetch fixture_store 1 [Some 1%Z; Some 0%Z] = Some (Some c) /\
            descendant fixture_store 1 c /\ is_Some (fixture_store !! c).
Proof.
  exact (fetch_stays_below fixture_store 1 _ [Some 1%Z; Some 0%Z]
           (proj2 fixture_forest) eq_refl).
Defined.

(** ** [swap], [add] and [drop] on the cells *)

Section Mutations.
Context {T : Type}.
Implicit Types (h : heap T) (nd : node T) (n p c x r : loc).

Lemma node_eq (a b : node T) :
  model b = model a -> parent b = parent a -> children b = children a ->
  index b = index a -> b = a.
Proof. destruct a, b. simpl. congruence. Qed.

Lemma store_eq h h' :
  length h' = length h ->
  (forall x a, h !! x = Some a -> h' !! x = Some a) -> h' = h.
Proof.
  intros Hl H. apply list_eq. intros x.
  destruct (h !! x) as [a|] eqn:E; [now apply H|].
  apply lookup_ge_None. apply lookup_ge_None in E. lia.
Qed.

Lemma swap_range_error this (i j : Z) h td :
  h !! this = Some td ->
  (i < 0 \/ j < 0 \/ Z.of_nat (length (children td)) <= i
   \/ Z.of_nat (length (children td)) <= j)%Z ->
  swap this i j h = Throw RangeError h.
Proof.
  intros Et Hr. unfold swap. mstep (get_children_Ret _ _ _ Et).
  replace ((i <? 0)%Z || (j <? 0)%Z || (Z.of_nat (length (children td)) <=? i)%Z
           || (Z.of_nat (length (children td)) <=? j)%Z) with true; [done|].
  symmetry. rewrite !orb_true_iff, !Z.ltb_lt, !Z.leb_le. tauto.
Qed.

Lemma swap_same this (i : Z) h td :
  h !! this = Some td -> (0 <= i < Z.of_nat (length (children td)))%Z ->
  swap this i i h = Ret tt h.
Proof.
  intros Et Hr. unfold swap. mstep (get_children_Ret _ _ _ Et).
  replace ((i <? 0)%Z || (i <? 0)%Z || (Z.of_nat (length (children td)) <=? i)%Z
           || (Z.of_nat (length (children td)) <=? i)%Z) with false.
  2:{ symmetry. repeat (apply orb_false_intro);
      [apply Z.ltb_ge|apply Z.ltb_ge|apply Z.leb_gt|apply Z.leb_gt]; lia. }
  now rewrite Z.eqb_refl.
Qed.

(** A new node keeps a forest. *)
Lemma new_TreeNode_forest (m : T) h : forest h -> forest (h ++ [Node m None [] 0]).
Proof.
  intros [Hinv Ho]. split.
  - intros n nd p E Hp. apply lookup_app_Some in E as [E|[Hl E]].
    + destruct (Hinv _ _ _ E Hp) as (pd & Ep & Hc). exists pd.
      split; [now apply lookup_app_l_Some|done].
    + apply list_lookup_singleton_Some in E as [_ <-]. discriminate.
  - intros p pd i c E Hc. apply lookup_app_Some in E as [E|[Hl E]].
    + destruct (Ho _ _ _ _ E Hc) as (cd & Ec & H). exists cd.
      split; [now apply lookup_app_l_Some|done].
    + apply list_lookup_singleton_Some in E as [_ <-]. done.
Qed.
End Mutations.

(** X14.  [swap(i, j)] with integers [i] and [j], one of them negative
    or not below the number of children, throws [RangeError] and leaves
    the store as it was, whatever the store.  With both positions in
    range, in a store where listed children are owned, it returns, the
    two children have changed places in the children of the node, their
    cached positions are [j] and [i], and nothing else has changed. *)
Theorem swap_exchanges {T} (h : heap T) this td (i j : Z) :
  h !! this = Some td ->
  ((i < 0 \/ j < 0 \/ Z.of_nat (length (children td)) <= i
    \/ Z.of_nat (length (children td)) <= j)%Z ->
   swap this i j h = Throw RangeError h) /\
  (owned h ->
   (0 <= i < Z.of_nat (length (children td)))%Z ->
   (0 <= j < Z.of_nat (length (children td)))%Z ->
   exists ci cj h',
     children td !! Z.to_nat i = Some ci /\ children td !! Z.to_nat j = Some cj /\
     swap this i j h = Ret tt h' /\ length h' = length h /\
     forall x a, h !! x = Some a ->
       exists b, h' !! x = Some b /\
         model b = model a /\ parent b = parent a /\
         children b = (if decide (x = this)
                       then <[Z.to_nat j := ci]> (<[Z.to_nat i := cj]> (children a))
                       else children a) /\
         index b = (if decide (x = ci) then Z.to_nat j
                    else if decide (x = cj) then Z.to_nat i else index a)).
Proof.
  intros Et. split; [now apply swap_range_error|].
  intros Ho Hi Hj.
  destruct (lookup_lt_is_Some_2 (children td) (Z.to_nat i)) as [ci Hci]; [lia|].
  destruct (lookup_lt_is_Some_2 (children td) (Z.to_nat j)) as [cj Hcj]; [lia|].
  exists ci, cj.
  destruct (decide (i = j)) as [->|Hne].
  - exists h. split; [done|]. split; [done|]. split; [now apply (swap_same _ _ _ td)|].
    assert (cj = ci) as -> by congruence.
    split; [done|]. intros x a Ex. exists a. split; [done|].
    split; [done|]. split; [done|]. split.
    + destruct (decide (x = this)) as [->|]; [|done].
      assert (a = td) as -> by congruence.
      rewrite list_insert_insert_eq. symmetry. now apply list_insert_id.
    + destruct (decide (x = ci)) as [->|]; [|done].
      destruct (Ho _ _ _ _ Et Hci) as (a' & Ea' & _ & Hia). congruence.
  - destruct (swap_spec this i j h td ci cj) as (h' & E & W);
      [done|eauto using owned_valid|done|done|lia|done|lia|].
    exists h'. split; [done|]. split; [done|]. split; [done|].
    split; [apply W|].
    intros x a Ex. rewrite (relinked_lookup _ _ _ _ _ _ _ W Ex). eexists. done.
Qed.

Lemma swap_exchanges_witness :
  swap 0 0 2 fixture_store = Throw RangeError fixture_store /\
  exists ci cj h',
    [1; 4] !! Z.to_nat 0 = Some ci /\ [1; 4] !! Z.to_nat 1 = Some cj /\
    swap 0 0 1 fixture_store = Ret tt h' /\ length h' = length fixture_store /\
    forall x a, fixture_store !! x = Some a ->
      exists b, h' !! x = Some b /\
        model b = model a /\ parent b = parent a /\
        children b = (if decide (x = 0)
                      then <[Z.to_nat 1 := ci]> (<[Z.to_nat 0 := cj]> (children a))
                      else children a) /\
        index b = (if decide (x = ci) then Z.to_nat 1
                   else if decide (x = cj) then Z.to_nat 0 else index a).
Proof.
  split.
  - apply (proj1 (swap_exchanges fixture_store 0 (Node "1" None [1; 4] 0) 0 2 eq_refl)).
    right. right. right. simpl. lia.
  - apply (proj2 (swap_exchanges fixture_store 0 (Node "1" None [1; 4] 0) 0 1 eq_refl));
      [exact (proj2 fixture_forest)|simpl; lia..].
Defined.



Section AddDrop.
Context {T : Type}.
Implicit Types (h : heap T) (nd : node T) (n p c x r : loc).

Lemma add_cells this child idx h td cd :
  forest h -> h !! this = Some td -> h !! child = Some cd -> parent cd = None ->
  in_range idx (length (children td)) ->
  let k := add_position idx (length (children td)) in
  exists h', add this child idx h = Ret child h' /\ length h' = length h /\
    forall x a, h !! x = Some a ->
      exists b, h' !! x = Some b /\
        model b = model a /\
        parent b = (if decide (x = child) then Some this else parent a) /\
        children b = (if decide (x = this) then added idx child (children a)
                      else children a) /\
        index b = (if decide (x = child) then k
                   else if decide (parent a = Some this /\ k <= index a)
                        then index a + 1 else index a).
Proof.
  intros [Hinv Ho] Et Ec Hroot Hr k.
  assert (forall i, children td !! i = Some child -> False) as Hfresh.
  { intros i Hi. destruct (Ho _ _ _ _ Et Hi) as (cd' & Ec' & Hp & _). congruence. }
  destruct idx as [i|]; simpl in Hr, k.
  - destruct (add_insert_spec this child i h td cd Et Ec) as (h' & E & W);
      [eauto using owned_valid|done|].
    simpl in W. fold k in W.
    exists h'. split; [done|]. split; [apply W|].
    intros x a Ex. destruct (proj2 W _ _ Ex) as (b & Eb & Hm & Hp & Hc & Hidx).
    exists b. split; [done|]. split; [done|]. split; [done|]. split.
    { rewrite Hc. destruct (decide (x = this)) as [->|]; [|done].
      assert (a = td) as -> by congruence. done. }
    assert (k <= length (children td)) as Hk by (unfold k; lia).
    destruct (decide (x = child)) as [->|Hne].
    + destruct Hidx as [[Hx _]|(j & Hj & Hcj & ->)].
      * destruct Hx. rewrite splice_in_drop by done. left.
      * destruct (decide (j = k)) as [->|Hjk]; [done|].
        destruct j as [|j]; [lia|].
        rewrite splice_in_lookup_gt in Hcj by lia. destruct (Hfresh _ Hcj).
    + destruct Hidx as [[Hx ->]|(j & Hj & Hcj & ->)].
      * rewrite decide_False; [done|]. intros [Hpa Hle].
        destruct (Hinv _ _ _ Ex Hpa) as (pd & Ep & Hcx).
        assert (pd = td) as -> by congruence.
        apply Hx. rewrite splice_in_drop by done. right.
        apply list_elem_of_lookup. exists (index a - k).
        rewrite lookup_drop. replace (k + (index a - k)) with (index a) by lia. done.
      * destruct (decide (j = k)) as [->|Hjk].
        { rewrite splice_in_lookup_eq in Hcj by done. congruence. }
        destruct j as [|j]; [lia|].
        rewrite splice_in_lookup_gt in Hcj by lia.
        destruct (Ho _ _ _ _ Et Hcj) as (a' & Ea' & Hpa & Hia).
        assert (a' = a) as -> by congruence.
        rewrite decide_True by (split; [done|lia]). lia.
  - destruct (add_append_spec this child h td cd Et Ec) as (h' & E & W).
    exists h'. split; [done|]. split; [apply W|].
    intros x a Ex. rewrite (relinked_lookup _ _ _ _ _ _ _ W Ex).
    eexists. split; [done|]. simpl. split; [done|]. split; [done|]. split; [done|].
    destruct (decide (x = child)) as [->|Hne]; [done|].
    rewrite decide_False; [done|]. intros [Hpa Hle].
    destruct (Hinv _ _ _ Ex Hpa) as (pd & Ep & Hcx).
    assert (pd = td) as -> by congruence.
    apply lookup_lt_Some in Hcx. unfold k in Hle. lia.
Qed.

Lemma delete_added idx child (cs : list loc) :
  in_range idx (length cs) ->
  delete (add_position idx (length cs)) (added idx child cs) = cs.
Proof.
  destruct idx as [i|]; simpl; intros Hr.
  - unfold splice_in. apply list_eq. intros j.
    set (k := Z.to_nat i). assert (k <= length cs) by (unfold k; lia).
    destruct (decide (j < k)).
    + rewrite list_lookup_delete_lt by done.
      rewrite lookup_app_l by (rewrite length_take; lia).
      now apply lookup_take_lt.
    + rewrite list_lookup_delete_ge by lia.
      rewrite lookup_app_r by (rewrite length_take; lia).
      rewrite length_take. replace (S j - k `min` length cs) with (S (j - k)) by lia.
      simpl. rewrite lookup_drop. f_equal. lia.
  - apply list_eq. intros j. destruct (decide (j < length cs)).
    + rewrite list_lookup_delete_lt by done. now apply lookup_app_l.
    + rewrite list_lookup_delete_ge by lia.
      rewrite !(proj2 (lookup_ge_None _ _)); [done|lia|rewrite length_app; simpl; lia].
Qed.

Lemma added_elem idx child (cs : list loc) c :
  c ∈ added idx child cs -> c = child \/ c ∈ cs.
Proof.
  destruct idx as [i|]; simpl.
  - apply splice_in_elem.
  - rewrite elem_of_app, list_elem_of_singleton. tauto.
Qed.

End AddDrop.

(** X16.  In a forest, [add(child, index?)] of a child without parent,
    with the position in range or omitted, puts the child at that
    position (at the end when omitted) of the children of the node, makes
    the node its parent, moves the cached position of each sibling at or
    after the position up by one, and changes nothing else. *)
Theorem add_inserts_at {T} (h : heap T) this child idx td cd :
  forest h -> h !! this = Some td -> h !! child = Some cd -> parent cd = None ->
  in_range idx (length (children td)) ->
  exists h', add this child idx h = Ret child h' /\ length h' = length h /\
    forall x a, h !! x = Some a ->
      exists b, h' !! x = Some b /\
        model b = model a /\
        parent b = (if decide (x = child) then Some this else parent a) /\
        children b = (if decide (x = this) then added idx child (children a)
                      else children a) /\
        index b = (if decide (x = child) then add_position idx (length (children td))
                   else if decide (parent a = Some this
                                   /\ add_position idx (length (children td)) <= index a)
                        then index a + 1 else index a).
Proof. intros Hf Et Ec Hroot Hr. exact (add_cells this child idx h td cd Hf Et Ec Hroot Hr). Qed.

Lemma add_inserts_at_witness :
  exists h', add 1 5 (Some 1%Z) (fixture_store ++ [Node "x" None [] 0]) = Ret 5 h' /\
    length h' = length (fixture_store ++ [Node "x" None [] 0]) /\
    forall x a, (fixture_store ++ [Node "x" None [] 0]) !! x = Some a ->
      exists b, h' !! x = Some b /\
        model b = model a /\
        parent b = (if decide (x = 5) then Some 1 else parent a) /\
        children b = (if decide (x = 1) then added (Some 1%Z) 5 (children a)
                      else children a) /\
        index b = (if decide (x = 5) then add_position (Some 1%Z) (length [2; 3])
                   else if decide (parent a = Some 1
                                   /\ add_position (Some 1%Z) (length [2; 3]) <= index a)
                        then index a + 1 else index a).
Proof.
  refine (add_inserts_at (fixture_store ++ [Node "x" None [] 0]) 1 5 (Some 1%Z)
            (Node "11" (Some 0) [2; 3] 0) (Node "x" None [] 0)
            (new_TreeNode_forest "x" fixture_store fixture_forest)
            eq_refl eq_refl eq_refl _).
  simpl. lia.
Defined.

(** X17.  In a forest, adding a node that has no parent and cached
    position 0 (as a new or a dropped node has) and dropping it again
    gives back the store. *)
Theorem add_then_drop_restores {T} (h : heap T) this child idx td cd :
  forest h -> h !! this = Some td -> h !! child = Some cd ->
  parent cd = None -> index cd = 0 ->
  in_range idx (length (children td)) ->
  exists h', add this child idx h = Ret child h' /\ drop_node child h' = Ret child h.
Proof.
  intros Hf Et Ec Hroot Hz Hr. pose proof Hf as [Hinv Ho].
  destruct (add_cells this child idx h td cd Hf Et Ec Hroot Hr) as (h1 & E1 & L1 & W1).
  set (k := add_position idx (length (children td))) in *.
  exists h1. split; [done|].
  destruct (W1 _ _ Ec) as (c1 & Ec1 & Hmc & Hpc & Hcc & Hic).
  destruct (W1 _ _ Et) as (t1 & Et1 & Hmt & Hpt & Hct & Hit).
  rewrite decide_True in Hpc by done. rewrite decide_True in Hic by done.
  rewrite decide_True in Hct by done.
  destruct (drop_spec child h1 c1 this t1 Ec1 Hpc Et1) as (h2 & E2 & W2).
  { rewrite Hct. intros c Hc. apply added_elem in Hc as [->|Hc]; [eauto|].
    destruct (owned_valid _ _ _ _ Ho Et Hc) as [a Ea].
    destruct (W1 _ _ Ea) as (b & Eb & _). eauto. }
  rewrite E2. f_equal. simpl in W2. rewrite Hic, Hct in W2.
  unfold k in W2. rewrite delete_added in W2 by done. fold k in W2.
  apply store_eq; [pose proof (proj1 W2); congruence|].
  intros x a Ex. destruct (W1 _ _ Ex) as (b & Eb & Hm & Hp & Hc & Hi).
  destruct (proj2 W2 _ _ Eb) as (d & Ed & Hm' & Hp' & Hc' & Hi').
  rewrite Ed. f_equal. apply node_eq.
  - congruence.
  - rewrite Hp', Hp. destruct (decide (x = child)) as [->|]; [|done]. congruence.
  - rewrite Hc', Hc. destruct (decide (x = this)) as [->|]; [|done]. congruence.
  - destruct (decide (x = child)) as [->|Hne]; [congruence|].
    destruct Hi' as [[Hx ->]|(j & Hj & Hcj & ->)].
    + rewrite Hi. rewrite decide_False; [done|]. intros [Hpa Hle].
      destruct (Hinv _ _ _ Ex Hpa) as (pd & Ep & Hcx).
      assert (pd = td) as -> by congruence.
      apply Hx. apply list_elem_of_lookup. exists (index a - k).
      rewrite lookup_drop. replace (k + (index a - k)) with (index a) by lia. done.
    + destruct (Ho _ _ _ _ Et Hcj) as (a' & Ea' & _ & Hia). congruence.
Qed.

Lemma add_then_drop_restores_witness :
  exists h', add 1 5 (Some 0%Z) (fixture_store ++ [Node "x" None [] 0]) = Ret 5 h' /\
             drop_node 5 h' = Ret 5 (fixture_store ++ [Node "x" None [] 0]).
Proof.
  refine (add_then_drop_restores (fixture_store ++ [Node "x" None [] 0]) 1 5 (Some 0%Z)
            (Node "11" (Some 0) [2; 3] 0) (Node "x" None [] 0)
            (new_TreeNode_forest "x" fixture_store fixture_forest)
            eq_refl eq_refl eq_refl eq_refl _).
  simpl. lia.
Defined.

Section DropAdd.
Context {T : Type}.
Implicit Types (h : heap T) (nd : node T) (n p c x r : loc).

Lemma drop_cells this h td p :
  forest h -> h !! this = Some td -> parent td = Some p ->
  exists pd h',
    h !! p = Some pd /\ children pd !! index td = Some this /\
    drop_node this h = Ret this h' /\ forest h' /\
    length h' = length h /\
    forall x a, h !! x = Some a ->
      exists b, h' !! x = Some b /\
        model b = model a /\
        parent b = (if decide (x = this) then None else parent a) /\
        children b = (if decide (x = p) then delete (index td) (children a)
                      else children a) /\
        index b = (if decide (x = this) then 0
                   else if decide (parent a = Some p /\ index td < index a)
                        then index a - 1 else index a).
Proof.
  intros Hf Et Hp. pose proof Hf as [Hinv Hown].
  destruct (Hinv _ _ _ Et Hp) as (pd & Ep & Hthis).
  destruct (drop_spec this h td p pd Et Hp Ep) as (h' & E & W);
    [eauto using owned_valid|].
  exists pd, h'. split; [done|]. split; [done|]. split; [done|].
  split.
  { destruct (drop_index_inv this h td Hinv
                (fun q _ => owned_point_back h q Hown) Et) as (h1 & E1 & Hi1).
    destruct (drop_owned this h td Hf Et) as (h2 & E2 & Ho2).
    rewrite E in E1, E2. injection E1 as <-. injection E2 as <-. done. }
  split; [apply W|].
  intros x a Ex. destruct (proj2 W _ _ Ex) as (b & Eb & Hm & Hpb & Hc & Hidx).
  exists b. split; [done|]. split; [done|]. split; [done|]. split.
  { rewrite Hc. destruct (decide (x = p)) as [->|]; [|done]. congruence. }
  destruct (decide (x = this)) as [->|Hne]; [done|].
  set (idx := index td) in *.
  destruct Hidx as [[Hx ->]|(j & Hj & Hcj & ->)].
  - rewrite decide_False; [done|]. intros [Hpa Hlt].
    destruct (Hinv _ _ _ Ex Hpa) as (pd2 & Ep2 & Hc2).
    assert (pd2 = pd) as -> by congruence.
    apply Hx. apply list_elem_of_lookup. exists (index a - 1 - idx).
    rewrite lookup_drop, list_lookup_delete_ge by lia.
    replace (S (idx + (index a - 1 - idx))) with (index a) by lia. done.
  - rewrite list_lookup_delete_ge in Hcj by done.
    destruct (Hown _ _ _ _ Ep Hcj) as (a' & Ea' & Hpa & Hia).
    assert (a' = a) as -> by congruence.
    rewrite decide_True by (split; [done|lia]). lia.
Qed.

Lemma splice_in_delete (cs : list loc) i c :
  cs !! i = Some c -> splice_in i c (delete i cs) = cs.
Proof.
  intros Hi. unfold splice_in.
  pose proof (lookup_lt_Some _ _ _ Hi) as Hlt.
  apply list_eq. intros j.
  destruct (decide (j < i)).
  - rewrite lookup_app_l by (rewrite length_take, length_delete by eauto; lia).
    rewrite lookup_take_lt by done. now apply list_lookup_delete_lt.
  - rewrite lookup_app_r by (rewrite length_take, length_delete by eauto; lia).
    rewrite length_take, length_delete by eauto.
    replace (i `min` (length cs - 1)) with i by lia.
    destruct (decide (j = i)) as [->|].
    + rewrite Nat.sub_diag. done.
    + replace (j - i) with (S (j - i - 1)) by lia. simpl.
      rewrite lookup_drop, list_lookup_delete_ge by lia. f_equal. lia.
Qed.

End DropAdd.

(** X18.  In a forest, dropping a node and adding it back to its former
    parent at its former position gives back the store. *)
Theorem drop_then_add_restores {T} (h : heap T) this td p :
  forest h -> h !! this = Some td -> parent td = Some p ->
  exists h', drop_node this h = Ret this h' /\
             add p this (Some (Z.of_nat (index td))) h' = Ret this h.
Proof.
  intros Hf Et Hp. pose proof Hf as [Hinv Ho].
  destruct (drop_cells this h td p Hf Et Hp)
    as (pd & h1 & Ep & Hthis & E1 & Hf1 & L1 & W1).
  exists h1. split; [done|].
  destruct (W1 _ _ Et) as (t1 & Et1 & Hmt & Hpt & Hct & Hit).
  destruct (W1 _ _ Ep) as (p1 & Ep1 & Hmp & Hpp & Hcp & Hip).
  rewrite decide_True in Hpt by done. rewrite decide_True in Hcp by done.
  pose proof (lookup_lt_Some _ _ _ Hthis) as Hlt.
  assert (length (children p1) = length (children pd) - 1) as Hlen.
  { rewrite Hcp. apply length_delete. eauto. }
  destruct (add_cells p this (Some (Z.of_nat (index td))) h1 p1 t1 Hf1 Ep1 Et1 Hpt)
    as (h2 & E2 & L2 & W2).
  { simpl. lia. }
  rewrite E2. f_equal. simpl in W2. rewrite Nat2Z.id in W2.
  apply store_eq; [congruence|].
  intros x a Ex. destruct (W1 _ _ Ex) as (b & Eb & Hm & Hpb & Hc & Hi).
  destruct (W2 _ _ Eb) as (d & Ed & Hm' & Hp' & Hc' & Hi').
  rewrite Ed. f_equal. apply node_eq.
  - congruence.
  - rewrite Hp', Hpb. destruct (decide (x = this)) as [->|]; [|done]. congruence.
  - rewrite Hc', Hc. destruct (decide (x = p)) as [->|]; [|done].
    assert (a = pd) as -> by congruence. now apply splice_in_delete.
  - rewrite Hi'. destruct (decide (x = this)) as [->|Hne]; [congruence|].
    rewrite Hpb, Hi.
    destruct (decide (parent a = Some p /\ index td < index a)) as [[Hpa Hl]|Hn].
    + rewrite decide_True by (split; [done|lia]). lia.
    + rewrite decide_False; [done|]. intros [Hpa Hle].
      apply Hn. split; [done|].
      destruct (decide (index a = index td)) as [Heq|]; [|lia].
      destruct (Hinv _ _ _ Ex Hpa) as (pd2 & Ep2 & Hc2).
      assert (pd2 = pd) as -> by congruence.
      rewrite Heq in Hc2. congruence.
Qed.

Lemma drop_then_add_restores_witness :
  exists h', drop_node 1 fixture_store = Ret 1 h' /\
             add 0 1 (Some (Z.of_nat 0)) h' = Ret 1 fixture_store.
Proof.
  exact (drop_then_add_restores fixture_store 1 (Node "11" (Some 0) [2; 3] 0) 0
           fixture_forest eq_refl eq_refl).
Defined.

(** ** [parse], [toObject], [clone] and [map] *)

Section ObjectFacts.
Context {T : Type}.
Implicit Types (h : heap T) (nd : node T) (n p c x r : loc) (o : parseable T).

Lemma parseable_ind' (P : parseable T -> Prop) :
  (forall m cs, Forall P cs -> P (Parseable m cs)) -> forall o, P o.
Proof.
  intros H. fix IH 1. intros [m cs]. apply H.
  induction cs as [|c cs IHcs]; constructor; [apply IH|exact IHcs].
Qed.


Lemma tree_of_object_of (t : tree T) : tree_of (object_of t) = t.
Proof.
  induction t as [m ts IH] using tree_ind'. simpl. f_equal.
  rewrite map_map. induction IH as [|c cs Hc _ IHcs]; simpl; [done|]. now f_equal.
Qed.

Lemma mapM_fmap {A B C} (f : A -> option B) (g : B -> C) (l : list A) :
  mapM (fun a => g <$> f a) l = fmap g <$> mapM f l.
Proof.
  induction l as [|a l IH]; [done|]. simpl. rewrite IH.
  destruct (f a); simpl; [|done]. destruct (mapM f l); done.
Qed.

Lemma toObject_to_tree fuel h : forall this,
  toObject fuel h this = object_of <$> to_tree fuel h this.
Proof.
  induction fuel as [|fuel IH]; intros this; [done|]. simpl.
  destruct (h !! this) as [nd|]; [|done]. simpl.
  assert (mapM (toObject fuel h) (children nd)
          = mapM (fun c => object_of <$> to_tree fuel h c) (children nd)) as ->.
  { generalize (children nd). intros l. induction l as [|c l IHl]; [done|].
    simpl. now rewrite IH, IHl. }
  rewrite mapM_fmap. destruct (mapM (to_tree fuel h) (children nd)); done.
Qed.

Lemma parse_unfold m cs h :
  parse (Parseable m cs) h =
  (let* nd := new_TreeNode m in parse_each nd cs ;;; ret nd) h.
Proof. reflexivity. Qed.

Lemma add_root_kept n c h td cd h' :
  h !! n = Some td -> h !! c = Some cd -> n <> c ->
  add n c None h = Ret c h' ->
  exists td', h' !! n = Some td' /\ parent td' = parent td.
Proof.
  intros En Ec Hne E.
  destruct (add_append_spec n c h td cd En Ec) as (h2 & E2 & W).
  rewrite E in E2. injection E2 as <-.
  rewrite (relinked_lookup _ _ _ _ _ _ _ W En). eexists. split; [done|].
  simpl. now rewrite decide_False.
Qed.

Lemma add_root_forest n c h td cd h' :
  forest h -> h !! n = Some td -> h !! c = Some cd -> parent cd = None ->
  add n c None h = Ret c h' -> forest h'.
Proof.
  intros [Hinv Ho] En Ec Hroot E.
  destruct (add_append_index_inv n c h td cd Hinv En Ec) as (h1 & E1 & Hi).
  destruct (add_append_owned n c h td cd Ho En Ec Hroot) as (h2 & E2 & Ho2).
  rewrite E in E1, E2. injection E1 as <-. injection E2 as <-. done.
Qed.

Lemma parse_each_spec h0 L n m : forall cs,
  Forall parses cs -> forall hi ts,
  n < L -> L <= length hi -> length h0 <= n -> h0 `prefix_of` hi ->
  building L hi n m ts ->
  (exists cell, hi !! n = Some cell /\ parent cell = None) ->
  exists hf, parse_each n cs hi = Ret tt hf /\
    building L hf n m (ts ++ map tree_of cs) /\ h0 `prefix_of` hf /\
    (exists cell, hf !! n = Some cell /\ parent cell = None) /\
    (forest hi -> forest hf).
Proof.
  induction 1 as [|o cs Ho Hcs IH]; intros hi ts Hn HL H0 Hpre Hb Hroot.
  - exists hi. rewrite app_nil_r. done.
  - simpl. destruct (Ho hi) as (h2 & E2 & Hpre2 & Ht2 & (cd & Ec & Hcroot) & Hf2).
    mstep E2.
    destruct (attach_built h0 L hi h2 n m ts (length hi) (tree_of o))
      as (h3 & Ea & Hb3 & Hpre3 & HL3); [done..|].
    mstep Ea.
    destruct Hroot as (cell & En & Hnroot).
    pose proof (prefix_lookup_Some _ _ _ _ En Hpre2) as En2.
    destruct (add_root_kept n (length hi) h2 cell cd h3 En2 Ec ltac:(lia) Ea)
      as (cell3 & En3 & Hp3).
    destruct (IH h3 (ts ++ [tree_of o])) as (hf & Ef & Hbf & Hpref & Hrf & Hff);
      [done..| |].
    { exists cell3. split; [done|]. congruence. }
    exists hf. split; [exact Ef|]. split; [now rewrite <- app_assoc in Hbf|].
    split; [done|]. split; [done|].
    intros Hfi. apply Hff.
    exact (add_root_forest n (length hi) h2 cell cd h3 (Hf2 Hfi) En2 Ec Hcroot Ea).
Qed.

Lemma parse_parses o : parses o.
Proof.
  induction o as [m cs IH] using parseable_ind'. intros h.
  rewrite parse_unfold. unfold new_TreeNode at 1. rewrite bind_unfold.
  set (n := length h). set (h1 := h ++ [Node m None [] 0]).
  assert (h1 !! n = Some (Node m None [] 0)) as En by (now apply list_lookup_middle).
  destruct (parse_each_spec h (S n) n m cs IH h1 [])
    as (hf & Ef & Hbf & Hpref & Hrf & Hff);
    [lia|unfold h1; rewrite length_app; simpl; lia|done|now apply prefix_app_r| | |].
  { exists (Node m None [] 0). split; [done|]. split; [done|]. constructor. }
  { eauto. }
  exists hf. mstep Ef. split; [done|]. split; [done|]. split.
  - eapply building_tree_at; [done| |exact Hbf]. lia.
  - split; [done|]. intros Hf. apply Hff. now apply new_TreeNode_forest.
Qed.

End ObjectFacts.

Section Copies.
Context {T : Type}.
Implicit Types (h : heap T) (nd : node T) (n p c x r : loc).

Lemma to_tree_height fuel h : forall this (t : tree T),
  to_tree fuel h this = Some t -> theight t <= fuel.
Proof.
  induction fuel as [|fuel IH]; intros this t Ht; [discriminate|].
  apply to_tree_Some_inv in Ht as (f & nd & ts & [= <-] & E & Hts & ->).
  rewrite theight_unfold. apply le_n_S.
  induction Hts as [|c t cs ts Hc _ IHts]; simpl; [lia|].
  apply IH in Hc. lia.
Qed.

Lemma subtree_to_tree fuel h : forall this (ta : tree loc),
  subtree fuel h this = Some ta -> exists t, to_tree fuel h this = Some t.
Proof.
  induction fuel as [|fuel IH]; intros this ta Ht; [discriminate|].
  apply subtree_Some_inv in Ht as (f & nd & ts & [= <-] & E & Hts & ->).
  assert (exists ts', Forall2 (fun c t => to_tree fuel h c = Some t) (children nd) ts')
    as [ts' Hts'].
  { revert Hts. generalize (children nd). intros cs Hts.
    induction Hts as [|c t cs ts Hc _ [ts' IHts]]; [exists []; constructor|].
    destruct (IH _ _ Hc) as [t' Ht']. exists (t' :: ts'). constructor; assumption. }
  exists (TNode (model nd) ts'). apply to_tree_Some_intro; assumption.
Qed.

(** The copy has the payloads of the original when [payload] returns
    the payload of the node it is given. *)
Lemma rebuilt_models payload h0 L h' fuel :
  (forall n nd0 q hc m, h0 !! n = Some nd0 -> h0 `prefix_of` hc ->
     payload n q hc = Some m -> m = model nd0) ->
  forall this (t : tree T),
  to_tree fuel h0 this = Some t ->
  forall par r, rebuilt payload h0 L h' this par r -> tree_at L h' r t.
Proof.
  intros Hpay. induction fuel as [|fuel IH]; intros this t Ht par r Hr; [done|].
  apply to_tree_Some_inv in Ht as (fuel' & od & ts & [= <-] & E0 & Hts & ->).
  destruct Hr as [this par r od' nd hc HL E0' E1 Hpre _ Hm Hcs].
  assert (od' = od) as -> by congruence.
  rewrite <- (Hpay _ _ _ _ _ E0 Hpre Hm).
  apply tree_at_node; [done..|].
  clear E0 E0' E1 Hm. revert Hcs. generalize (children nd).
  induction Hts as [|c t cs ts Hc Hts IHl]; intros cs' Hcs.
  - apply Forall2_nil_inv_l in Hcs as ->. constructor.
  - apply Forall2_cons_inv_l in Hcs as (c' & cs'' & Hc' & Hcs' & ->).
    constructor; [eapply IH; eauto|now apply IHl].
Qed.

(** The copy is labelled by [g] when [payload] returns [g] of the node
    it is given. *)
Lemma rebuilt_labels payload h0 L h' (g : loc -> T) fuel :
  (forall n q hc m, is_Some (h0 !! n) -> h0 `prefix_of` hc ->
     payload n q hc = Some m -> m = g n) ->
  forall this (ta : tree loc),
  subtree fuel h0 this = Some ta ->
  forall par r, rebuilt payload h0 L h' this par r -> tree_at L h' r (tmap g ta).
Proof.
  intros Hpay. induction fuel as [|fuel IH]; intros this t Ht par r Hr; [done|].
  apply subtree_Some_inv in Ht as (fuel' & od & ts & [= <-] & E0 & Hts & ->).
  destruct Hr as [this par r od' nd hc HL E0' E1 Hpre _ Hm Hcs].
  assert (od' = od) as -> by congruence.
  simpl. rewrite <- (Hpay _ _ _ _ (mk_is_Some _ _ E0) Hpre Hm).
  apply tree_at_node; [done..|].
  clear E0 E0' E1 Hm. revert Hcs. generalize (children nd).
  induction Hts as [|c t cs ts Hc Hts IHl]; intros cs' Hcs.
  - apply Forall2_nil_inv_l in Hcs as ->. constructor.
  - apply Forall2_cons_inv_l in Hcs as (c' & cs'' & Hc' & Hcs' & ->).
    constructor; [eapply IH; eauto|now apply IHl].
Qed.

End Copies.


(** X20.  [TreeNode.parse(node.toObject())] builds a new tree with the
    payloads, order and shape of the subtree of the node. *)
Theorem toObject_then_parse {T} (h : heap T) fuel this (t : tree T) :
  to_tree fuel h this = Some t ->
  exists o h',
    toObject fuel h this = Some o /\
    parse o h = Ret (length h) h' /\ h `prefix_of` h' /\
    to_tree fuel h' (length h) = Some t /\ to_tree fuel h' this = Some t.
Proof.
  intros Ht. exists (object_of t).
  destruct (parse_parses (object_of t) h) as (h' & E & Hpre & Hta & _ & _).
  exists h'. rewrite toObject_to_tree, Ht. split; [done|]. split; [done|].
  split; [done|]. rewrite tree_of_object_of in Hta.
  pose proof (to_tree_height _ _ _ _ Ht) as Hh.
  split; [now apply (tree_at_to_tree _ _ _ _ _ Hta)|].
  eapply tree_at_to_tree; [|exact Hh].
  eapply tree_at_prefix; [exact Hpre|]. eapply to_tree_tree_at; eauto.
Qed.

Lemma toObject_then_parse_witness :
  exists o h',
    toObject 3 fixture_store 1 = Some o /\
    parse o fixture_store = Ret 5 h' /\ fixture_store `prefix_of` h' /\
    to_tree 3 h' 5 = Some (TNode "11" [TNode "111" []; TNode "112" []]) /\
    to_tree 3 h' 1 = Some (TNode "11" [TNode "111" []; TNode "112" []]).
Proof. exact (toObject_then_parse fixture_store 3 1 _ eq_refl). Defined.

(** X21.  [clone()] of a node with a finite subtree returns a new node
    without parent and with cached position 0, whose subtree has the
    payloads, order and shape of the original and is made of new nodes
    only; the nodes there were are untouched. *)
Theorem clone_copies {T} (h : heap T) fuel this (t : tree T) :
  to_tree fuel h this = Some t ->
  exists h' nd,
    clone fuel this h = Ret (length h) h' /\ h `prefix_of` h' /\
    h' !! length h = Some nd /\ parent nd = None /\ index nd = 0 /\
    tree_at (length h) h' (length h) t /\
    to_tree fuel h' (length h) = Some t /\ to_tree fuel h' this = Some t.
Proof.
  intros Ht.
  assert (forall n (q : option loc) hc,
            h `prefix_of` hc -> is_Some (h !! n) -> is_Some (model <$> hc !! n)) as Htot.
  { intros n _ hc Hpre [nd En]. rewrite (prefix_lookup_Some _ _ _ _ En Hpre). eauto. }
  destruct (rebuild_spec (fun n _ h => model <$> h !! n) h Htot fuel this None h t Ht)
    as (r & h' & E & -> & Hpre & (nd & Er & Hp & Hi) & _ & Hreb & _); [done|done|].
  assert (tree_at (length h) h' (length h) t) as Hta.
  { eapply rebuilt_models; [|exact Ht|exact Hreb].
    intros n nd0 q hc m En Hp0 Hm.
    cbv beta in Hm.
    rewrite (prefix_lookup_Some _ _ _ _ En Hp0) in Hm. simpl in Hm. congruence. }
  exists h', nd. rewrite (clone_rebuild _ _ None).
  split; [done|]. split; [done|]. split; [done|]. split; [done|]. split; [done|].
  split; [done|]. pose proof (to_tree_height _ _ _ _ Ht) as Hh. split.
  - eapply tree_at_to_tree; eauto.
  - eapply tree_at_to_tree; [|exact Hh].
    eapply tree_at_prefix; [exact Hpre|]. eapply to_tree_tree_at; eauto.
Qed.

Lemma clone_copies_witness :
  exists h' nd,
    clone 3 1 fixture_store = Ret 5 h' /\ fixture_store `prefix_of` h' /\
    h' !! 5 = Some nd /\ parent nd = None /\ index nd = 0 /\
    tree_at 5 h' 5 (TNode "11" [TNode "111" []; TNode "112" []]) /\
    to_tree 3 h' 5 = Some (TNode "11" [TNode "111" []; TNode "112" []]) /\
    to_tree 3 h' 1 = Some (TNode "11" [TNode "111" []; TNode "112" []]).
Proof. exact (clone_copies fixture_store 3 1 _ eq_refl). Defined.

(** X22.  [map(callback)] of a node with a finite subtree returns a new
    node without parent whose subtree has the shape of the original and,
    at the place of each node [n], the payload [callback(n)], for a
    callback whose result does not depend on the nodes [map] creates. *)
Theorem map_applies_callback {T} (h : heap T) fuel callback this (ta : tree loc) :
  subtree fuel h this = Some ta ->
  (forall n hc, h `prefix_of` hc -> is_Some (h !! n) -> callback n hc = callback n h) ->
  exists h' nd,
    map_node fuel callback this h = Ret (length h) h' /\ h `prefix_of` h' /\
    h' !! length h = Some nd /\ parent nd = None /\ index nd = 0 /\
    tree_at (length h) h' (length h) (tmap (fun n => callback n h) ta).
Proof.
  intros Hta Hcb. destruct (subtree_to_tree _ _ _ _ Hta) as [t Ht].
  assert (forall n (q : option loc) hc,
            h `prefix_of` hc -> is_Some (h !! n) -> is_Some (Some (callback n hc))) as Htot
    by eauto.
  destruct (rebuild_spec (fun n _ h => Some (callback n h)) h Htot fuel this None h t Ht)
    as (r & h' & E & -> & Hpre & (nd & Er & Hp & Hi) & _ & Hreb & _); [done|done|].
  exists h', nd. rewrite (map_rebuild _ _ _ None).
  split; [done|]. split; [done|]. split; [done|]. split; [done|]. split; [done|].
  eapply rebuilt_labels; [|exact Hta|exact Hreb].
  intros n q hc m Hn Hp0 [= <-]. now apply Hcb.
Qed.

Lemma map_applies_callback_witness :
  exists h' nd,
    map_node 3 (fun n _ => n) 0 [Node 7 None [1; 2] 0; Node 8 (Some 0) [] 0;
                                 Node 9 (Some 0) [] 1]
      = Ret 3 h' /\
    [Node 7 None [1; 2] 0; Node 8 (Some 0) [] 0; Node 9 (Some 0) [] 1] `prefix_of` h' /\
    h' !! 3 = Some nd /\ parent nd = None /\ index nd = 0 /\
    tree_at 3 h' 3 (TNode 0 [TNode 1 []; TNode 2 []]).
Proof.
  exact (map_applies_callback
           [Node 7 None [1; 2] 0; Node 8 (Some 0) [] 0; Node 9 (Some 0) [] 1]
           3 (fun n _ => n) 0 (TNode 0 [TNode 1 []; TNode 2 []]) eq_refl
           (fun _ _ _ _ => eq_refl)).
Defined.

(** ** [add], [drop] and [swap] on shapes *)

Section Shapes.
Context {T : Type}.
Implicit Types (h : heap T) (nd : node T) (n p c x r : loc).

Lemma to_tree_subtree fuel h : forall this (t : tree T),
  to_tree fuel h this = Some t -> exists ta, subtree fuel h this = Some ta.
Proof.
  induction fuel as [|fuel IH]; intros this t Ht; [discriminate|].
  apply to_tree_Some_inv in Ht as (f & nd & ts & [= <-] & E & Hts & ->).
  assert (exists ts', Forall2 (fun c t => subtree fuel h c = Some t) (children nd) ts')
    as [ts' Hts'].
  { revert Hts. generalize (children nd). intros cs Hts.
    induction Hts as [|c t cs ts Hc _ [ts' IHts]]; [exists []; constructor|].
    destruct (IH _ _ Hc) as [t' Ht']. exists (t' :: ts'). constructor; assumption. }
  exists (TNode this ts'). apply (subtree_Some_intro _ _ _ nd); assumption.
Qed.

Lemma to_tree_mono fuel fuel' h this (t : tree T) :
  to_tree fuel h this = Some t -> fuel <= fuel' -> to_tree fuel' h this = Some t.
Proof.
  intros Ht Hle. eapply tree_at_to_tree; [eapply to_tree_tree_at; eauto|].
  apply to_tree_height in Ht. lia.
Qed.

(** A finite subtree has no way back to its root. *)
Lemma no_cycle fuel h this (t : tree T) nd c :
  to_tree fuel h this = Some t -> h !! this = Some nd -> c ∈ children nd ->
  descendant h c this -> False.
Proof.
  intros Ht E Hc Hd. destruct (to_tree_subtree _ _ _ _ Ht) as [ta Hta].
  destruct (preorder_child _ _ _ _ _ _ Hta E Hc) as [Hin Hne].
  destruct (preorder_subtree _ _ _ _ _ Hta Hin) as (tc & Hsc & _ & _ & Hlt).
  apply (preorder_descendant _ _ _ _ _ Hsc) in Hd.
  destruct (preorder_subtree _ _ _ _ _ Hsc Hd) as (t' & Hs' & Hle & _).
  rewrite Hta in Hs'. injection Hs' as <-. specialize (Hlt Hne). lia.
Qed.

(** The shape of a subtree depends on the payloads and children of its
    nodes only. *)
Lemma to_tree_frame fuel h h' : forall this (t : tree T),
  to_tree fuel h this = Some t ->
  (forall x a, descendant h this x -> h !! x = Some a ->
     exists b, h' !! x = Some b /\ model b = model a /\ children b = children a) ->
  to_tree fuel h' this = Some t.
Proof.
  induction fuel as [|fuel IH]; intros this t Ht Hfr; [discriminate|].
  apply to_tree_Some_inv in Ht as (f & nd & ts & [= <-] & E & Hts & ->).
  destruct (Hfr _ _ (descendant_self _ _) E) as (b & Eb & <- & Hcb).
  apply to_tree_Some_intro; [done|]. rewrite Hcb.
  apply Forall2_same_length_lookup. split; [eapply Forall2_length, Hts|].
  intros i c t Hc Ht. apply IH.
  - exact (Forall2_lookup_lr _ _ _ _ _ _ Hts Hc Ht).
  - intros x a Hd Ex. apply Hfr; [|done].
    eapply descendant_trans; [|exact Hd].
    eapply descendant_step; [exact E|]. eapply list_elem_of_lookup_2; eauto.
Qed.

(** When only the children of [this] are replaced, the subtrees of its
    former children keep their shapes. *)
Lemma children_shapes_kept fuel h h' this nd (ts : list (tree T)) :
  h !! this = Some nd ->
  Forall2 (fun c t => to_tree fuel h c = Some t) (children nd) ts ->
  (forall x a, x <> this -> h !! x = Some a ->
     exists b, h' !! x = Some b /\ model b = model a /\ children b = children a) ->
  Forall2 (fun c t => to_tree fuel h' c = Some t) (children nd) ts.
Proof.
  intros E Hts Hfr.
  pose proof (to_tree_Some_intro _ _ _ _ _ E Hts) as Ht.
  apply Forall2_same_length_lookup. split; [eapply Forall2_length, Hts|].
  intros i c t Hc Hti.
  apply (to_tree_frame _ h); [exact (Forall2_lookup_lr _ _ _ _ _ _ Hts Hc Hti)|].
  intros x a Hd Ex. apply Hfr; [|done]. intros ->.
  eapply no_cycle; [exact Ht|exact E| |exact Hd].
  eapply list_elem_of_lookup_2; eauto.
Qed.

Lemma to_tree_children_valid fuel h this (t : tree T) nd :
  to_tree fuel h this = Some t -> h !! this = Some nd ->
  forall c, c ∈ children nd -> is_Some (h !! c).
Proof.
  intros Ht E c Hc.
  apply to_tree_Some_inv in Ht as (f & nd' & ts & -> & E' & Hts & ->).
  assert (nd' = nd) as -> by congruence.
  apply list_elem_of_lookup in Hc as [i Hi].
  destruct (Forall2_lookup_l _ _ _ _ _ Hts Hi) as (tc & _ & Htc).
  apply to_tree_Some_inv in Htc as (? & cd & ? & _ & Ec & _). eauto.
Qed.

End Shapes.

(** X23.  [add(child, index?)] with the position in range or omitted puts
    the subtree of the child at that position among the subtrees of the
    children of the node, when both subtrees are finite and the node is
    not in the subtree of the child; the subtree of the child is as it
    was. *)
Theorem add_inserts_subtree {T} (h : heap T) this child idx fuel fuelc m
    (ts : list (tree T)) (tc : tree T) :
  to_tree fuel h this = Some (TNode m ts) ->
  to_tree fuelc h child = Some tc ->
  ~ descendant h child this ->
  in_range idx (length ts) ->
  exists h' fuel',
    add this child idx h = Ret child h' /\
    to_tree fuel' h' this
    = Some (TNode m (take (add_position idx (length ts)) ts
                     ++ tc :: drop (add_position idx (length ts)) ts)) /\
    to_tree fuelc h' child = Some tc.
Proof.
  intros Ht Hc Hnd Hr.
  pose proof Ht as Ht0.
  apply to_tree_Some_inv in Ht as (f & td & ts' & -> & Et & Hts & Heq).
  injection Heq as -> ->. rename ts' into ts.
  pose proof Hc as Hc0.
  apply to_tree_Some_inv in Hc as (fc & cd & tsc & -> & Ec & Htsc & ->).
  pose proof (Forall2_length _ _ _ Hts) as Hlen.
  assert (this <> child) as Hne by (intros ->; apply Hnd, descendant_self).
  assert (exists h', add this child idx h = Ret child h' /\
            cells_rel (fun x a b =>
              model b = model a /\
              children b = (if decide (x = this) then added idx child (children a)
                            else children a)) h h') as (h' & E & W).
  { destruct idx as [i|].
    - destruct (add_insert_spec this child i h td cd Et Ec) as (h' & E & W).
      + exact (to_tree_children_valid _ _ _ _ _ Ht0 Et).
      + simpl in Hr. lia.
      + exists h'. split; [done|]. eapply cells_rel_weaken; [exact W|].
        simpl. intros x a b Ex (Hm & _ & Hcs & _). split; [done|]. rewrite Hcs.
        destruct (decide (x = this)) as [->|]; [|done].
        assert (a = td) as -> by congruence. done.
    - destruct (add_append_spec this child h td cd Et Ec) as (h' & E & W).
      exists h'. split; [done|]. eapply cells_rel_weaken; [exact W|].
      simpl. intros x a b _ ->. done. }
  assert (forall x a, x <> this -> h !! x = Some a ->
            exists b, h' !! x = Some b /\ model b = model a /\ children b = children a)
    as Hfr.
  { intros x a Hx Ex. destruct (proj2 W _ _ Ex) as (b & Eb & Hm & Hcs).
    exists b. rewrite decide_False in Hcs by done. done. }
  assert (to_tree (S fc) h' child = Some (TNode (model cd) tsc)) as Hc'.
  { apply (to_tree_frame _ h); [done|]. intros x a Hd Ex. apply Hfr; [|done].
    intros ->. done. }
  exists h', (S (max f (S fc))). split; [done|]. split; [|done].
  destruct (proj2 W _ _ Et) as (b & Eb & Hm & Hcs).
  rewrite decide_True in Hcs by done.
  rewrite <- Hm. apply to_tree_Some_intro; [done|]. rewrite Hcs.
  clear Ht0.
  pose proof (children_shapes_kept _ _ _ _ _ _ Et Hts Hfr) as Hts'.
  assert (Forall2 (fun c t => to_tree (max f (S fc)) h' c = Some t) (children td) ts)
    as Hts2.
  { eapply Forall2_impl; [exact Hts'|]. intros c t Hct.
    eapply to_tree_mono; [exact Hct|lia]. }
  assert (to_tree (max f (S fc)) h' child = Some (TNode (model cd) tsc)) as Hc2
    by (eapply to_tree_mono; [exact Hc'|lia]).
  rewrite <- Hlen.
  destruct idx as [i|]; simpl.
  - unfold splice_in. apply Forall2_app; [now apply Forall2_take|].
    constructor; [done|now apply Forall2_drop].
  - rewrite take_ge, drop_ge by lia.
    apply Forall2_app; [done|]. constructor; [done|constructor].
Qed.

Lemma add_inserts_subtree_witness :
  exists h' fuel',
    add 1 5 (Some 1%Z) (fixture_store ++ [Node "x" None [] 0]) = Ret 5 h' /\
    to_tree fuel' h' 1
    = Some (TNode "11" (take (add_position (Some 1%Z) 2) [TNode "111" []; TNode "112" []]
                        ++ TNode "x" []
                           :: drop (add_position (Some 1%Z) 2)
                                [TNode "111" []; TNode "112" []])) /\
    to_tree 1 h' 5 = Some (TNode "x" []).
Proof.
  refine (add_inserts_subtree (fixture_store ++ [Node "x" None [] 0]) 1 5 (Some 1%Z)
            2 1 "11" [TNode "111" []; TNode "112" []] (TNode "x" [])
            eq_refl eq_refl _ _).
  - intros Hd.
    apply (leaf_descendant _ 5 (Node "x" None [] 0)) in Hd; [discriminate|done|done].
  - simpl. lia.
Defined.

(** X24.  Under Invariant 1, [drop()] of a node with a parent whose
    subtree is finite takes the subtree of the node out of the subtrees
    of the parent's children, at the cached position, and leaves the
    subtree of the node and those of its siblings as they were. *)
Theorem drop_removes_subtree {T} (h : heap T) this td p fuel m (ts : list (tree T)) :
  index_inv h -> h !! this = Some td -> parent td = Some p ->
  to_tree fuel h p = Some (TNode m ts) ->
  exists h' t,
    ts !! index td = Some t /\
    drop_node this h = Ret this h' /\
    to_tree fuel h' p = Some (TNode m (delete (index td) ts)) /\
    to_tree fuel h' this = Some t.
Proof.
  intros Hinv Et Hp Ht. pose proof Ht as Ht0.
  destruct (Hinv _ _ _ Et Hp) as (pd & Ep & Hthis).
  apply to_tree_Some_inv in Ht as (f & pd' & ts' & -> & Ep' & Hts & Heq).
  assert (pd' = pd) as -> by congruence.
  injection Heq as -> ->. rename ts' into ts.
  destruct (drop_spec this h td p pd Et Hp Ep) as (h' & E & W).
  { exact (to_tree_children_valid _ _ _ _ _ Ht0 Ep). }
  simpl in W.
  assert (forall x a, x <> p -> h !! x = Some a ->
            exists b, h' !! x = Some b /\ model b = model a /\ children b = children a)
    as Hfr.
  { intros x a Hx Ex. destruct (proj2 W _ _ Ex) as (b & Eb & Hm & _ & Hcs & _).
    exists b. rewrite decide_False in Hcs by done. done. }
  pose proof (children_shapes_kept _ _ _ _ _ _ Ep Hts Hfr) as Hts'.
  destruct (Forall2_lookup_l _ _ _ _ _ Hts' Hthis) as (t & Hti & Htt).
  exists h', t. split; [done|]. split; [done|]. split.
  - destruct (proj2 W _ _ Ep) as (b & Eb & Hm & _ & Hcs & _).
    rewrite decide_True in Hcs by done.
    rewrite <- Hm. apply to_tree_Some_intro; [done|]. rewrite Hcs.
    now apply Forall2_delete.
  - eapply to_tree_mono; [exact Htt|lia].
Qed.

Lemma drop_removes_subtree_witness :
  exists h' t,
    [TNode "11" [TNode "111" []; TNode "112" []]; TNode "12" []] !! 0 = Some t /\
    drop_node 1 fixture_store = Ret 1 h' /\
    to_tree 3 h' 0
    = Some (TNode "1" (delete 0 [TNode "11" [TNode "111" []; TNode "112" []];
                                 TNode "12" []])) /\
    to_tree 3 h' 1 = Some t.
Proof.
  exact (drop_removes_subtree fixture_store 1 (Node "11" (Some 0) [2; 3] 0) 0 3 "1" _
           (proj1 fixture_forest) eq_refl eq_refl eq_refl).
Defined.

(** X25.  [swap(i, j)] with positions in range exchanges the subtrees at
    the two positions among the subtrees of the children of a node with
    a finite subtree. *)
Theorem swap_exchanges_subtrees {T} (h : heap T) this (i j : Z) fuel m
    (ts : list (tree T)) :
  to_tree fuel h this = Some (TNode m ts) ->
  (0 <= i < Z.of_nat (length ts))%Z -> (0 <= j < Z.of_nat (length ts))%Z ->
  exists h' ti tj,
    ts !! Z.to_nat i = Some ti /\ ts !! Z.to_nat j = Some tj /\
    swap this i j h = Ret tt h' /\
    to_tree fuel h' this
    = Some (TNode m (<[Z.to_nat j := ti]> (<[Z.to_nat i := tj]> ts))).
Proof.
  intros Ht Hi Hj. pose proof Ht as Ht0.
  apply to_tree_Some_inv in Ht as (f & td & ts' & -> & Et & Hts & Heq).
  injection Heq as -> ->. rename ts' into ts.
  pose proof (Forall2_length _ _ _ Hts) as Hlen.
  destruct (lookup_lt_is_Some_2 ts (Z.to_nat i)) as [ti Hti]; [lia|].
  destruct (lookup_lt_is_Some_2 ts (Z.to_nat j)) as [tj Htj]; [lia|].
  destruct (Forall2_lookup_r _ _ _ _ _ Hts Hti) as (ci & Hci & Hsi).
  destruct (Forall2_lookup_r _ _ _ _ _ Hts Htj) as (cj & Hcj & Hsj).
  destruct (decide (i = j)) as [->|Hne].
  - exists h, ti, tj. split; [done|]. split; [done|].
    split; [apply (swap_same _ _ _ td); [done|lia]|].
    assert (tj = ti) as -> by congruence.
    rewrite Ht0. do 2 f_equal.
    rewrite list_insert_insert_eq. symmetry. now apply list_insert_id.
  - destruct (swap_spec this i j h td ci cj Et) as (h' & E & W);
      [exact (to_tree_children_valid _ _ _ _ _ Ht0 Et)|done|done|lia|done|lia|].
    exists h', ti, tj. split; [done|]. split; [done|]. split; [done|].
    assert (forall x a, x <> this -> h !! x = Some a ->
              exists b, h' !! x = Some b /\ model b = model a /\ children b = children a)
      as Hfr.
    { intros x a Hx Ex. rewrite (relinked_lookup _ _ _ _ _ _ _ W Ex).
      eexists. split; [done|]. simpl. now rewrite decide_False. }
    pose proof (children_shapes_kept _ _ _ _ _ _ Et Hts Hfr) as Hts'.
    pose proof (relinked_lookup _ _ _ _ _ _ _ W Et) as Et'. simpl in Et'.
    rewrite decide_True in Et' by done.
    apply (to_tree_Some_intro _ _ _ _ _ Et'). simpl.
    apply Forall2_insert; [apply Forall2_insert; [done|]|].
    + exact (Forall2_lookup_lr _ _ _ _ _ _ Hts' Hcj Htj).
    + exact (Forall2_lookup_lr _ _ _ _ _ _ Hts' Hci Hti).
Qed.

Lemma swap_exchanges_subtrees_witness :
  exists h' ti tj,
    [TNode "11" [TNode "111" []; TNode "112" []]; TNode "12" []] !! Z.to_nat 0 = Some ti /\
    [TNode "11" [TNode "111" []; TNode "112" []]; TNode "12" []] !! Z.to_nat 1 = Some tj /\
    swap 0 0 1 fixture_store = Ret tt h' /\
    to_tree 3 h' 0
    = Some (TNode "1" (<[Z.to_nat 1 := ti]>
                         (<[Z.to_nat 0 := tj]>
                            [TNode "11" [TNode "111" []; TNode "112" []]; TNode "12" []]))).
Proof.
  refine (swap_exchanges_subtrees fixture_store 0 0 1 3 "1" _ eq_refl _ _); simpl; lia.
Defined.

(** ** Array payloads in the nested-array form *)

Section Values.
Context {A : Type}.

Lemma array_head_ne (m : jsval A) rest : m <> Array (m :: rest).
Proof.
  intros H. apply (f_equal jsval_size) in H. simpl in H. lia.
Qed.

Lemma decode_array_model (items : list (jsval A)) :
  tmodel (decode (Array items)) <> Array items.
Proof.
  destruct items as [|m rest]; [done|].
  assert (tmodel (decode (Array (m :: rest))) = m) as ->.
  { simpl. destruct rest as [|r0 rest']; [done|].
    destruct r0 as [|a|inner]; try (destruct (negb _); done).
    destruct rest' as [|r1 rest'']; destruct (negb _); done. }
  apply array_head_ne.
Qed.
End Values.

(** X26.  A leaf whose payload is an array does not come back from the
    nested-array form: [toNestedArray] returns the array itself, and
    [fromNestedArray] takes its first item for the payload of the root
    and the other items for descendants. *)
Theorem array_payload_not_restored {A} (h : heap (jsval A)) this nd items :
  h !! this = Some nd -> children nd = [] -> model nd = Array items ->
  exists h',
    toNestedArray 1 h this = Some (Array items) /\
    fromNestedArray (Array items) h = Ret (length h) h' /\
    forall fuel, to_tree fuel h' (length h) <> Some (TNode (Array items) []).
Proof.
  intros E Hc Hm.
  destruct (fromNestedArray_builds (Array items) h) as (h' & Ef & _ & Ht).
  exists h'. split.
  { simpl. rewrite E. simpl. rewrite Hc. simpl. now rewrite Hm. }
  split; [done|]. intros fuel Hfuel.
  apply to_tree_tree_at in Hfuel.
  pose proof (tree_at_functional _ _ _ _ _ _ Ht Hfuel) as Heq.
  apply (decode_array_model items). now rewrite Heq.
Qed.

Lemma array_payload_not_restored_witness :
  exists h',
    toNestedArray 1 [Node (Array [Scalar "a"; Scalar "b"]) None [] 0] 0
      = Some (Array [Scalar "a"; Scalar "b"]) /\
    fromNestedArray (Array [Scalar "a"; Scalar "b"])
      [Node (Array [Scalar "a"; Scalar "b"]) None [] 0] = Ret 1 h' /\
    forall fuel, to_tree fuel h' 1 <> Some (TNode (Array [Scalar "a"; Scalar "b"]) []).
Proof.
  exact (array_payload_not_restored [Node (Array [Scalar "a"; Scalar "b"]) None [] 0] 0
           _ [Scalar "a"; Scalar "b"] eq_refl eq_refl eq_refl).
Defined.
